(** * Vibify: the Spotify client library and the token refresh callback

    A shallow embedding of [lib/spotify.ts] (request queue, retry wrapper,
    audio-feature batching, recommendation cascade, derived metrics) and of
    [refreshAccessToken] from the NextAuth route, with the properties the
    design document states about them.

    Conventions of the embedding.
    - A JavaScript [number] that counts things (a limit, a retry budget, an
      attempt index, an array position) is a [nat]; a [number] that is a
      quantity in its own right (a status code, milliseconds, a timestamp)
      is a [Z]; the audio features and the scores derived from them are
      exact rationals [Q].
    - Asynchronous code that is awaited step by step is written in a small
      state-and-exception monad [M]: the state is the remote service
      together with a log of what the program did to the outside world.
    - The request queue, the one place where calls overlap, is a transition
      system over the two fields of the class. *)

From Stdlib Require Import ZArith QArith Qminmax Qround Lqa Lia Ascii String.
From stdpp Require Import base option list gmap strings pretty.

Open Scope string_scope.
Open Scope list_scope.
Open Scope nat_scope.

(** * Part I: the program *)

(** ** Derived metrics *)

Module Metrics.

(** [Math.max(0, Math.min(100, ((valence + energy) / 2) * 100))] *)
Definition calculateMoodScore (valence energy : Q) : Q :=
  Qmax 0 (Qmin 100 (((valence + energy) / 2) * 100)).

(** The design document's [clamp(x, lo, hi)], written from its words: the
    value itself when it lies between the bounds, else the bound it
    crosses. *)
Definition clamp (x lo hi : Q) : Q :=
  if Qlt_le_dec x lo then lo
  else if Qlt_le_dec hi x then hi
  else x.


(** [Math.max(0, Math.min(100, 100 - popularity))] *)
Definition calculateObscurityScore (popularity : Q) : Q :=
  Qmax 0 (Qmin 100 (100 - popularity)).

(** [Math.min((new Set(genres).size / 20) * 100, 100)].  The quotient
    and the product are exact here; the code rounds each of them to a
    double, so that its value can differ from this one in the last place
    (for 11 genres it is 55.00000000000001).  What is stated of this
    function below is what the rounding leaves untouched. *)
Definition calculateDiversityScore (genres : list string) : Q :=
  let uniqueGenres : gset string := list_to_set genres in
  Qmin ((inject_Z (Z.of_nat (size uniqueGenres)) / 20) * 100) 100.

End Metrics.

(** ** Arrays *)

Module Arr.

(** [array.slice(b, e)] for [0 <= b <= e]; positions past the end are
    simply absent from the result. *)
Definition slice {T} (array : list T) (b e : nat) : list T :=
  take (e - b) (drop b array).

(** The [for] loop of [chunkArray]: [i] is the loop variable, [chunks] the
    accumulator.  The loop is not structurally recursive ([i += size] makes
    no progress when [size] is 0), so it runs on fuel; [None] means the
    fuel ran out. *)
Fixpoint chunkArray_loop {T} (fuel : nat) (array : list T) (size i : nat)
    (chunks : list (list T)) : option (list (list T)) :=
  if length array <=? i then Some chunks
  else match fuel with
       | O => None
       | S fuel' =>
           chunkArray_loop fuel' array size (i + size)
             (chunks ++ [slice array i (i + size)])
       end.

(** [chunkArray(array, size)].  One unit of fuel per element is enough
    whenever [size] is positive (lemma [chunkArray_loop_fuel]). *)
Definition chunkArray {T} (array : list T) (size : nat) : option (list (list T)) :=
  chunkArray_loop (length array) array size 0 [].

End Arr.

(** ** JavaScript values the library handles *)

Module Js.

(** The result of [parseInt] and of arithmetic on it. *)
Inductive Num := Int (z : Z) | NaN.

Definition mul (a b : Num) : Num :=
  match a, b with
  | Int x, Int y => Int (x * y)
  | _, _ => NaN
  end.

(** What the code reads from a thrown value: [statusCode], [message],
    [headers] and [response.status].  An [Error] built with [new Error(msg)]
    has only a message. *)
Record Error := {
  statusCode : option Z;
  message : string;
  headers : option (gmap string string);
  response_status : option Z
}.

Definition newError (msg : string) : Error :=
  {| statusCode := None; message := msg; headers := None; response_status := None |}.

(** [s.includes(sub)] *)
Definition includes (s sub : string) : bool :=
  match String.index 0 sub s with Some _ => true | None => false end.

(** [s.startsWith(p)] *)
Definition startsWith (s p : string) : bool := String.prefix p s.

(** Truthiness of a string: only the empty string is falsy. *)
Definition truthy (s : string) : bool :=
  match s with EmptyString => false | _ => true end.

(** *** [parseInt(s)] with no radix argument

    Leading white space is skipped, one sign is accepted, a [0x] prefix
    switches to base 16, and the longest run of digits is read; no digit at
    all gives [NaN]. *)
Definition isSpace (c : ascii) : bool :=
  let n := nat_of_ascii c in
  (n =? 32) || (n =? 9) || (n =? 10) || (n =? 11) || (n =? 12) || (n =? 13).

Fixpoint trimStart (s : string) : string :=
  match s with
  | String c s' => if isSpace c then trimStart s' else s
  | EmptyString => s
  end.

Definition digitValue (radix : nat) (c : ascii) : option Z :=
  let n := nat_of_ascii c in
  let v :=
    if (48 <=? n) && (n <=? 57) then Some (n - 48)
    else if (97 <=? n) && (n <=? 122) then Some (n - 97 + 10)
    else if (65 <=? n) && (n <=? 90) then Some (n - 65 + 10)
    else None in
  match v with
  | Some d => if d <? radix then Some (Z.of_nat d) else None
  | None => None
  end.

(** Reads digits left to right; [acc] is [None] until the first digit. *)
Fixpoint readDigits (radix : nat) (s : string) (acc : option Z) : option Z :=
  match s with
  | String c s' =>
      match digitValue radix c with
      | Some d => readDigits radix s' (Some (default 0%Z acc * Z.of_nat radix + d)%Z)
      | None => acc
      end
  | EmptyString => acc
  end.

Definition readUnsigned (s : string) : option Z :=
  match s with
  | String "0" (String "x" s') => readDigits 16 s' None
  | String "0" (String "X" s') => readDigits 16 s' None
  | _ => readDigits 10 s None
  end.

Definition parseInt (s : string) : Num :=
  let t := trimStart s in
  let '(neg, body) :=
    match t with
    | String "-" t' => (true, t')
    | String "+" t' => (false, t')
    | _ => (false, t)
    end in
  match readUnsigned body with
  | Some z => Int (if neg then - z else z)
  | None => NaN
  end.

End Js.

(** ** The remote service *)

Module Http.

Record Artist := { artist_name : string }.
Record Image := { url : string }.

(** A track as the recommendations endpoint returns it and as
    [createFallbackRecommendations] builds it. *)
Record Track := {
  id : string;
  name : string;
  artists : list Artist;
  album_images : list Image;
  external_urls_spotify : string
}.

Record AudioFeatures := {
  danceability : Q;
  energy : Q;
  valence : Q;
  tempo : Q;
  acousticness : Q;
  instrumentalness : Q
}.

(** The fields the library reads from a decoded response body; a field
    that is [None] is [undefined] in the JavaScript object. *)
Record Json := {
  tracks : option (list Track);
  genres : option (list string);
  audio_features : option (list AudioFeatures)
}.

(** [response.json()] either resolves to the decoded body or rejects. *)
Inductive Body := Parsed (data : Json) | Unparsable (e : Js.Error).

Record Response := {
  status : Z;
  statusText : string;
  body : Body
}.

(** [response.ok]: the status is in the range 200-299. *)
Definition ok (r : Response) : bool :=
  ((200 <=? status r) && (status r <=? 299))%Z.

(** [fetch] resolves to a response or rejects (network failure). *)
Inductive FetchOutcome := NetErr (e : Js.Error) | Resp (r : Response).

Inductive Endpoint :=
| AudioFeaturesOf (ids : list string)
| Recommendations (seed_genres seed_tracks : list string)
                  (target_popularity : Z) (limit : nat)
| AvailableGenreSeeds.

Record Request := { endpoint : Endpoint; bearer : string }.

(** The remote service: any state type [W] with a function answering a
    request in a state. *)
Class Remote (W : Type) := serve : Request -> W -> FetchOutcome * W.

End Http.

(** ** Effects: remote state, a log, exceptions *)

Module Eff.
Import Http.

(** What the program does that the outside can observe.  [EvInvoke] marks
    the moment the retry wrapper calls its operation; [EvAttemptFailed] is
    the wrapper's [console.error('Attempt n failed:', ...)]. *)
Inductive Event :=
| EvFetch (req : Request) (out : FetchOutcome)
| EvDelay (ms : Js.Num)
| EvInvoke (attempt : nat)
| EvAttemptFailed (attempt : nat) (error : Js.Error).

Inductive Res (A : Type) :=
| Ok (a : A)
| Throw (e : Js.Error)
| Hang.
Arguments Ok {A} a.
Arguments Throw {A} e.
Arguments Hang {A}.

Record Sys (W : Type) := { remote : W; log : list Event }.
Arguments remote {W} _.
Arguments log {W} _.

Definition M (W A : Type) : Type := Sys W -> Res A * Sys W.

Definition record {W} (ev : Event) (s : Sys W) : Sys W :=
  {| remote := remote s; log := log s ++ [ev] |}.

Definition ret {W A} (a : A) : M W A := fun s => (Ok a, s).
Definition throw {W A} (e : Js.Error) : M W A := fun s => (Throw e, s).
Definition hang {W A} : M W A := fun s => (Hang, s).

Definition bind {W A B} (m : M W A) (k : A -> M W B) : M W B :=
  fun s =>
    match m s with
    | (Ok a, s') => k a s'
    | (Throw e, s') => (Throw e, s')
    | (Hang, s') => (Hang, s')
    end.

(** [try { m } catch (error) { handler(error) }] *)
Definition tryCatch {W A} (m : M W A) (handler : Js.Error -> M W A) : M W A :=
  fun s =>
    match m s with
    | (Throw e, s') => handler e s'
    | other => other
    end.

Definition emit {W} (ev : Event) : M W unit := fun s => (Ok tt, record ev s).

(** [await delay(ms)] *)
Definition delay {W} (ms : Js.Num) : M W unit := emit (EvDelay ms).

(** [await fetch(url, { headers })] *)
Definition fetch {W} `{Remote W} (req : Request) : M W Response :=
  fun s =>
    let '(out, w) := serve req (remote s) in
    let s' := {| remote := w; log := log s ++ [EvFetch req out] |} in
    match out with
    | NetErr e => (Throw e, s')
    | Resp r => (Ok r, s')
    end.

(** [await response.json()] *)
Definition json {W} (r : Response) : M W Json :=
  match body r with
  | Parsed data => ret data
  | Unparsable e => throw e
  end.

(** An operation that only talks to the remote state, lifted to [M]. *)
Definition liftOp {W A} (f : W -> Res A * W) : M W A :=
  fun s => let '(r, w) := f (remote s) in (r, {| remote := w; log := log s |}).

(** [behaves P m]: from every state [m] comes back (it does not hang) and
    what it adds to the log are events satisfying [P]. *)
Definition behaves {W A} (P : Event -> Prop) (m : M W A) : Prop :=
  forall s r s',
    m s = (r, s') ->
    r <> Hang /\ exists evs, log s' = log s ++ evs /\ Forall P evs.

End Eff.

Declare Scope eff_scope.
Delimit Scope eff_scope with eff.
Notation "'let*' x ':=' m 'in' k" := (Eff.bind m (fun x => k))
  (at level 10, x name, m at level 100, k at level 200,
   format "'[v' 'let*'  x  ':='  m  'in' '/' k ']'") : eff_scope.
Notation "m ';;' k" := (Eff.bind m (fun _ => k))
  (at level 100, k at level 200, right associativity) : eff_scope.
Open Scope eff_scope.

(** ** [lib/spotify.ts] *)

Module Spotify.
Import Http Eff.

(** *** [retryableSpotifyCall] *)

Definition isAuthError (error : Js.Error) : bool :=
  match Js.statusCode error with
  | Some c => ((c =? 401) || (c =? 403))%Z
  | None => false
  end.

Definition isRateLimit (error : Js.Error) : bool :=
  match Js.statusCode error with
  | Some c => (c =? 429)%Z
  | None => false
  end.

(** [error?.headers?.['retry-after']] *)
Definition retryAfterHeader (error : Js.Error) : option string :=
  match Js.headers error with
  | Some h => h !! "retry-after"
  | None => None
  end.

(** [initialDelayMs * Math.pow(2, attempt - 1)] *)
Definition backoff (initialDelayMs : Z) (attempt : nat) : Js.Num :=
  Js.Int (initialDelayMs * 2 ^ Z.of_nat (attempt - 1)).

(** The conditional expression bound to [retryAfter] in the 429 branch:
    the header is used when it is truthy. *)
Definition retryAfter (error : Js.Error) (initialDelayMs : Z) (attempt : nat) : Js.Num :=
  match retryAfterHeader error with
  | Some h =>
      if Js.truthy h then Js.mul (Js.parseInt h) (Js.Int 1000)
      else backoff initialDelayMs attempt
  | None => backoff initialDelayMs attempt
  end.

Definition rateLimitMessage : string :=
  "Rate limit exceeded. Too many requests to Spotify API. Please try again later.".

Section Retry.
Context {W T : Type}.
Variable operation : M W T.
Variable maxRetries : nat.
Variable initialDelayMs : Z.

(** The code after the loop. *)
Definition exhausted (lastError : option Js.Error) : M W T :=
  match lastError with
  | Some e =>
      if isRateLimit e then throw (Js.newError rateLimitMessage) else throw e
  | None => throw (Js.newError "Unknown error occurred during Spotify API call")
  end.

(** The loop [for (attempt = 1; attempt <= maxRetries; attempt++)], by
    recursion on the number of iterations still to run. *)
Fixpoint retryLoop (remaining attempt : nat) (lastError : option Js.Error) : M W T :=
  match remaining with
  | O => exhausted lastError
  | S remaining' =>
      tryCatch (emit (EvInvoke attempt) ;; operation)
        (fun error =>
           emit (EvAttemptFailed attempt error) ;;
           if isAuthError error then throw error
           else
             let next := retryLoop remaining' (S attempt) (Some error) in
             let plain :=
               (if attempt <? maxRetries
                then delay (backoff initialDelayMs attempt)
                else ret tt) ;; next in
             if isRateLimit error then
               if attempt <? maxRetries
               then delay (retryAfter error initialDelayMs attempt) ;; next
               else plain
             else plain)
  end.

Definition retryableSpotifyCall : M W T := retryLoop maxRetries 1 None.

End Retry.

(** [requestQueue.add(fn)] as seen by a caller that awaits it: the value
    or exception of [fn].  How the queue orders overlapping calls is the
    subject of [RequestQueue] below. *)
Definition requestQueue_add {W T} (fn : M W T) : M W T := fn.

(** *** [getAvailableGenres] *)

Definition defaultGenres : list string := ["pop"; "rock"; "indie"].

Section Calls.
Context {W : Type} `{Remote W}.

Definition getAvailableGenres (accessToken : string) : M W (list string) :=
  if negb (Js.truthy accessToken) then throw (Js.newError "No access token provided")
  else
    tryCatch
      (requestQueue_add
         (retryableSpotifyCall
            (let* response := fetch {| endpoint := AvailableGenreSeeds; bearer := accessToken |} in
             if negb (ok response) then ret defaultGenres
             else
               let* data := json response in
               ret (default defaultGenres (genres data)))
            3 1000))
      (fun _ => ret defaultGenres).

(** *** [createFallbackRecommendations] *)

(** [Array(limit).fill(null).map((_, index) => ...)] *)
Definition createFallbackRecommendations (limit : nat) : list Track :=
  map (fun index =>
         {| id := "fallback-" +:+ pretty index;
            name := "Fallback Track " +:+ pretty (index + 1);
            artists := [ {| artist_name := "Various Artists" |} ];
            album_images := [ {| url := "/placeholder.svg" |} ];
            external_urls_spotify := "https://open.spotify.com" |})
      (seq 0 limit).

(** *** [getRecommendations] *)

Definition isAlnum (c : ascii) : bool :=
  let n := nat_of_ascii c in
  ((48 <=? n) && (n <=? 57)) || ((65 <=? n) && (n <=? 90)) || ((97 <=? n) && (n <=? 122)).

(** [/^[0-9A-Za-z]{22}$/.test(id)] *)
Definition validTrackId (id : string) : bool :=
  (String.length id =? 22) && forallb isAlnum (list_ascii_of_string id).

(** The body of both [try] blocks that query the recommendations endpoint:
    fetch, reject a response that is not ok, decode, read
    [data.tracks.length] for the log line (a [TypeError] when the field is
    missing), return [data.tracks]. *)
Definition requestRecommendations (accessToken : string)
    (seed_genres seed_tracks : list string) (targetPopularity : Z) (limit : nat)
    : M W (list Track) :=
  let* response :=
    fetch {| endpoint := Recommendations seed_genres seed_tracks targetPopularity limit;
             bearer := accessToken |} in
  if negb (ok response) then
    throw (Js.newError ("Spotify API error: " +:+ pretty (status response) +:+ " "
                        +:+ statusText response))
  else
    let* data := json response in
    match tracks data with
    | Some ts => ret ts
    | None => throw (Js.newError "Cannot read properties of undefined (reading 'length')")
    end.

(** [try { ...; return v } catch (error) { }]: [Some v] when the block
    returned, [None] when the exception was swallowed and control goes on
    after the statement. *)
Definition attempt {A} (m : M W A) : M W (option A) :=
  tryCatch (let* v := m in ret (Some v)) (fun _ => ret None).

(** The loop [for (i = Math.min(validSeedTracks.length, 5); i > 0; i--)];
    [None] when the loop ends without returning. *)
Fixpoint trackSeedLoop (accessToken : string) (validSeedTracks : list string)
    (targetPopularity : Z) (limit : nat) (i : nat) : M W (option (list Track)) :=
  match i with
  | O => ret None
  | S i' =>
      let seeds := Arr.slice validSeedTracks 0 i in
      let* r := attempt (requestRecommendations accessToken [] seeds targetPopularity limit) in
      match r with
      | Some ts => ret (Some ts)
      | None => trackSeedLoop accessToken validSeedTracks targetPopularity limit i'
      end
  end.

(** [getRecommendations] calls itself once, when no seed track has the
    shape of an identifier; the recursion runs on fuel. *)
Fixpoint getRecommendations_fuel (fuel : nat) (accessToken : string)
    (seedTracks : list string) (targetPopularity : Z) (limit : nat)
    (seedGenres : list string) : M W (list Track) :=
  match fuel with
  | O => hang
  | S fuel' =>
      if negb (Js.truthy accessToken) then throw (Js.newError "No access token provided")
      else if (length seedTracks =? 0) && (length seedGenres =? 0) then
        ret (createFallbackRecommendations limit)
      else
        let* byGenre :=
          if 0 <? length seedGenres then
            attempt (requestRecommendations accessToken (Arr.slice seedGenres 0 5) []
                       targetPopularity limit)
          else ret None in
        match byGenre with
        | Some ts => ret ts
        | None =>
            if 0 <? length seedTracks then
              let validSeedTracks := filter (fun id => validTrackId id = true) seedTracks in
              if length validSeedTracks =? 0 then
                let* available := attempt (getAvailableGenres accessToken) in
                match available with
                | Some genres =>
                    if 0 <? length genres then
                      getRecommendations_fuel fuel' accessToken [] targetPopularity limit
                        (Arr.slice genres 0 3)
                    else ret (createFallbackRecommendations limit)
                | None => ret (createFallbackRecommendations limit)
                end
              else
                let* byTracks :=
                  trackSeedLoop accessToken validSeedTracks targetPopularity limit
                    (Nat.min (length validSeedTracks) 5) in
                match byTracks with
                | Some ts => ret ts
                | None => ret (createFallbackRecommendations limit)
                end
            else ret (createFallbackRecommendations limit)
        end
  end.

(** The part of the body of [getRecommendations] that follows the genre
    attempt, under a name of its own; [fuel] is what is left for the
    recursive call. *)
Definition afterGenres (accessToken : string) (seedTracks : list string)
    (targetPopularity : Z) (limit : nat) (fuel : nat) : M W (list Track) :=
  if 0 <? length seedTracks then
    let validSeedTracks := filter (fun id => validTrackId id = true) seedTracks in
    if length validSeedTracks =? 0 then
      let* available := attempt (getAvailableGenres accessToken) in
      match available with
      | Some genres =>
          if 0 <? length genres then
            getRecommendations_fuel fuel accessToken [] targetPopularity limit
              (Arr.slice genres 0 3)
          else ret (createFallbackRecommendations limit)
      | None => ret (createFallbackRecommendations limit)
      end
    else
      let* byTracks :=
        trackSeedLoop accessToken validSeedTracks targetPopularity limit
          (Nat.min (length validSeedTracks) 5) in
      match byTracks with
      | Some ts => ret ts
      | None => ret (createFallbackRecommendations limit)
      end
  else ret (createFallbackRecommendations limit).

(** Two levels are all the recursion ever uses (lemma
    [getRecommendations_fuel_enough]). *)
Definition getRecommendations (accessToken : string) (seedTracks : list string)
    (targetPopularity : Z) (limit : nat) (seedGenres : list string) : M W (list Track) :=
  getRecommendations_fuel 2 accessToken seedTracks targetPopularity limit seedGenres.

(** *** [getTrackFeatures] *)

Definition defaultFeatures : AudioFeatures :=
  {| danceability := 1 # 2; energy := 1 # 2; valence := 1 # 2;
     tempo := 120; acousticness := 1 # 2; instrumentalness := 1 # 2 |}.

(** [trackIds.map(() => ({ danceability: 0.5, ... }))] *)
Definition fallbackFeatures (trackIds : list string) : list AudioFeatures :=
  map (fun _ => defaultFeatures) trackIds.

(** The operation handed to the retry wrapper for one chunk;
    [data.audio_features] may be [undefined]. *)
Definition fetchChunkFeatures (accessToken : string) (chunk : list string)
    : M W (option (list AudioFeatures)) :=
  let* response := fetch {| endpoint := AudioFeaturesOf chunk; bearer := accessToken |} in
  if negb (ok response) then
    if (status response =? 403)%Z then
      throw (Js.newError "Spotify API error: 403 Forbidden - Access denied to audio features")
    else
      throw (Js.newError ("Spotify API error: " +:+ pretty (status response) +:+ " "
                          +:+ statusText response))
  else
    let* data := json response in
    ret (audio_features data).

(** The test in the [catch] block of the chunk loop. *)
Definition isForbidden (error : Js.Error) : bool :=
  match Js.statusCode error with Some c => (c =? 403)%Z | None => false end
  || (Js.truthy (Js.message error) && Js.includes (Js.message error) "403")
  || match Js.response_status error with Some c => (c =? 403)%Z | None => false end.

(** How one iteration of the chunk loop ends: the function returns, or the
    loop goes on with the updated [allFeatures] and [hasError]. *)
Inductive ChunkStep :=
| Return (features : list AudioFeatures)
| Continue (allFeatures : list AudioFeatures) (hasError : bool).

(** The [try] block of one iteration: the access test with the first
    identifier of the chunk, then the request for the whole chunk through
    the queue and the retry wrapper, then
    [allFeatures = [...allFeatures, ...features]] (a [TypeError] when
    [features] is [undefined]) and the pause between chunks. *)
Definition chunkBody (accessToken : string) (trackIds : list string)
    (chunkCount : nat) (chunk : list string)
    (allFeatures : list AudioFeatures) (hasError : bool) : M W ChunkStep :=
  let* testResponse :=
    fetch {| endpoint := AudioFeaturesOf [default "undefined" (head chunk)];
             bearer := accessToken |} in
  if (status testResponse =? 403)%Z then ret (Return (fallbackFeatures trackIds))
  else
    let* features :=
      requestQueue_add
        (retryableSpotifyCall (fetchChunkFeatures accessToken chunk) 3 1000) in
    match features with
    | None => throw (Js.newError "features is not iterable")
    | Some fs =>
        (if 1 <? chunkCount then delay (Js.Int 300) else ret tt) ;;
        ret (Continue (allFeatures ++ fs) hasError)
    end.

(** One iteration: the [try] block and its [catch]. *)
Definition processChunk (accessToken : string) (trackIds : list string)
    (chunkCount : nat) (chunk : list string)
    (allFeatures : list AudioFeatures) (hasError : bool) : M W ChunkStep :=
  tryCatch
    (chunkBody accessToken trackIds chunkCount chunk allFeatures hasError)
    (fun error =>
       if isForbidden error then ret (Return (fallbackFeatures trackIds))
       else ret (Continue allFeatures true)).

(** [for (const chunk of chunks)] *)
Fixpoint chunkLoop (accessToken : string) (trackIds : list string) (chunkCount : nat)
    (chunks : list (list string)) (allFeatures : list AudioFeatures) (hasError : bool)
    : M W ChunkStep :=
  match chunks with
  | [] => ret (Continue allFeatures hasError)
  | chunk :: rest =>
      let* step := processChunk accessToken trackIds chunkCount chunk allFeatures hasError in
      match step with
      | Return fs => ret (Return fs)
      | Continue allFeatures' hasError' =>
          chunkLoop accessToken trackIds chunkCount rest allFeatures' hasError'
      end
  end.

(** [env] is the value of [process.env.NEXT_PUBLIC_USE_FALLBACK_FEATURES]. *)
Definition getTrackFeatures (env : option string) (accessToken : string)
    (trackIds : list string) : M W (list AudioFeatures) :=
  if length trackIds =? 0 then ret []
  else if bool_decide (env = Some "true") then ret (fallbackFeatures trackIds)
  else
    match Arr.chunkArray trackIds 100 with
    | None => hang
    | Some chunks =>
        let* outcome := chunkLoop accessToken trackIds (length chunks) chunks [] false in
        match outcome with
        | Return fs => ret fs
        | Continue allFeatures _ =>
            if length allFeatures =? 0 then ret (fallbackFeatures trackIds)
            else ret allFeatures
        end
    end.

End Calls.

(** *** A scripted remote: the state is the list of outcomes still to be
    served, one per [fetch]; a fetch past the end of the script fails. *)

Definition scripted : Remote (list FetchOutcome) :=
  fun _ script =>
    match script with
    | out :: rest => (out, rest)
    | [] => (NetErr (Js.newError "fetch failed"), [])
    end.

End Spotify.

(** ** Reading a log of the retry wrapper *)

Module RetryTrace.
Import Http Eff Spotify.

(** The wait the wrapper inserts after attempt [attempt] failed with
    [error], when another attempt is left. *)
Definition waitAfter (initialDelayMs : Z) (error : Js.Error) (attempt : nat) : Js.Num :=
  if isRateLimit error then retryAfter error initialDelayMs attempt
  else backoff initialDelayMs attempt.

Section Schedule.
Variable maxRetries : nat.
Variable initialDelayMs : Z.

(** [Schedule a evs]: [evs] is what the loop, entered with
    [attempt = a], writes to the log when the operation itself writes
    nothing. *)
Inductive Schedule : nat -> list Event -> Prop :=
| sched_exhausted a :
    maxRetries < a -> Schedule a []
| sched_settled a :
    a <= maxRetries -> Schedule a [EvInvoke a]
| sched_auth a e :
    a <= maxRetries -> isAuthError e = true ->
    Schedule a [EvInvoke a; EvAttemptFailed a e]
| sched_retry a e rest :
    a < maxRetries -> isAuthError e = false ->
    Schedule (S a) rest ->
    Schedule a (EvInvoke a :: EvAttemptFailed a e
                  :: EvDelay (waitAfter initialDelayMs e a) :: rest)
| sched_last a e rest :
    a = maxRetries -> isAuthError e = false ->
    Schedule (S a) rest ->
    Schedule a (EvInvoke a :: EvAttemptFailed a e :: rest).

End Schedule.


(** [FailsWith f w errs w']: called again and again from the remote state
    [w], the operation fails [length errs] times in a row, with the errors
    [errs] in this order, and leaves the remote state [w']. *)
Inductive FailsWith {W T : Type} (f : W -> Res T * W) : W -> list Js.Error -> W -> Prop :=
| fails_none w : FailsWith f w [] w
| fails_more w e w1 errs w2 :
    f w = (Throw e, w1) -> FailsWith f w1 errs w2 -> FailsWith f w (e :: errs) w2.

(** Counting in a log. *)
Definition invocations (evs : list Event) : nat :=
  length (omap (fun ev => match ev with EvInvoke a => Some a | _ => None end) evs).

Definition delaysOf (evs : list Event) : list Js.Num :=
  omap (fun ev => match ev with EvDelay ms => Some ms | _ => None end) evs.



(** The error thrown by the code after the loop. *)
Definition thrownAfter (lastError : option Js.Error) : Js.Error :=
  match lastError with
  | Some e => if isRateLimit e then Js.newError rateLimitMessage else e
  | None => Js.newError "Unknown error occurred during Spotify API call"
  end.

(** What the wrapper writes when the attempts numbered from [attempt] on
    fail with the errors [errs], in this order, none of them an
    authorization error. *)
Fixpoint failedLog (maxRetries : nat) (initialDelayMs : Z) (attempt : nat)
    (errs : list Js.Error) : list Event :=
  match errs with
  | [] => []
  | e :: errs' =>
      EvInvoke attempt :: EvAttemptFailed attempt e
        :: (if attempt <? maxRetries
            then [EvDelay (waitAfter initialDelayMs e attempt)] else [])
        ++ failedLog maxRetries initialDelayMs (S attempt) errs'
  end.
End RetryTrace.

(** ** Reading a log of the recommendation cascade *)

Module Trace.
Import Http Eff Spotify.

(** The track list a recommendations request yields, if it yields one: the
    response is ok, its body decodes and has a [tracks] field. *)
Definition recResult (out : FetchOutcome) : option (list Track) :=
  match out with
  | Resp r =>
      if ok r then
        match body r with
        | Parsed data => tracks data
        | Unparsable _ => None
        end
      else None
  | NetErr _ => None
  end.

(** A request to the recommendations endpoint. *)
Definition isRecommendation (ev : Event) : Prop :=
  match ev with
  | EvFetch req _ =>
      match endpoint req with
      | Recommendations _ _ _ _ => True
      | _ => False
      end
  | _ => False
  end.



(** The list a recommendations attempt yielded, read from its log entry. *)
Definition yields (ev : Event) : option (list Track) :=
  match ev with
  | EvFetch req out =>
      match endpoint req with
      | Recommendations _ _ _ _ => recResult out
      | _ => None
      end
  | _ => None
  end.

(** The identifiers an audio-features request carries. *)
Definition featureIds (ev : Event) : option (list string) :=
  match ev with
  | EvFetch req _ =>
      match endpoint req with
      | AudioFeaturesOf ids => Some ids
      | _ => None
      end
  | _ => None
  end.

(** [chunkRequest chunks ev]: if [ev] is a request at all, it asks the
    audio-features endpoint about one of [chunks]: about the whole chunk,
    or (the access test) about its first identifier. *)
Definition chunkRequest (chunks : list (list string)) (ev : Event) : Prop :=
  match ev with
  | EvFetch req _ =>
      exists chunk,
        chunk ∈ chunks
        /\ (endpoint req = AudioFeaturesOf chunk
            \/ endpoint req = AudioFeaturesOf (take 1 chunk))
  | _ => True
  end.

(** [wellSeeded accessToken targetPopularity limit ev]: if [ev] is a
    request to the recommendations endpoint, it carries the caller's
    token, target popularity and limit, and between one and five seeds
    of one kind: genres, or track identifiers of the right shape. *)
Definition wellSeeded (accessToken : string) (targetPopularity : Z) (limit : nat)
    (ev : Event) : Prop :=
  match ev with
  | EvFetch req _ =>
      match endpoint req with
      | Recommendations seed_genres seed_tracks target_popularity limit' =>
          bearer req = accessToken
          /\ target_popularity = targetPopularity /\ limit' = limit
          /\ ((seed_tracks = [] /\ 1 <= length seed_genres <= 5)
              \/ (seed_genres = [] /\ 1 <= length seed_tracks <= 5
                  /\ Forall (fun id => validTrackId id = true) seed_tracks))
      | _ => True
      end
  | _ => True
  end.

(** The number of requests to the recommendations endpoint in a log. *)
Definition recommendationCount (evs : list Event) : nat :=
  length (omap (fun ev =>
                  match ev with
                  | EvFetch req _ =>
                      match endpoint req with
                      | Recommendations _ _ _ _ => Some req
                      | _ => None
                      end
                  | _ => None
                  end) evs).


Section Cascade.
Variable accessToken : string.
Variable seedTracks : list string.
Variable targetPopularity : Z.
Variable limit : nat.
Variable seedGenres : list string.

Definition validSeeds : list string :=
  filter (fun id => validTrackId id = true) seedTracks.

Definition genreEvent (genres : list string) (out : FetchOutcome) : Event :=
  EvFetch {| endpoint := Recommendations (Arr.slice genres 0 5) [] targetPopularity limit;
             bearer := accessToken |} out.

Definition trackEvent (i : nat) (out : FetchOutcome) : Event :=
  EvFetch {| endpoint := Recommendations [] (Arr.slice validSeeds 0 i) targetPopularity limit;
             bearer := accessToken |} out.

(** [Misses hi lo evs]: [evs] are the track-seeded attempts with
    [hi], [hi - 1], ..., [lo + 1] seeds, none of which yielded a list. *)
Inductive Misses : nat -> nat -> list Event -> Prop :=
| misses_none i : Misses i i []
| misses_more i lo out rest :
    recResult out = None -> Misses i lo rest ->
    Misses (S i) lo (trackEvent (S i) out :: rest).

(** The genre strategy did not return: it was skipped, or its one attempt
    yielded no list. *)
Inductive GenreMiss : list Event -> Prop :=
| genre_skipped : seedGenres = [] -> GenreMiss []
| genre_failed out :
    seedGenres <> [] -> recResult out = None ->
    GenreMiss [genreEvent seedGenres out].

(** [Cascade evs ts]: a run of [getRecommendations] that writes [evs] to
    the log and returns [ts]. *)
Inductive Cascade : list Event -> list Track -> Prop :=
| cascade_no_seeds :
    seedTracks = [] -> seedGenres = [] ->
    Cascade [] (createFallbackRecommendations limit)
| cascade_genres_win out ts :
    seedGenres <> [] -> recResult out = Some ts ->
    Cascade [genreEvent seedGenres out] ts
| cascade_no_tracks gev :
    GenreMiss gev -> seedTracks = [] ->
    Cascade gev (createFallbackRecommendations limit)
| cascade_no_default_genres gev aev :
    GenreMiss gev -> seedTracks <> [] -> validSeeds = [] ->
    Forall (fun ev => ~ isRecommendation ev) aev ->
    Cascade (gev ++ aev) (createFallbackRecommendations limit)
| cascade_default_genres gev aev genres out :
    GenreMiss gev -> seedTracks <> [] -> validSeeds = [] ->
    Forall (fun ev => ~ isRecommendation ev) aev ->
    genres <> [] ->
    Cascade (gev ++ aev ++ [genreEvent (Arr.slice genres 0 3) out])
      (default (createFallbackRecommendations limit) (recResult out))
| cascade_tracks_win gev misses j out ts :
    GenreMiss gev -> validSeeds <> [] ->
    Misses (Nat.min (length validSeeds) 5) (S j) misses ->
    recResult out = Some ts ->
    Cascade (gev ++ misses ++ [trackEvent (S j) out]) ts
| cascade_tracks_fail gev misses :
    GenreMiss gev -> validSeeds <> [] ->
    Misses (Nat.min (length validSeeds) 5) 0 misses ->
    Cascade (gev ++ misses) (createFallbackRecommendations limit).

End Cascade.

End Trace.

(** ** [refreshAccessToken] (the NextAuth route) *)

Module Auth.

(** JavaScript values stored in the token object. *)
#[warnings="-register-all"]
Inductive Value :=
| VUndefined
| VNull
| VString (s : string)
| VNumber (n : Js.Num)
| VObject (fields : list (string * Value)).

(** Reading a property: an absent key reads as [undefined]. *)
Definition get (o : gmap string Value) (k : string) : Value :=
  default VUndefined (o !! k).

(** [a ?? b] *)
Definition nullish (a b : Value) : Value :=
  match a with
  | VUndefined | VNull => b
  | _ => a
  end.

Definition add (a b : Js.Num) : Js.Num :=
  match a, b with
  | Js.Int x, Js.Int y => Js.Int (x + y)
  | _, _ => Js.NaN
  end.

(** The fields read from the decoded body of the token endpoint. *)
Record TokenData := {
  access_token : Value;
  refresh_token : Value;
  expires_in : Js.Num
}.

(** What [fetch] followed by [response.json()] produced: a rejection of
    either, or the decoded body together with [response.ok]. *)
Inductive TokenFetch :=
| Rejected
| Answered (ok : bool) (data : TokenData).

(** [refreshAccessToken(token)]; [now] is the value of [Date.now()]. *)
Definition refreshAccessToken (now : Z) (outcome : TokenFetch)
    (token : gmap string Value) : gmap string Value :=
  match outcome with
  | Answered true data =>
      <["accessTokenExpires" :=
          VNumber (add (Js.Int now) (Js.mul (expires_in data) (Js.Int 1000)))]>
        (<["refreshToken" := nullish (refresh_token data) (get token "refreshToken")]>
           (<["accessToken" := access_token data]> token))
  | _ => <["error" := VString "RefreshAccessTokenError"]> token
  end.

(** *** The [jwt] and [session] callbacks *)

(** Truthiness of a value. *)
Definition truthyValue (v : Value) : bool :=
  match v with
  | VUndefined | VNull => false
  | VString s => Js.truthy s
  | VNumber (Js.Int z) => negb (z =? 0)%Z
  | VNumber Js.NaN => false
  | VObject _ => true
  end.

(** [a < b] for a number [a]; a comparison with [NaN] is false. *)
Definition lessThan (a : Z) (b : Js.Num) : bool :=
  match b with
  | Js.Int z => (a <? z)%Z
  | Js.NaN => false
  end.

(** The fields the callback reads from [account]. *)
Record Account := {
  account_access_token : Value;
  account_refresh_token : Value;
  account_expires_in : Value
}.

Section Callbacks.

(** The conversion of a string to a number. *)
Variable stringToNumber : string -> Js.Num.

(** [Number(v)], and the conversion [<] applies to its right operand. *)
Definition toNumber (v : Value) : Js.Num :=
  match v with
  | VUndefined => Js.NaN
  | VNull => Js.Int 0
  | VString s => stringToNumber s
  | VNumber n => n
  | VObject _ => Js.NaN
  end.

(** [jwt({ token, account, user })].  [account] and [user] are objects
    when they are given.  [now] is what [Date.now()] returns in the
    callback; [later] and [outcome] are the clock and the answer of the
    token endpoint that [refreshAccessToken] sees if it is reached. *)
Definition jwt (now later : Z) (outcome : TokenFetch) (token : gmap string Value)
    (account : option Account) (user : option Value) : gmap string Value :=
  match account, user with
  | Some account, Some user =>
      let expiresIn :=
        if truthyValue (account_expires_in account)
        then toNumber (account_expires_in account)
        else Js.Int 3600 in
      {[ "accessToken" := account_access_token account;
         "refreshToken" := account_refresh_token account;
         "accessTokenExpires" := VNumber (add (Js.Int now) (Js.mul expiresIn (Js.Int 1000)));
         "user" := user ]}
  | _, _ =>
      if truthyValue (get token "accessTokenExpires")
         && lessThan now (toNumber (get token "accessTokenExpires"))
      then token
      else refreshAccessToken later outcome token
  end.

End Callbacks.

(** [session({ session, token })] *)
Definition session (session token : gmap string Value) : gmap string Value :=
  let session :=
    if truthyValue (get token "error")
    then <["error" := get token "error"]> session
    else session in
  <["user" := get token "user"]> (<["accessToken" := get token "accessToken"]> session).

End Auth.

(** ** [RequestQueue] *)

Module RequestQueue.

(** How a work item ends: its promise resolves or rejects. *)
Inductive Outcome := Resolved | Failed.

(** The two fields of the class, and a record of what happened to each
    item.  Items are named by their submission number. *)
Record State := {
  queue : list nat;                  (* [this.queue], oldest first *)
  running : Z;                       (* [this.running] *)
  submitted : nat;                   (* calls of [add] so far *)
  started : list nat;                (* items whose [fn()] was called, in order *)
  inflight : list nat;               (* started, not yet settled *)
  settled : list (nat * Outcome)     (* settled, with how *)
}.

Definition init : State :=
  {| queue := []; running := 0; submitted := 0;
     started := []; inflight := []; settled := [] |}.

(** [nextFn()] up to its first [await]: [this.running++; fn()]. *)
Definition start (item : nat) (s : State) : State :=
  {| queue := queue s; running := running s + 1; submitted := submitted s;
     started := started s ++ [item]; inflight := inflight s ++ [item];
     settled := settled s |}.

(** [processNext()] *)
Definition processNext (maxConcurrent : Z) (s : State) : State :=
  match queue s with
  | item :: rest =>
      if (running s <? maxConcurrent)%Z then
        start item {| queue := rest; running := running s; submitted := submitted s;
                      started := started s; inflight := inflight s;
                      settled := settled s |}
      else s
  | [] => s
  end.

(** [add(fn)]: push, then [processNext()] if a slot is free. *)
Definition add (maxConcurrent : Z) (s : State) : State :=
  let s1 := {| queue := queue s ++ [submitted s]; running := running s;
               submitted := S (submitted s); started := started s;
               inflight := inflight s; settled := settled s |} in
  if (running s1 <? maxConcurrent)%Z then processNext maxConcurrent s1 else s1.

(** The continuation of [queuedFn] after [await fn()]: [resolve] or
    [reject], then the [finally] block [this.running--; this.processNext()]. *)
Definition settle (maxConcurrent : Z) (item : nat) (out : Outcome) (s : State) : State :=
  processNext maxConcurrent
    {| queue := queue s; running := running s - 1; submitted := submitted s;
       started := started s;
       inflight := filter (fun i => i ≠ item) (inflight s);
       settled := settled s ++ [(item, out)] |}.

(** What can happen next: a caller submits an item, or an item in flight
    settles. *)
Inductive Action := Add | Settle (item : nat) (out : Outcome).

Definition step (maxConcurrent : Z) (s : State) (a : Action) : option State :=
  match a with
  | Add => Some (add maxConcurrent s)
  | Settle item out =>
      if bool_decide (item ∈ inflight s) then Some (settle maxConcurrent item out s)
      else None
  end.

Fixpoint exec (maxConcurrent : Z) (s : State) (acts : list Action) : option State :=
  match acts with
  | [] => Some s
  | a :: acts' =>
      match step maxConcurrent s a with
      | Some s' => exec maxConcurrent s' acts'
      | None => None
      end
  end.

Definition isSettle (a : Action) : bool :=
  match a with Settle _ _ => true | Add => false end.

(** The number of calls of [add] in a sequence of actions, and the
    settlements it contains, in order. *)
Definition submissions (acts : list Action) : nat :=
  length (omap (fun a => match a with Add => Some tt | Settle _ _ => None end) acts).

Definition outcomes (acts : list Action) : list (nat * Outcome) :=
  omap (fun a => match a with Settle item out => Some (item, out) | Add => None end) acts.

(** The module creates its queue with [new RequestQueue(3)]. *)
Definition requestQueueLimit : Z := 3.

(** What holds of the queue between calls of [add] and settlements: the
    counter is the number of items in flight and stays within the limit;
    started and waiting items, in this order, are the submitted ones in
    order; the started items are those settled and those in flight; and
    while an item waits every slot is taken. *)
Record Inv (maxConcurrent : Z) (s : State) : Prop := {
  inv_running : running s = Z.of_nat (length (inflight s));
  inv_limit : (running s <= maxConcurrent)%Z;
  inv_fifo : started s ++ queue s = seq 0 (submitted s);
  inv_once : started s ≡ₚ map fst (settled s) ++ inflight s;
  inv_busy : queue s <> [] -> running s = maxConcurrent
}.

(** The same without the last clause, for the state in which
    [processNext] is called. *)
Record Core (maxConcurrent : Z) (s : State) : Prop := {
  core_running : running s = Z.of_nat (length (inflight s));
  core_limit : (running s <= maxConcurrent)%Z;
  core_fifo : started s ++ queue s = seq 0 (submitted s);
  core_once : started s ≡ₚ map fst (settled s) ++ inflight s
}.

End RequestQueue.

(** ** The library's list getters *)

Module Web.
Import Eff Spotify.

(** A decoded JSON body. *)
#[warnings="-register-all"]
Inductive Json :=
| JNull
| JBool (b : bool)
| JNumber (z : Z)
| JString (s : string)
| JArray (elements : list Json)
| JObject (fields : list (string * Json)).

(** [data.key] on a decoded body: [None] is [undefined]; reading a
    property of [null] throws. *)
Definition property (key : string) (data : Json) : Js.Error + option Json :=
  match data with
  | JNull =>
      inl (Js.newError ("Cannot read properties of null (reading '" +:+ key +:+ "')"))
  | JObject fields =>
      (* of two members with the same name [JSON.parse] keeps the later *)
      inr (snd <$> List.find (fun kv => String.eqb (fst kv) key) (rev fields))
  | _ => inr None
  end.

(** The [TypeError] of [undefined.length]. *)
Definition lengthOfUndefined : Js.Error :=
  Js.newError "Cannot read properties of undefined (reading 'length')".

(** [value.length] where [value] is the result of a property read: it
    throws on [undefined] and [null], and is a number or [undefined] on
    everything else. *)
Definition lengthOf (value : option Json) : Js.Error + option nat :=
  match value with
  | None => inl lengthOfUndefined
  | Some JNull => inl (Js.newError "Cannot read properties of null (reading 'length')")
  | Some (JArray elements) => inr (Some (length elements))
  | Some (JString s) => inr (Some (String.length s))
  | Some _ => inr None
  end.

Record Reply := {
  status : Z;
  statusText : string;
  body : Js.Error + Json       (* what [response.json()] settles to *)
}.

Definition ok (r : Reply) : bool := ((200 <=? status r) && (status r <=? 299))%Z.

(** The service behind [fetch(url, { headers: { Authorization } })]. *)
Class Service (W : Type) := request : string -> string -> W -> (Js.Error + Reply) * W.

Inductive TimeRange := short_term | medium_term | long_term.

Definition timeRangeName (t : TimeRange) : string :=
  match t with
  | short_term => "short_term"
  | medium_term => "medium_term"
  | long_term => "long_term"
  end.

Definition apiError (r : Reply) : Js.Error :=
  Js.newError ("Spotify API error: " +:+ pretty (status r) +:+ " " +:+ statusText r).

Section Getters.
Context {W : Type} `{Service W}.

(** The operation [getUserPlaylists] hands to the retry wrapper. *)
Definition playlistsOperation (accessToken : string) (w : W) : Res (option Json) * W :=
  match request "https://api.spotify.com/v1/me/playlists" accessToken w with
  | (inl e, w') => (Throw e, w')
  | (inr response, w') =>
      if negb (ok response) then (Throw (apiError response), w')
      else
        match body response with
        | inl e => (Throw e, w')
        | inr data =>
            match property "items" data with
            | inl e => (Throw e, w')
            | inr items => (Ok items, w')
            end
        end
  end.

Definition getUserPlaylists (accessToken : string) : M W (option Json) :=
  requestQueue_add (retryableSpotifyCall (liftOp (playlistsOperation accessToken)) 3 1000).

Definition topTracksUrl (timeRange : TimeRange) : string :=
  "https://api.spotify.com/v1/me/top/tracks?time_range=" +:+ timeRangeName timeRange
  +:+ "&limit=50".

(** The operation [getTopTracks] hands to the retry wrapper; unlike the
    one for playlists it reads [data.items.length] for its log line. *)
Definition topTracksOperation (accessToken : string) (timeRange : TimeRange) (w : W)
    : Res (option Json) * W :=
  match request (topTracksUrl timeRange) accessToken w with
  | (inl e, w') => (Throw e, w')
  | (inr response, w') =>
      if negb (ok response) then (Throw (apiError response), w')
      else
        match body response with
        | inl e => (Throw e, w')
        | inr data =>
            match property "items" data with
            | inl e => (Throw e, w')
            | inr items =>
                match lengthOf items with
                | inl e => (Throw e, w')
                | inr _ => (Ok items, w')
                end
            end
        end
  end.

Definition getTopTracks (accessToken : string) (timeRange : TimeRange) : M W (option Json) :=
  requestQueue_add
    (retryableSpotifyCall (liftOp (topTracksOperation accessToken timeRange)) 3 1000).

End Getters.

(** *** [validateToken] *)

(** Truthiness of a decoded value. *)
Definition truthyJson (j : Json) : bool :=
  match j with
  | JNull => false
  | JBool b => b
  | JNumber z => negb (z =? 0)%Z
  | JString s => Js.truthy s
  | JArray _ | JObject _ => true
  end.

(** [data.error?.message || 'Unknown error'] *)
Definition errorMessageOf (data : Json) : Js.Error + Json :=
  match property "error" data with
  | inl e => inl e
  | inr None | inr (Some JNull) => inr (JString "Unknown error")
  | inr (Some error) =>
      match property "message" error with
      | inr (Some message) =>
          inr (if truthyJson message then message else JString "Unknown error")
      | _ => inr (JString "Unknown error")
      end
  end.

(** [status] of a scope result: the status of the response, or ['error']. *)
Inductive ScopeStatus := HttpStatus (code : Z) | StatusError.

Record ScopeResult := {
  scope : string;
  scope_status : ScopeStatus;
  scope_ok : bool;
  scope_error : option Js.Error
}.

(** The object [validateToken] returns; a field that is [None] is absent. *)
Record Validation := {
  valid : bool;
  validation_status : option Z;
  validation_statusText : option string;
  validation_error : option Json;
  details : option (Js.Error + Json);
  user : option Json;
  scopes : option (list ScopeResult)
}.

Definition invalid (error : Json) (details : option (Js.Error + Json)) : Validation :=
  {| valid := false; validation_status := None; validation_statusText := None;
     validation_error := Some error; details := details; user := None; scopes := None |}.

Definition profileUrl : string := "https://api.spotify.com/v1/me".

Definition scopeChecks : list (string * string) :=
  [ ("user-top-read", "https://api.spotify.com/v1/me/top/tracks?limit=1");
    ("playlist-read-private", "https://api.spotify.com/v1/me/playlists?limit=1");
    ("user-read-recently-played",
     "https://api.spotify.com/v1/me/player/recently-played?limit=1") ].

Section Validate.
Context {W : Type} `{Service W}.

(** [Promise.all(scopeChecks.map(async (check) => ...))]: each callback
    runs up to its [fetch] when [map] calls it, so the requests go out in
    the order of the list. *)
Fixpoint checkScopes (accessToken : string) (checks : list (string * string)) (w : W)
    : list ScopeResult * W :=
  match checks with
  | [] => ([], w)
  | (name, endpoint) :: rest =>
      let '(out, w1) := request endpoint accessToken w in
      let result :=
        match out with
        | inl error =>
            {| scope := name; scope_status := StatusError; scope_ok := false;
               scope_error := Some error |}
        | inr scopeResponse =>
            {| scope := name; scope_status := HttpStatus (status scopeResponse);
               scope_ok := ok scopeResponse; scope_error := None |}
        end in
      let '(results, w2) := checkScopes accessToken rest w1 in
      (result :: results, w2)
  end.

(** What is thrown inside the [try] block is an [Error]: a rejection of
    [fetch] or of [response.json()], or the [TypeError] of reading
    [error] from [null]. *)
Definition validateToken (accessToken : string) (w : W) : Validation * W :=
  if negb (Js.truthy accessToken) then (invalid (JString "No token provided") None, w)
  else
    let caught (error : Js.Error) := invalid (JString (Js.message error)) (Some (inl error)) in
    match request profileUrl accessToken w with
    | (inl error, w1) => (caught error, w1)
    | (inr response, w1) =>
        match body response with
        | inl error => (caught error, w1)
        | inr data =>
            if negb (ok response) then
              match errorMessageOf data with
              | inl error => (caught error, w1)
              | inr message =>
                  ({| valid := false;
                      validation_status := Some (status response);
                      validation_statusText := Some (statusText response);
                      validation_error := Some message;
                      details := Some (inr data);
                      user := None; scopes := None |}, w1)
              end
            else
              let '(scopeResults, w2) := checkScopes accessToken scopeChecks w1 in
              ({| valid := true;
                  validation_status := None; validation_statusText := None;
                  validation_error := None; details := None;
                  user := Some data; scopes := Some scopeResults |}, w2)
        end
    end.

End Validate.

(** The state of the service after the requests for [urls], in order. *)
Definition afterRequests {W : Type} `{Service W} (accessToken : string)
    (urls : list string) (w : W) : W :=
  fold_left (fun w url => snd (request url accessToken w)) urls w.

(** A scripted service: one outcome per request, failure past the end. *)
Definition scriptedService : Service (list (Js.Error + Reply)) :=
  fun _ _ script =>
    match script with
    | out :: rest => (out, rest)
    | [] => (inl (Js.newError "fetch failed"), [])
    end.

End Web.

(** ** The recommendations page (src/app/dashboard/recommendations.tsx) *)

Module RecsPage.
Import Http Eff Spotify.

(** The part of the component's state that the handlers below write. *)
Record View := {
  recommendations : list Track;
  error : option string;
  usingFallback : bool
}.

(** [recommendedTracks[0]?.id?.startsWith('fallback-')] as a condition:
    [undefined] when the list is empty. *)
Definition looksLikeFallback (recommendedTracks : list Track) : bool :=
  match recommendedTracks with
  | [] => false
  | first :: _ => Js.startsWith (id first) "fallback-"
  end.

(** [Math.max(0, Math.min(100, 100 - obscurityLevel))] *)
Definition clampedPopularity (obscurityLevel : Z) : Z :=
  Z.max 0 (Z.min 100 (100 - obscurityLevel)).

(** The list of genre combinations [fetchRecommendations] tries. *)
Definition genresToTry (availableGenres : list string) : list (list string) :=
  filter (fun combo => 0 < length combo)
    [ filter (fun g => g ∈ availableGenres) ["pop"; "rock"; "indie"];
      filter (fun g => g ∈ availableGenres) ["hip-hop"; "electronic"; "dance"];
      filter (fun g => g ∈ availableGenres) ["alternative"; "indie"; "pop"];
      Arr.slice availableGenres 0 3 ].

(** What a response means to the loops of [fetchRecommendations]:
    [response.ok && parsedData.tracks && parsedData.tracks.length > 0].
    The body is read as text and parsed inside the [try]; a body that does
    not parse is caught there, and an empty text is the object without
    fields. *)
Definition accepted (response : Response) : option (list Track) :=
  match body response with
  | Parsed parsedData =>
      if ok response then
        match tracks parsedData with
        | Some ts => if 0 <? length ts then Some ts else None
        | None => None
        end
      else None
  | Unparsable _ => None
  end.

Section Handlers.
Context {W : Type} `{Remote W}.

(** [tryWithGenres(genres)]: the view after the handler has run.
    [accessToken] is [session?.accessToken], [None] when there is no
    session. *)
Definition tryWithGenres (accessToken : option string) (obscurityLevel : Z)
    (genres : list string) (view : View) : M W View :=
  match accessToken with
  | None => ret view
  | Some token =>
      if negb (Js.truthy token) || (length genres =? 0) then ret view
      else
        tryCatch
          (let* recommendedTracks :=
             getRecommendations token [] (100 - obscurityLevel) 20 genres in
           if looksLikeFallback recommendedTracks then
             ret {| recommendations := recommendedTracks;
                    error := Some ("Couldn't get recommendations with these genres: "
                                   +:+ String.concat ", " genres);
                    usingFallback := true |}
           else
             ret {| recommendations := recommendedTracks;
                    error := None;
                    usingFallback := false |})
          (fun _ =>
             ret {| recommendations := recommendations view;
                    error := Some "Failed to get recommendations with these genres.";
                    usingFallback := true |})
  end.

Definition genreRequest (accessToken : string) (obscurityLevel : Z)
    (genreCombo : list string) : Request :=
  {| endpoint := Recommendations genreCombo [] (clampedPopularity obscurityLevel) 20;
     bearer := accessToken |}.

(** The loop over [genresToTry] in [fetchRecommendations]: [Some tracks]
    is [genreSuccess] with [genreResponseData.tracks]. *)
Fixpoint genreLoop (accessToken : string) (obscurityLevel : Z)
    (combos : list (list string)) : M W (option (list Track)) :=
  match combos with
  | [] => ret None
  | genreCombo :: rest =>
      let* genreResponse := fetch (genreRequest accessToken obscurityLevel genreCombo) in
      match accepted genreResponse with
      | Some ts => ret (Some ts)
      | None => delay (Js.Int 500) ;; genreLoop accessToken obscurityLevel rest
      end
  end.

(** [trackCombo.join(',')] as a list of seeds: [join] writes an
    [undefined] element as the empty string. *)
Definition trackRequest (accessToken : string) (obscurityLevel : Z)
    (trackCombo : list (option string)) : Request :=
  {| endpoint := Recommendations [] (map (default "") trackCombo)
                   (clampedPopularity obscurityLevel) 20;
     bearer := accessToken |}.

(** The loop over [trackCombosToTry], of the same shape as the genre
    loop. *)
Fixpoint trackLoop (accessToken : string) (obscurityLevel : Z)
    (combos : list (list (option string))) : M W (option (list Track)) :=
  match combos with
  | [] => ret None
  | trackCombo :: rest =>
      let* response := fetch (trackRequest accessToken obscurityLevel trackCombo) in
      match accepted response with
      | Some ts => ret (Some ts)
      | None => delay (Js.Int 500) ;; trackLoop accessToken obscurityLevel rest
      end
  end.

End Handlers.

(** The combinations of seed tracks [fetchRecommendations] tries;
    [validSeedTracks[0]] is [undefined] when no track passed the
    validation. *)
Definition trackCombosToTry (validSeedTracks : list string) : list (list (option string)) :=
  filter (fun combo => 0 < length combo)
    [ [head validSeedTracks];
      map Some (Arr.slice validSeedTracks 0 2);
      map Some (Arr.slice validSeedTracks 0 3);
      map Some validSeedTracks ].

(** The requests of a log, in order. *)
Definition requestsOf (evs : list Event) : list Request :=
  omap (fun ev => match ev with EvFetch req _ => Some req | _ => None end) evs.

(** A request of the genre loop as the page builds it from the genres the
    service advertises: the token, twenty tracks, a target popularity
    between 0 and 100, and one to three advertised genres as seeds. *)
Definition genreLoopRequest (accessToken : string) (availableGenres : list string)
    (req : Request) : Prop :=
  bearer req = accessToken
  /\ exists genreCombo target_popularity,
       endpoint req = Recommendations genreCombo [] target_popularity 20
       /\ (0 <= target_popularity <= 100)%Z
       /\ 1 <= length genreCombo <= 3
       /\ Forall (fun g => g ∈ availableGenres) genreCombo.

End RecsPage.

(** ** The statistics of the dashboard pages

    The same computation appears in the dashboard page, in
    [playlist-analyzer.tsx] and in [time-machine.tsx]. *)

Module Dashboard.
Import Http Metrics.

(** The accumulator of [features.reduce]. *)
Record AvgFeatures := {
  avg_danceability : Q;
  avg_energy : Q;
  avg_valence : Q;
  avg_acousticness : Q
}.

(** The callback of [features.reduce]; an entry of the array may be
    [null].  On a number, [x || 0] is [x]. *)
Definition addFeatures (acc : AvgFeatures) (curr : option AudioFeatures) : AvgFeatures :=
  match curr with
  | None => acc
  | Some curr =>
      {| avg_danceability := avg_danceability acc + danceability curr;
         avg_energy := avg_energy acc + energy curr;
         avg_valence := avg_valence acc + valence curr;
         avg_acousticness := avg_acousticness acc + acousticness curr |}
  end.

(** [avgFeatures] after the division by [validFeatures]. *)
Definition averageFeatures (features : list (option AudioFeatures)) : AvgFeatures :=
  let avgFeatures :=
    fold_left addFeatures features
      {| avg_danceability := 0; avg_energy := 0; avg_valence := 0;
         avg_acousticness := 0 |} in
  let validFeatures := length (filter is_Some features) in
  if 0 <? validFeatures then
    let n := inject_Z (Z.of_nat validFeatures) in
    {| avg_danceability := avg_danceability avgFeatures / n;
       avg_energy := avg_energy avgFeatures / n;
       avg_valence := avg_valence avgFeatures / n;
       avg_acousticness := avg_acousticness avgFeatures / n |}
  else avgFeatures.

(** [Math.round(x)]: the integer nearest to [x], the upper one at a tie. *)
Definition round (x : Q) : Z := Qfloor (x + (1 # 2)).

(** [track.popularity || 50]; [None] is a track without the field. *)
Definition popularityOr50 (popularity : option Q) : Q :=
  match popularity with
  | Some p => if Qeq_bool p 0 then 50 else p
  | None => 50
  end.

(** [avgObscurity], from the popularities of the tracks.  The pages
    return before this point when they have no track. *)
Definition avgObscurity (popularities : list (option Q)) : Q :=
  (fold_left (fun acc popularity => acc + calculateObscurityScore (popularityOr50 popularity))
     popularities 0
   / inject_Z (Z.of_nat (length popularities)))%Q.

(** The object handed to [setStats]. *)
Record Stats := {
  obscurityScore : Z;
  moodScore : Z;
  audioFeatures : list (string * Z)
}.

Definition stats (popularities : list (option Q))
    (features : list (option AudioFeatures)) : Stats :=
  let avgFeatures := averageFeatures features in
  {| obscurityScore := round (avgObscurity popularities);
     moodScore := round (calculateMoodScore (avg_valence avgFeatures) (avg_energy avgFeatures));
     audioFeatures :=
       [ ("Danceability", round (avg_danceability avgFeatures * 100));
         ("Energy", round (avg_energy avgFeatures * 100));
         ("Mood", round (avg_valence avgFeatures * 100));
         ("Acousticness", round (avg_acousticness avgFeatures * 100)) ] |}.

(** The dashboard page's test for the default features. *)
Definition usingFallbackFeatures (features : list (option AudioFeatures)) : bool :=
  match features with
  | Some first :: _ =>
      Qeq_bool (danceability first) (1 # 2)
      && Qeq_bool (energy first) (1 # 2)
      && Qeq_bool (valence first) (1 # 2)
  | _ => false
  end.

(** The four features the pages average lie between 0 and 1. *)
Definition unitRange (f : AudioFeatures) : Prop :=
  (0 <= danceability f <= 1 /\ 0 <= energy f <= 1
   /\ 0 <= valence f <= 1 /\ 0 <= acousticness f <= 1)%Q.

(** The sum the reduction computes for one field. *)
Definition sumOf (field : AudioFeatures -> Q) (features : list (option AudioFeatures))
    (acc : Q) : Q :=
  fold_left
    (fun acc curr => match curr with None => acc | Some curr => (acc + field curr)%Q end)
    features acc.

End Dashboard.

(** ** Sample operations and responses, used to run the program *)

Module Fixtures.
Import Http Eff Spotify.

(** An operation that counts its own invocations in the remote state and
    always fails with 401. *)
Definition unauthorized : Js.Error :=
  {| Js.statusCode := Some 401%Z; Js.message := "Unauthorized";
     Js.headers := None; Js.response_status := None |}.

Definition countingFailure (error : Js.Error) : M nat unit :=
  liftOp (fun calls => (Throw error, S calls)).

(** An operation that is rate limited once, with [retry-after: 2], and
    then answers. *)
Definition rateLimited : Js.Error :=
  {| Js.statusCode := Some 429%Z; Js.message := "Too Many Requests";
     Js.headers := Some {[ "retry-after" := "2" ]}; Js.response_status := None |}.

Definition limitedOnce : nat -> Res unit * nat :=
  fun calls => if calls =? 0 then (Throw rateLimited, 1) else (Ok tt, S calls).

(** A rate-limit error without the header. *)
Definition rateLimitedNoHint : Js.Error :=
  {| Js.statusCode := Some 429%Z; Js.message := "Too Many Requests";
     Js.headers := None; Js.response_status := None |}.

(** Responses of the remote service. *)
Definition noFields : Json :=
  {| tracks := None; genres := None; audio_features := None |}.

Definition okWith (data : Json) : FetchOutcome :=
  Resp {| status := 200; statusText := "OK"; body := Parsed data |}.

Definition okTracks (ts : list Track) : FetchOutcome :=
  okWith {| tracks := Some ts; genres := None; audio_features := None |}.

Definition okFeatures (fs : list AudioFeatures) : FetchOutcome :=
  okWith {| tracks := None; genres := None; audio_features := Some fs |}.

Definition failing (code : Z) (text : string) : FetchOutcome :=
  Resp {| status := code; statusText := text; body := Parsed noFields |}.

Definition someTrack : Track :=
  {| id := "11dFghVXANMlKmJXsNCbNl"; name := "Cut To The Feeling";
     artists := [ {| artist_name := "Carly Rae Jepsen" |} ];
     album_images := [];
     external_urls_spotify := "https://open.spotify.com/track/11dFghVXANMlKmJXsNCbNl" |}.

Definition someFeatures : AudioFeatures :=
  {| danceability := 7 # 10; energy := 8 # 10; valence := 6 # 10;
     tempo := 118; acousticness := 1 # 10; instrumentalness := 0 |}.

(** Ten submissions to the queue, then the second item fails and the
    first resolves; and the state this leads to. *)
Definition tenTasks : list RequestQueue.Action :=
  repeat RequestQueue.Add 10
  ++ [RequestQueue.Settle 1 RequestQueue.Failed; RequestQueue.Settle 0 RequestQueue.Resolved].

Definition afterTenTasks : RequestQueue.State :=
  {| RequestQueue.queue := [5; 6; 7; 8; 9];
     RequestQueue.running := 3;
     RequestQueue.submitted := 10;
     RequestQueue.started := [0; 1; 2; 3; 4];
     RequestQueue.inflight := [2; 3; 4];
     RequestQueue.settled := [(1, RequestQueue.Failed); (0, RequestQueue.Resolved)] |}.

(** Three seed tracks, the second of which is not an identifier. *)
Definition threeSeeds : list string :=
  ["4iV5W9uYEdYUVa79Axb7Rh"; "not an id"; "0VjIjW4GlUZAMYd2vXMi3b"].

(** A state of the scripted remote with an empty log. *)
Definition fresh (script : list FetchOutcome) : Sys (list FetchOutcome) :=
  {| remote := script; log := [] |}.


(** A service that refuses every request with 401, and one that answers
    every request with an object that has no [items]. *)
Definition alwaysUnauthorized : Web.Service unit :=
  fun _ _ w =>
    (inr {| Web.status := 401; Web.statusText := "Unauthorized";
            Web.body := inr (Web.JObject []) |}, w).

Definition withoutItems : Web.Json := Web.JObject [("total", Web.JNumber 0)].

Definition alwaysWithoutItems : Web.Service unit :=
  fun _ _ w =>
    (inr {| Web.status := 200; Web.statusText := "OK"; Web.body := inr withoutItems |}, w).
End Fixtures.

(** * Part II: properties *)

(** ** The mood score *)

Module MetricsFacts.
Import Metrics.

Lemma clamp_as_max_min (x : Q) : (Qmax 0 (Qmin 100 x) == clamp x 0 100)%Q.
Proof.
  unfold clamp.
  destruct (Qlt_le_dec x 0) as [Hlo|Hlo]; [|destruct (Qlt_le_dec 100 x) as [Hhi|Hhi]].
  - rewrite Q.min_r by lra. apply Q.max_l; lra.
  - rewrite Q.min_l by lra. apply Q.max_r; lra.
  - rewrite Q.min_r by lra. apply Q.max_r; lra.
Qed.

Lemma clamped_range (x : Q) : (0 <= Qmax 0 (Qmin 100 x) <= 100)%Q.
Proof.
  split; [apply Q.le_max_l|].
  apply Q.max_lub; [lra|apply Q.le_min_l].
Qed.

Lemma clamped_mono (x y : Q) :
  (x <= y)%Q -> (Qmax 0 (Qmin 100 x) <= Qmax 0 (Qmin 100 y))%Q.
Proof.
  intros Hxy. apply Q.max_le_compat_l, Q.min_le_compat_l, Hxy.
Qed.

Lemma scaled_mean_mono (v e v' e' : Q) :
  (v <= v')%Q -> (e <= e')%Q ->
  (((v + e) / 2) * 100 <= ((v' + e') / 2) * 100)%Q.
Proof.
  intros Hv He. unfold Qdiv.
  apply Qmult_le_compat_r; [|discriminate].
  apply Qmult_le_compat_r; [lra|discriminate].
Qed.

(** C8.  For valence and energy in [0,1] (indeed for all rationals) the
    mood score equals [clamp(((v + e) / 2) * 100, 0, 100)], lies between 0
    and 100, and does not decrease when either argument grows while the
    other is fixed. *)
Theorem calculateMoodScore_clamped_monotone (v e : Q) :
  (0 <= v <= 1)%Q -> (0 <= e <= 1)%Q ->
  (calculateMoodScore v e == clamp (((v + e) / 2) * 100) 0 100)%Q
  /\ (0 <= calculateMoodScore v e <= 100)%Q
  /\ (forall v', (v <= v')%Q -> (v' <= 1)%Q ->
        (calculateMoodScore v e <= calculateMoodScore v' e)%Q)
  /\ (forall e', (e <= e')%Q -> (e' <= 1)%Q ->
        (calculateMoodScore v e <= calculateMoodScore v e')%Q).
Proof.
  intros _ _. unfold calculateMoodScore. repeat split.
  - apply clamp_as_max_min.
  - apply clamped_range.
  - apply clamped_range.
  - intros v' Hv _. apply clamped_mono, scaled_mean_mono; [exact Hv|lra].
  - intros e' He _. apply clamped_mono, scaled_mean_mono; [lra|exact He].
Qed.

Lemma calculateMoodScore_clamped_monotone_witness :
  (calculateMoodScore (1 # 2) (1 # 4) == clamp ((((1 # 2) + (1 # 4)) / 2) * 100) 0 100)%Q
  /\ (0 <= calculateMoodScore (1 # 2) (1 # 4) <= 100)%Q
  /\ (forall v', ((1 # 2) <= v')%Q -> (v' <= 1)%Q ->
        (calculateMoodScore (1 # 2) (1 # 4) <= calculateMoodScore v' (1 # 4))%Q)
  /\ (forall e', ((1 # 4) <= e')%Q -> (e' <= 1)%Q ->
        (calculateMoodScore (1 # 2) (1 # 4) <= calculateMoodScore (1 # 2) e')%Q).
Proof.
  apply (calculateMoodScore_clamped_monotone (1 # 2) (1 # 4)); split; lra.
Defined.

(** The score of a concrete pair, by evaluation. *)
Example mood_of_half_and_quarter : (calculateMoodScore (1 # 2) (1 # 4) == 75 # 2)%Q.
Proof. reflexivity. Qed.


(** *** Obscurity and diversity *)

(** X1.  The obscurity score is [100 - popularity] on the range 0-100 of
    popularities, saturates outside it (100 below, 0 above), always lies
    in [0,100], never grows with the popularity, and undoes the
    [100 - obscurityLevel] by which the interface derives a target
    popularity. *)
Theorem calculateObscurityScore_inverts_popularity (p : Q) :
  ((0 <= p <= 100)%Q -> (calculateObscurityScore p == 100 - p)%Q)
  /\ ((p <= 0)%Q -> (calculateObscurityScore p == 100)%Q)
  /\ ((100 <= p)%Q -> (calculateObscurityScore p == 0)%Q)
  /\ (0 <= calculateObscurityScore p <= 100)%Q
  /\ (forall q, (p <= q)%Q -> (calculateObscurityScore q <= calculateObscurityScore p)%Q)
  /\ ((0 <= p <= 100)%Q -> (calculateObscurityScore (100 - p) == p)%Q).
Proof.
  unfold calculateObscurityScore. repeat split.
  - intros [H0 H100]. rewrite Q.min_r by lra. apply Q.max_r; lra.
  - intros H0. rewrite Q.min_l by lra. apply Q.max_r; lra.
  - intros H100. rewrite Q.min_r by lra. apply Q.max_l; lra.
  - apply clamped_range.
  - apply clamped_range.
  - intros q Hpq. apply clamped_mono. lra.
  - intros [H0 H100]. rewrite Q.min_r by lra. rewrite Q.max_r by lra. ring.
Qed.

Lemma diversity_of_count (genres : list string) :
  (calculateDiversityScore genres
   == Qmin (inject_Z (Z.of_nat (size (list_to_set genres : gset string))) * 5) 100)%Q.
Proof.
  unfold calculateDiversityScore. cbv zeta.
  apply Q.min_compat; [|reflexivity]. field.
Qed.

Lemma inject_nat_le (a b : nat) : a <= b -> (inject_Z (Z.of_nat a) <= inject_Z (Z.of_nat b))%Q.
Proof. intros Hab. rewrite <- Zle_Qle. lia. Qed.

Lemma diversity_exact (genres : list string) :
  (calculateDiversityScore genres
   == inject_Z (Z.of_nat (Nat.min (5 * size (list_to_set genres : gset string)) 100)))%Q.
Proof.
  rewrite diversity_of_count.
  set (distinct := size (list_to_set genres : gset string)).
  destruct (Nat.le_gt_cases distinct 20) as [Hle|Hgt].
  - pose proof (inject_nat_le distinct 20 Hle) as H20.
    change (inject_Z (Z.of_nat 20)) with 20%Q in H20.
    rewrite Q.min_l by lra. rewrite Nat.min_l by lia.
    rewrite Nat2Z.inj_mul, inject_Z_mult.
    change (inject_Z (Z.of_nat 5)) with 5%Q. ring.
  - pose proof (inject_nat_le 20 distinct ltac:(lia)) as H20.
    change (inject_Z (Z.of_nat 20)) with 20%Q in H20.
    rewrite Q.min_r by lra. rewrite Nat.min_r by lia. reflexivity.
Qed.

(** X2.  The diversity score depends only on which genres occur, not on
    their order or repetitions.  It is, to within a millionth, 5 points
    per distinct genre up to 20 genres; it is 100 exactly when there are
    20 distinct genres or more, and 0 exactly when there is none; it lies
    in [0,100] and does not decrease when genres are added. *)
Theorem calculateDiversityScore_counts_distinct (genres : list string) :
  let distinct := size (list_to_set genres : gset string) in
  (forall others : list string,
     (forall g, g ∈ genres <-> g ∈ others) ->
     calculateDiversityScore others = calculateDiversityScore genres)
  /\ (inject_Z (Z.of_nat (Nat.min (5 * distinct) 100)) - (1 # 1000000)
      <= calculateDiversityScore genres
      <= inject_Z (Z.of_nat (Nat.min (5 * distinct) 100)) + (1 # 1000000))%Q
  /\ (20 <= distinct <-> (calculateDiversityScore genres == 100)%Q)
  /\ (distinct = 0 <-> (calculateDiversityScore genres == 0)%Q)
  /\ (0 <= calculateDiversityScore genres <= 100)%Q
  /\ (forall more : list string,
        (calculateDiversityScore genres <= calculateDiversityScore (genres ++ more))%Q).
Proof.
  intros distinct.
  assert (0 <= inject_Z (Z.of_nat distinct) * 5)%Q as Hnonneg.
  { pose proof (inject_nat_le 0 distinct ltac:(lia)) as H0.
    change (inject_Z (Z.of_nat 0)) with 0%Q in H0. lra. }
  pose proof (diversity_exact genres) as Hexact. fold distinct in Hexact.
  split; [|split; [|split; [|split; [|split]]]].
  - intros others Hsame. unfold calculateDiversityScore.
    replace (list_to_set others : gset string) with (list_to_set genres : gset string);
      [reflexivity|].
    apply set_eq. intros g. rewrite !elem_of_list_to_set. apply Hsame.
  - rewrite Hexact. split; lra.
  - rewrite Hexact. change 100%Q with (inject_Z (Z.of_nat 100)).
    rewrite inject_Z_injective, Nat2Z.inj_iff. lia.
  - rewrite Hexact. change 0%Q with (inject_Z (Z.of_nat 0)).
    rewrite inject_Z_injective, Nat2Z.inj_iff. lia.
  - rewrite diversity_of_count. fold distinct. split.
    + apply Q.min_glb; lra.
    + apply Q.le_min_r.
  - intros more. rewrite !diversity_of_count.
    apply Q.min_le_compat_r.
    apply Qmult_le_compat_r; [|discriminate].
    apply inject_nat_le. apply subseteq_size.
    intros g. rewrite !elem_of_list_to_set, elem_of_app. tauto.
Qed.

Example diversity_examples :
  (calculateDiversityScore ["pop"; "rock"; "pop"; "indie"] == 15)%Q
  /\ (calculateDiversityScore [] == 0)%Q.
Proof. split; vm_compute; reflexivity. Qed.

Lemma calculateObscurityScore_inverts_popularity_witness :
  (calculateObscurityScore 30 == 100 - 30)%Q
  /\ (calculateObscurityScore (100 - 30) == 30)%Q.
Proof.
  split.
  - apply (calculateObscurityScore_inverts_popularity 30). lra.
  - apply (calculateObscurityScore_inverts_popularity 30). lra.
Defined.

Lemma calculateDiversityScore_counts_distinct_witness :
  (inject_Z (Z.of_nat (Nat.min
                         (5 * size (list_to_set ["pop"; "rock"; "pop"] : gset string)) 100))
   - (1 # 1000000)
   <= calculateDiversityScore ["pop"; "rock"; "pop"]
   <= inject_Z (Z.of_nat (Nat.min
                            (5 * size (list_to_set ["pop"; "rock"; "pop"] : gset string)) 100))
      + (1 # 1000000))%Q.
Proof.
  apply (calculateDiversityScore_counts_distinct ["pop"; "rock"; "pop"]).
Defined.
End MetricsFacts.

(** ** Token refresh *)

Module AuthFacts.
Import Auth.

Lemma refresh_success_lookup (now : Z) (data : TokenData)
    (token : gmap string Value) (k : string) :
  refreshAccessToken now (Answered true data) token !! k =
    if decide (k = "accessTokenExpires") then
      Some (VNumber (add (Js.Int now) (Js.mul (expires_in data) (Js.Int 1000))))
    else if decide (k = "refreshToken") then
      Some (nullish (refresh_token data) (get token "refreshToken"))
    else if decide (k = "accessToken") then Some (access_token data)
    else token !! k.
Proof.
  unfold refreshAccessToken.
  repeat case_decide; subst; simplify_map_eq; done.
Qed.

(** A failed refresh only sets the error tag. *)
Lemma refresh_failure_lookup (now : Z) (outcome : TokenFetch)
    (token : gmap string Value) (k : string) :
  (outcome = Rejected \/ exists data, outcome = Answered false data) ->
  refreshAccessToken now outcome token !! k =
    if decide (k = "error") then Some (VString "RefreshAccessTokenError")
    else token !! k.
Proof.
  intros [->|[data ->]]; simpl; case_decide; subst; simplify_map_eq; done.
Qed.

(** C6.  A successful refresh whose response carries no refresh token
    ([undefined] or [null]) leaves the stored refresh token as it was, sets
    the access token to the response's [access_token] and the expiry to
    [now + expires_in * 1000], and changes no other field of the token. *)
Theorem refresh_retains_refresh_token (now secs : Z) (newAccess newRefresh : Value)
    (token : gmap string Value) :
  newRefresh = VUndefined \/ newRefresh = VNull ->
  let data := {| access_token := newAccess; refresh_token := newRefresh;
                 expires_in := Js.Int secs |} in
  let token' := refreshAccessToken now (Answered true data) token in
  get token' "refreshToken" = get token "refreshToken"
  /\ get token' "accessToken" = newAccess
  /\ get token' "accessTokenExpires" = VNumber (Js.Int (now + secs * 1000))
  /\ forall k, k <> "accessToken" -> k <> "refreshToken" -> k <> "accessTokenExpires" ->
       token' !! k = token !! k.
Proof.
  intros Homit data token'. subst token' data. unfold get.
  split; [|split; [|split]].
  - rewrite refresh_success_lookup. simpl.
    destruct Homit as [->| ->]; reflexivity.
  - rewrite refresh_success_lookup. reflexivity.
  - rewrite refresh_success_lookup. reflexivity.
  - intros k H1 H2 H3. rewrite refresh_success_lookup.
    repeat case_decide; congruence.
Qed.

Lemma refresh_retains_refresh_token_witness :
  let token : gmap string Value :=
    {[ "accessToken" := VString "old"; "refreshToken" := VString "keep";
       "accessTokenExpires" := VNumber (Js.Int 5); "error" := VString "stale" ]} in
  let data := {| access_token := VString "new"; refresh_token := VUndefined;
                 expires_in := Js.Int 3600 |} in
  let token' := refreshAccessToken 1000 (Answered true data) token in
  get token' "refreshToken" = get token "refreshToken"
  /\ get token' "accessToken" = VString "new"
  /\ get token' "accessTokenExpires" = VNumber (Js.Int (1000 + 3600 * 1000))
  /\ forall k, k <> "accessToken" -> k <> "refreshToken" -> k <> "accessTokenExpires" ->
       token' !! k = token !! k.
Proof.
  intros token data.
  apply (refresh_retains_refresh_token 1000 3600 (VString "new") VUndefined token).
  left; reflexivity.
Defined.

(** When the response does carry a refresh token, that one is stored. *)
Lemma refresh_takes_new_refresh_token (now : Z) (data : TokenData) (s : string)
    (token : gmap string Value) :
  refresh_token data = VString s ->
  get (refreshAccessToken now (Answered true data) token) "refreshToken" = VString s.
Proof.
  intros Hnew. unfold get. rewrite refresh_success_lookup. simpl.
  rewrite Hnew. reflexivity.
Qed.


(** *** The callbacks *)

Lemma get_insert (k : string) (v : Value) (m : gmap string Value) :
  get (<[k := v]> m) k = v.
Proof. unfold get. simplify_map_eq. reflexivity. Qed.

Lemma get_insert_ne (k k' : string) (v : Value) (m : gmap string Value) :
  k <> k' -> get (<[k := v]> m) k' = get m k'.
Proof. intros Hne. unfold get. simplify_map_eq. reflexivity. Qed.

(** The session carries the token's access token, and its error tag when
    there is one. *)
Lemma session_accessToken (sess token : gmap string Value) :
  get (session sess token) "accessToken" = get token "accessToken".
Proof.
  unfold session. rewrite get_insert_ne by discriminate. apply get_insert.
Qed.

Lemma session_error (sess token : gmap string Value) :
  truthyValue (get token "error") = true ->
  get (session sess token) "error" = get token "error".
Proof.
  intros Herr. unfold session. rewrite Herr.
  rewrite !get_insert_ne by discriminate. apply get_insert.
Qed.

Section Callbacks.
Variable stringToNumber : string -> Js.Num.

Abbreviation jwt := (jwt stringToNumber).

(** What the next call of [jwt] (without an account) does with a token
    whose expiry is the number [e]. *)
Lemma jwt_expiry_check (now later e : Z) (outcome : TokenFetch)
    (token : gmap string Value) (account : option Account) (user : option Value) :
  account = None \/ user = None ->
  get token "accessTokenExpires" = VNumber (Js.Int e) ->
  jwt now later outcome token account user
  = if (negb (e =? 0) && (now <? e))%Z then token
    else refreshAccessToken later outcome token.
Proof.
  intros Hnone He. unfold Auth.jwt. rewrite He. cbn [truthyValue toNumber lessThan].
  destruct Hnone as [-> | ->]; [reflexivity|]. destruct account; reflexivity.
Qed.

(** X15.  Sign-in starts a new token: what the previous token held,
    an error tag included, is gone; the access and refresh tokens are the
    account's; the expiry is the time of sign-in plus the account's
    [expires_in] seconds, one hour when the account gives none.  Until
    that expiry every later call returns the token as it is, whatever the
    token endpoint would answer; from then on it is refreshed. *)
Theorem sign_in_then_reuse (now secs : Z) (account : Account) (user : Value)
    (previous : gmap string Value) (later0 : Z) (outcome0 : TokenFetch) :
  (account_expires_in account = VNumber (Js.Int secs) /\ secs <> 0
   \/ account_expires_in account = VUndefined /\ secs = 3600)%Z ->
  (now + secs * 1000 <> 0)%Z ->
  let token := jwt now later0 outcome0 previous (Some account) (Some user) in
  get token "accessToken" = account_access_token account
  /\ get token "refreshToken" = account_refresh_token account
  /\ get token "accessTokenExpires" = VNumber (Js.Int (now + secs * 1000))
  /\ get token "user" = user
  /\ token !! "error" = None
  /\ forall (t later : Z) (outcome : TokenFetch),
       ((t < now + secs * 1000)%Z -> jwt t later outcome token None None = token)
       /\ ((now + secs * 1000 <= t)%Z ->
           jwt t later outcome token None None = refreshAccessToken later outcome token).
Proof.
  intros Hsecs Hnz token.
  assert (token = {[ "accessToken" := account_access_token account;
                     "refreshToken" := account_refresh_token account;
                     "accessTokenExpires" := VNumber (Js.Int (now + secs * 1000));
                     "user" := user ]}) as Htoken.
  { subst token. unfold Auth.jwt.
    destruct Hsecs as [[-> Hs] | [-> ->]]; cbn [truthyValue toNumber add Js.mul].
    - destruct (Z.eqb_spec secs 0); [contradiction|]. reflexivity.
    - reflexivity. }
  assert (get token "accessTokenExpires" = VNumber (Js.Int (now + secs * 1000))) as Hexp.
  { rewrite Htoken. unfold get. simplify_map_eq. reflexivity. }
  split; [rewrite Htoken; unfold get; simplify_map_eq; reflexivity|].
  split; [rewrite Htoken; unfold get; simplify_map_eq; reflexivity|].
  split; [exact Hexp|].
  split; [rewrite Htoken; unfold get; simplify_map_eq; reflexivity|].
  split; [rewrite Htoken; simplify_map_eq; reflexivity|].
  intros t later outcome.
  rewrite (jwt_expiry_check t later _ outcome token None None (or_introl eq_refl) Hexp).
  destruct (Z.eqb_spec (now + secs * 1000) 0) as [|_]; [contradiction|]. cbn [negb andb].
  split; intros Ht; destruct (Z.ltb_spec t (now + secs * 1000)); (reflexivity || lia).
Qed.

(** X16.  After a successful refresh the token is valid for the
    [expires_in] seconds of the response, counted from the clock reading
    of the refresh: until then every call returns it as it is, from then
    on it is refreshed again.  When the response has no usable
    [expires_in], the expiry is not a number and every later call
    refreshes again. *)
Theorem refresh_then_reuse (now : Z) (data : TokenData) (previous : gmap string Value)
    (account : option Account) (user : option Value) :
  account = None \/ user = None ->
  let token := refreshAccessToken now (Answered true data) previous in
  forall (t later : Z) (outcome : TokenFetch),
    match expires_in data with
    | Js.Int secs =>
        (now + secs * 1000 <> 0)%Z ->
        ((t < now + secs * 1000)%Z -> jwt t later outcome token account user = token)
        /\ ((now + secs * 1000 <= t)%Z ->
            jwt t later outcome token account user = refreshAccessToken later outcome token)
    | Js.NaN =>
        jwt t later outcome token account user = refreshAccessToken later outcome token
    end.
Proof.
  intros Hnone token t later outcome.
  assert (get token "accessTokenExpires"
          = VNumber (add (Js.Int now) (Js.mul (expires_in data) (Js.Int 1000)))) as Hexp.
  { subst token. unfold get. rewrite refresh_success_lookup. reflexivity. }
  destruct (expires_in data) as [secs|]; cbn [add Js.mul] in Hexp.
  - intros Hnz. rewrite (jwt_expiry_check t later _ outcome token account user Hnone Hexp).
    destruct (Z.eqb_spec (now + secs * 1000) 0) as [|_]; [contradiction|]. cbn [negb andb].
    split; intros Ht; destruct (Z.ltb_spec t (now + secs * 1000)); (reflexivity || lia).
  - unfold Auth.jwt. rewrite Hexp. cbn [truthyValue andb].
    destruct Hnone as [-> | ->]; [reflexivity|]. destruct account; reflexivity.
Qed.

(** X17.  A refresh that fails leaves the token expired: it only adds
    the error tag, so the session built from it carries the error beside
    the old access token, and every later call of [jwt], at the same or a
    later clock reading, asks the token endpoint again. *)
Theorem failed_refresh_is_retried (now later e : Z) (outcome : TokenFetch)
    (token : gmap string Value) (sess : gmap string Value) :
  outcome = Rejected \/ (exists data, outcome = Answered false data) ->
  get token "accessTokenExpires" = VNumber (Js.Int e) ->
  (e <= now)%Z ->
  let token' := jwt now later outcome token None None in
  get token' "error" = VString "RefreshAccessTokenError"
  /\ (forall k, k <> "error" -> token' !! k = token !! k)
  /\ get (session sess token') "error" = VString "RefreshAccessTokenError"
  /\ get (session sess token') "accessToken" = get token "accessToken"
  /\ forall (t later' : Z) (outcome' : TokenFetch),
       (now <= t)%Z ->
       jwt t later' outcome' token' None None = refreshAccessToken later' outcome' token'.
Proof.
  intros Hfail Hexp Hold token'.
  assert (token' = refreshAccessToken later outcome token) as Htoken'.
  { subst token'.
    rewrite (jwt_expiry_check now later e outcome token None None (or_introl eq_refl) Hexp).
    destruct (Z.ltb_spec now e); [lia|]. rewrite andb_false_r. reflexivity. }
  assert (forall k, token' !! k
                    = if decide (k = "error") then Some (VString "RefreshAccessTokenError")
                      else token !! k) as Hlook.
  { intros k. rewrite Htoken'. apply refresh_failure_lookup. exact Hfail. }
  assert (get token' "error" = VString "RefreshAccessTokenError") as Herr.
  { unfold get. rewrite Hlook. reflexivity. }
  split; [exact Herr|].
  split; [intros k Hk; rewrite Hlook; case_decide; congruence|].
  split; [|split].
  - unfold session. rewrite Herr. cbn [truthyValue Js.truthy]. unfold get.
    simplify_map_eq. reflexivity.
  - unfold session, get at 1. simplify_map_eq. unfold get. rewrite Hlook. reflexivity.
  - intros t later' outcome' Ht.
    assert (get token' "accessTokenExpires" = VNumber (Js.Int e)) as Hexp'.
    { unfold get in *. rewrite Hlook. exact Hexp. }
    rewrite (jwt_expiry_check t later' e outcome' token' None None (or_introl eq_refl) Hexp').
    destruct (Z.ltb_spec t e); [lia|]. rewrite andb_false_r. reflexivity.
Qed.

(** X18.  The error tag outlives the failure: a refresh that succeeds
    on a token tagged by an earlier failure replaces the access token and
    the expiry and keeps the tag, so that the session still reports the
    error, now beside a fresh access token. *)
Theorem error_tag_survives_refresh (now : Z) (data : TokenData)
    (token sess : gmap string Value) :
  truthyValue (get token "error") = true ->
  let token' := refreshAccessToken now (Answered true data) token in
  get token' "error" = get token "error"
  /\ get token' "accessToken" = access_token data
  /\ get (session sess token') "error" = get token "error"
  /\ get (session sess token') "accessToken" = access_token data.
Proof.
  intros Herr token'.
  assert (get token' "error" = get token "error") as Hkeep.
  { subst token'. unfold get. rewrite refresh_success_lookup. reflexivity. }
  assert (get token' "accessToken" = access_token data) as Hacc.
  { subst token'. unfold get. rewrite refresh_success_lookup. reflexivity. }
  split; [exact Hkeep|]. split; [exact Hacc|].
  rewrite session_accessToken, session_error by (rewrite Hkeep; exact Herr).
  auto.
Qed.

End Callbacks.

Lemma sign_in_then_reuse_witness :
  let account := {| account_access_token := VString "access";
                    account_refresh_token := VString "refresh";
                    account_expires_in := VUndefined |} in
  let user := VObject [("name", VString "listener")] in
  let previous : gmap string Value := {[ "error" := VString "RefreshAccessTokenError" ]} in
  let token := jwt (fun _ => Js.NaN) 1000 0 Rejected previous (Some account) (Some user) in
  get token "accessToken" = account_access_token account
  /\ get token "refreshToken" = account_refresh_token account
  /\ get token "accessTokenExpires" = VNumber (Js.Int (1000 + 3600 * 1000))
  /\ get token "user" = user
  /\ token !! "error" = None
  /\ forall (t later : Z) (outcome : TokenFetch),
       ((t < 1000 + 3600 * 1000)%Z ->
        jwt (fun _ => Js.NaN) t later outcome token None None = token)
       /\ ((1000 + 3600 * 1000 <= t)%Z ->
           jwt (fun _ => Js.NaN) t later outcome token None None
           = refreshAccessToken later outcome token).
Proof.
  intros account user previous.
  apply (sign_in_then_reuse (fun _ => Js.NaN) 1000 3600 account user previous 0 Rejected).
  - right. split; reflexivity.
  - lia.
Defined.

Lemma refresh_then_reuse_witness :
  let data := {| access_token := VString "new"; refresh_token := VUndefined;
                 expires_in := Js.Int 3600 |} in
  let previous : gmap string Value :=
    {[ "accessToken" := VString "old"; "refreshToken" := VString "keep";
       "accessTokenExpires" := VNumber (Js.Int 5) ]} in
  let token := refreshAccessToken 1000 (Answered true data) previous in
  jwt (fun _ => Js.NaN) 2000 2001 Rejected token None None = token
  /\ jwt (fun _ => Js.NaN) 3601000 3601001 Rejected token None None
     = refreshAccessToken 3601001 Rejected token.
Proof.
  intros data previous token. split.
  - destruct (refresh_then_reuse (fun _ => Js.NaN) 1000 data previous None None
                (or_introl eq_refl) 2000%Z 2001%Z Rejected) as [Hreuse _];
      [cbn; lia|]. apply Hreuse. cbn. lia.
  - destruct (refresh_then_reuse (fun _ => Js.NaN) 1000 data previous None None
                (or_introl eq_refl) 3601000%Z 3601001%Z Rejected) as [_ Hrefresh];
      [cbn; lia|]. apply Hrefresh. cbn. lia.
Defined.

Lemma failed_refresh_is_retried_witness :
  let token : gmap string Value :=
    {[ "accessToken" := VString "old"; "refreshToken" := VString "keep";
       "accessTokenExpires" := VNumber (Js.Int 5) ]} in
  let token' := jwt (fun _ => Js.NaN) 1000 1001 Rejected token None None in
  get token' "error" = VString "RefreshAccessTokenError"
  /\ (forall k, k <> "error" -> token' !! k = token !! k)
  /\ get (session ∅ token') "error" = VString "RefreshAccessTokenError"
  /\ get (session ∅ token') "accessToken" = get token "accessToken"
  /\ forall (t later' : Z) (outcome' : TokenFetch),
       (1000 <= t)%Z ->
       jwt (fun _ => Js.NaN) t later' outcome' token' None None
       = refreshAccessToken later' outcome' token'.
Proof.
  intros token.
  apply (failed_refresh_is_retried (fun _ => Js.NaN) 1000 1001 5 Rejected token ∅).
  - left. reflexivity.
  - reflexivity.
  - lia.
Defined.

Lemma error_tag_survives_refresh_witness :
  let data := {| access_token := VString "new"; refresh_token := VUndefined;
                 expires_in := Js.Int 3600 |} in
  let token : gmap string Value :=
    {[ "accessToken" := VString "old"; "refreshToken" := VString "keep";
       "accessTokenExpires" := VNumber (Js.Int 5);
       "error" := VString "RefreshAccessTokenError" ]} in
  let token' := refreshAccessToken 1000 (Answered true data) token in
  get token' "error" = get token "error"
  /\ get token' "accessToken" = access_token data
  /\ get (session ∅ token') "error" = get token "error"
  /\ get (session ∅ token') "accessToken" = access_token data.
Proof.
  intros data token.
  apply (error_tag_survives_refresh 1000 data token ∅).
  reflexivity.
Defined.
End AuthFacts.

(** ** Chunking *)

Module ArrFacts.
Import Arr.

Section Chunks.
Context {T : Type}.
Implicit Types (array : list T) (chunks : list (list T)).

Lemma slice_length array (i size : nat) :
  length (slice array i (i + size)) = Nat.min size (length array - i).
Proof.
  unfold slice. rewrite length_take, length_drop. f_equal. lia.
Qed.

Lemma slice_then_rest array (i size : nat) :
  slice array i (i + size) ++ drop (i + size) array = drop i array.
Proof.
  unfold slice. replace (i + size - i) with size by lia.
  rewrite <- (take_drop size (drop i array)) at 2.
  rewrite drop_drop. reflexivity.
Qed.

(** With a positive [size] and at least as much fuel as elements remain,
    the loop returns: it appends to the accumulator chunks that together
    spell out the rest of the array, none empty, none longer than [size]. *)
Lemma chunkArray_loop_fuel (size : nat) array :
  0 < size ->
  forall fuel i chunks,
    length array - i <= fuel ->
    exists cs,
      chunkArray_loop fuel array size i chunks = Some (chunks ++ cs)
      /\ concat cs = drop i array
      /\ Forall (fun c => 0 < length c <= size) cs.
Proof.
  intros Hsize fuel. induction fuel as [|fuel IH]; intros i chunks Hfuel; simpl.
  - destruct (Nat.leb_spec (length array) i) as [Hle|Hlt]; [|lia].
    exists []. rewrite app_nil_r, drop_ge by lia. auto.
  - destruct (Nat.leb_spec (length array) i) as [Hle|Hlt].
    + exists []. rewrite app_nil_r, drop_ge by lia. auto.
    + destruct (IH (i + size) (chunks ++ [slice array i (i + size)])) as (cs & Hrun & Hcat & Hlen);
        [lia|].
      exists (slice array i (i + size) :: cs). split; [|split].
      * rewrite Hrun, <- app_assoc. reflexivity.
      * simpl. rewrite Hcat. apply slice_then_rest.
      * constructor; [|exact Hlen]. rewrite slice_length. lia.
Qed.

(** [chunkArray] returns for every positive size, and its result is a
    partition of the array into consecutive non-empty chunks of at most
    [size] elements. *)
Lemma chunkArray_partition (size : nat) array :
  0 < size ->
  exists chunks,
    chunkArray array size = Some chunks
    /\ concat chunks = array
    /\ Forall (fun c => 0 < length c <= size) chunks.
Proof.
  intros Hsize.
  destruct (chunkArray_loop_fuel size array Hsize (length array) 0 []) as (cs & Hrun & Hcat & Hlen);
    [lia|].
  exists cs. unfold chunkArray. rewrite Hrun. auto.
Qed.

(** With size 0 the loop of the source never ends on a non-empty array. *)
Lemma chunkArray_loop_size_0 array :
  array <> [] ->
  forall fuel chunks, chunkArray_loop fuel array 0 0 chunks = None.
Proof.
  intros Hne fuel. induction fuel as [|fuel IH]; intros chunks; simpl;
    destruct array; try congruence; simpl; auto.
Qed.

End Chunks.

Section ChunkLayout.
Context {T : Type}.
Implicit Types (array : list T) (chunks : list (list T)).



(** X4.  With [size] 0 the loop makes no progress: on a non-empty array
    it never returns, whatever the fuel; on the empty array it returns
    no chunk, for every [size]. *)
Theorem chunkArray_size_0_never_returns array :
  (array <> [] -> forall fuel chunks, chunkArray_loop fuel array 0 0 chunks = None)
  /\ (forall size, chunkArray (@nil T) size = Some []).
Proof.
  split.
  - intros Hne fuel. induction fuel as [|fuel IH]; intros chunks; simpl;
      destruct array; try congruence; simpl; auto.
  - intros size. reflexivity.
Qed.

End ChunkLayout.


Example chunkArray_5_by_2 : chunkArray [1; 2; 3; 4; 5] 2 = Some [[1; 2]; [3; 4]; [5]].
Proof. reflexivity. Qed.


Lemma chunkArray_size_0_never_returns_witness :
  chunkArray_loop 1000 [1; 2; 3] 0 0 [] = None.
Proof.
  apply (chunkArray_size_0_never_returns (T := nat) [1; 2; 3]). discriminate.
Defined.
End ArrFacts.

(** ** Reasoning about effects *)

Module EffFacts.
Import Http Eff.

Section Behaviour.
Context {W : Type}.
Abbreviation behaves := (behaves (W := W)).

Lemma behaves_silent {A} (P : Event -> Prop) (m : M W A) :
  (forall s, exists r, m s = (r, s) /\ r <> Hang) -> behaves P m.
Proof.
  intros Hm s r s' Hrun. destruct (Hm s) as (r0 & Hr0 & Hne).
  rewrite Hr0 in Hrun. injection Hrun as <- <-.
  split; [exact Hne|]. exists []. rewrite app_nil_r. auto.
Qed.

Lemma behaves_ret {A} P (a : A) : behaves P (ret a).
Proof. apply behaves_silent. intros s. exists (Ok a). split; [reflexivity|discriminate]. Qed.

Lemma behaves_throw {A} P (e : Js.Error) : behaves P (throw (A := A) e).
Proof. apply behaves_silent. intros s. exists (Throw e). split; [reflexivity|discriminate]. Qed.

Lemma behaves_emit P (ev : Event) : P ev -> behaves P (emit ev).
Proof.
  intros Hev s r s' Hrun. injection Hrun as <- <-.
  split; [discriminate|]. exists [ev]. simpl. auto.
Qed.

Lemma behaves_delay P (ms : Js.Num) : P (EvDelay ms) -> behaves P (delay ms).
Proof. apply behaves_emit. Qed.

Lemma behaves_fetch `{Remote W} P (req : Request) :
  (forall out, P (EvFetch req out)) -> behaves P (fetch req).
Proof.
  intros Hev s r s'. unfold fetch.
  destruct (serve req (remote s)) as [out w]. intros Hrun.
  assert (log s' = log s ++ [EvFetch req out] /\ r <> Hang) as [Hlog Hne].
  { destruct out; injection Hrun as <- <-; simpl; split; (reflexivity || discriminate). }
  split; [exact Hne|]. exists [EvFetch req out]. auto.
Qed.

Lemma behaves_json P (r : Response) : behaves P (json r).
Proof. unfold json. destruct (body r); [apply behaves_ret|apply behaves_throw]. Qed.

Lemma behaves_bind {A B} P (m : M W A) (k : A -> M W B) :
  behaves P m -> (forall a, behaves P (k a)) -> behaves P (bind m k).
Proof.
  intros Hm Hk s r s'. unfold bind.
  destruct (m s) as [r1 s1] eqn:Hrun1.
  destruct (Hm _ _ _ Hrun1) as (Hne1 & evs1 & Hlog1 & Hall1).
  destruct r1 as [a|e|]; [|intros [= <- <-]|congruence].
  - intros Hrun2. destruct (Hk a _ _ _ Hrun2) as (Hne2 & evs2 & Hlog2 & Hall2).
    split; [exact Hne2|]. exists (evs1 ++ evs2).
    rewrite Hlog2, Hlog1, app_assoc. split; [reflexivity|].
    apply Forall_app; auto.
  - split; [discriminate|]. exists evs1. auto.
Qed.

Lemma behaves_tryCatch {A} P (m : M W A) (handler : Js.Error -> M W A) :
  behaves P m -> (forall e, behaves P (handler e)) -> behaves P (tryCatch m handler).
Proof.
  intros Hm Hh s r s'. unfold tryCatch.
  destruct (m s) as [r1 s1] eqn:Hrun1.
  destruct (Hm _ _ _ Hrun1) as (Hne1 & evs1 & Hlog1 & Hall1).
  destruct r1 as [a|e|]; [intros [= <- <-]| |congruence].
  - split; [discriminate|]. exists evs1. auto.
  - intros Hrun2. destruct (Hh e _ _ _ Hrun2) as (Hne2 & evs2 & Hlog2 & Hall2).
    split; [exact Hne2|]. exists (evs1 ++ evs2).
    rewrite Hlog2, Hlog1, app_assoc. split; [reflexivity|].
    apply Forall_app; auto.
Qed.

Lemma behaves_weaken {A} (P Q : Event -> Prop) (m : M W A) :
  (forall ev, P ev -> Q ev) -> behaves P m -> behaves Q m.
Proof.
  intros HPQ Hm s r s' Hrun.
  destruct (Hm _ _ _ Hrun) as (Hne & evs & Hlog & Hall).
  split; [exact Hne|]. exists evs. split; [exact Hlog|].
  eapply Forall_impl; eauto.
Qed.

(** A computation that behaves and cannot throw returns a value. *)
Lemma behaves_tryCatch_ok {A} P (m : M W A) (fallback : A) :
  behaves P m ->
  forall s, exists a s' evs,
    tryCatch m (fun _ => ret fallback) s = (Ok a, s')
    /\ log s' = log s ++ evs /\ Forall P evs.
Proof.
  intros Hm s. unfold tryCatch.
  destruct (m s) as [r1 s1] eqn:Hrun1.
  destruct (Hm _ _ _ Hrun1) as (Hne1 & evs1 & Hlog1 & Hall1).
  destruct r1 as [a|e|]; [| |congruence].
  - exists a, s1, evs1. auto.
  - exists fallback, s1, evs1. auto.
Qed.

End Behaviour.

Create HintDb behaves.
#[export] Hint Resolve behaves_ret behaves_throw behaves_json : behaves.

End EffFacts.

(** ** The retry wrapper *)

Module RetryFacts.
Import Http Eff Spotify RetryTrace Fixtures EffFacts.

(** *** [parseInt] reads back the decimal notation of a number *)

Lemma digitValue_decimal (d : N) :
  (d < 10)%N -> Js.digitValue 10 (pretty_N_char d) = Some (Z.of_N d).
Proof.
  intros Hd.
  assert (d = 0 \/ d = 1 \/ d = 2 \/ d = 3 \/ d = 4 \/ d = 5 \/ d = 6
          \/ d = 7 \/ d = 8 \/ d = 9)%N as Hcases by lia.
  repeat (destruct Hcases as [->|Hcases]; [reflexivity|]). subst d. reflexivity.
Qed.

Lemma readDigits_pretty_go (x : N) :
  forall s, (0 < x)%N ->
    Js.readDigits 10 (pretty_N_go x s) None = Js.readDigits 10 s (Some (Z.of_N x)).
Proof.
  induction (N.lt_wf_0 x) as [x _ IH]. intros s Hpos.
  rewrite pretty_N_go_step by exact Hpos.
  assert (x `mod` 10 < 10)%N as Hmod by (apply N.mod_lt; lia).
  destruct (decide (x < 10)%N) as [Hsmall|Hbig].
  - rewrite N.div_small, pretty_N_go_0 by exact Hsmall. simpl.
    rewrite digitValue_decimal by exact Hmod.
    rewrite N.mod_small by exact Hsmall. reflexivity.
  - rewrite IH; [|apply N.div_lt; lia|apply N.div_str_pos; lia].
    simpl. rewrite digitValue_decimal by exact Hmod. simpl.
    do 2 f_equal. pose proof (N.div_mod x 10 ltac:(lia)). lia.
Qed.

(** The notation of a positive number starts with a digit from 1 to 9. *)
Lemma pretty_go_head (x : N) :
  forall s, (0 < x)%N ->
    exists d t, pretty_N_go x s = String (pretty_N_char d) t /\ (0 < d < 10)%N.
Proof.
  induction (N.lt_wf_0 x) as [x _ IH]. intros s Hpos.
  rewrite pretty_N_go_step by exact Hpos.
  destruct (decide (x < 10)%N) as [Hsmall|Hbig].
  - rewrite N.div_small, pretty_N_go_0 by exact Hsmall.
    exists (x `mod` 10)%N, s. rewrite N.mod_small by exact Hsmall.
    split; [reflexivity|lia].
  - apply IH; [apply N.div_lt; lia|apply N.div_str_pos; lia].
Qed.

Lemma parseInt_leading_digit (d : N) (t : string) :
  (0 < d < 10)%N ->
  Js.parseInt (String (pretty_N_char d) t) =
    match Js.readDigits 10 (String (pretty_N_char d) t) None with
    | Some z => Js.Int z
    | None => Js.NaN
    end.
Proof.
  intros Hd.
  assert (d = 1 \/ d = 2 \/ d = 3 \/ d = 4 \/ d = 5 \/ d = 6
          \/ d = 7 \/ d = 8 \/ d = 9)%N as Hcases by lia.
  repeat (destruct Hcases as [->|Hcases]; [reflexivity|]). subst d. reflexivity.
Qed.

Lemma parseInt_pretty (x : N) : Js.parseInt (pretty x) = Js.Int (Z.of_N x).
Proof.
  unfold pretty, pretty_N. case_decide as Hx; [subst x; reflexivity|].
  assert (0 < x)%N as Hpos by lia.
  destruct (pretty_go_head x "" Hpos) as (d & t & Hhead & Hd).
  pose proof (readDigits_pretty_go x "" Hpos) as Hread.
  rewrite Hhead in Hread. rewrite Hhead, parseInt_leading_digit, Hread by exact Hd.
  reflexivity.
Qed.

Example parseInt_examples :
  Js.parseInt "2" = Js.Int 2 /\ Js.parseInt " 12px" = Js.Int 12
  /\ Js.parseInt "-7" = Js.Int (-7) /\ Js.parseInt "0x1F" = Js.Int 31
  /\ Js.parseInt "soon" = Js.NaN /\ Js.parseInt "" = Js.NaN.
Proof. repeat split. Qed.


(** *** Authorization failures *)

Section AnyOperation.
Context {W T : Type}.
Variable operation : M W T.
Variable maxRetries : nat.
Variable initialDelayMs : Z.

(** One iteration whose invocation fails with an authorization error
    throws that error and runs nothing after it. *)
Lemma retryLoop_auth (remaining attempt : nat) (lastError : option Js.Error)
    (s s1 : Sys W) (error : Js.Error) :
  operation (record (EvInvoke attempt) s) = (Throw error, s1) ->
  isAuthError error = true ->
  retryLoop operation maxRetries initialDelayMs (S remaining) attempt lastError s
  = (Throw error, record (EvAttemptFailed attempt error) s1).
Proof.
  intros Hop Hauth. simpl. unfold tryCatch, bind, emit.
  rewrite Hop. simpl. rewrite Hauth. reflexivity.
Qed.

(** One iteration whose invocation returns a value returns that value. *)
Lemma retryLoop_ok (remaining attempt : nat) (lastError : option Js.Error)
    (s s1 : Sys W) (v : T) :
  operation (record (EvInvoke attempt) s) = (Ok v, s1) ->
  retryLoop operation maxRetries initialDelayMs (S remaining) attempt lastError s
  = (Ok v, s1).
Proof.
  intros Hop. simpl. unfold tryCatch, bind, emit. rewrite Hop. reflexivity.
Qed.

(** One iteration whose invocation fails with any other error waits (if an
    attempt is left) and goes on with the next attempt. *)
Lemma retryLoop_retry (remaining attempt : nat) (lastError : option Js.Error)
    (s s1 : Sys W) (error : Js.Error) :
  operation (record (EvInvoke attempt) s) = (Throw error, s1) ->
  isAuthError error = false ->
  retryLoop operation maxRetries initialDelayMs (S remaining) attempt lastError s
  = retryLoop operation maxRetries initialDelayMs remaining (S attempt) (Some error)
      (let s2 := record (EvAttemptFailed attempt error) s1 in
       if attempt <? maxRetries
       then record (EvDelay (waitAfter initialDelayMs error attempt)) s2 else s2).
Proof.
  intros Hop Hauth. simpl. unfold tryCatch, bind, emit.
  rewrite Hop. simpl. rewrite Hauth. unfold waitAfter.
  destruct (isRateLimit error), (attempt <? maxRetries); reflexivity.
Qed.

End AnyOperation.

(** C3.  Whatever the operation and the budget: when the wrapper's
    invocation of the operation fails with an error whose [statusCode] is
    401 or 403, the run of the wrapper is that one invocation and nothing
    more.  It ends in the state the invocation left (plus the
    [console.error] line), so there is no second invocation and no delay,
    and it throws the very error the operation threw.  For an operation
    that writes nothing to the log itself, the log grows by exactly
    [EvInvoke 1; EvAttemptFailed 1 error]. *)
Theorem auth_error_not_retried {W T : Type} (operation : M W T)
    (maxRetries : nat) (initialDelayMs : Z) (s s1 : Sys W) (error : Js.Error) :
  0 < maxRetries ->
  operation (record (EvInvoke 1) s) = (Throw error, s1) ->
  Js.statusCode error = Some 401%Z \/ Js.statusCode error = Some 403%Z ->
  retryableSpotifyCall operation maxRetries initialDelayMs s
  = (Throw error, record (EvAttemptFailed 1 error) s1)
  /\ (log s1 = log s ++ [EvInvoke 1] ->
      log (snd (retryableSpotifyCall operation maxRetries initialDelayMs s))
      = log s ++ [EvInvoke 1; EvAttemptFailed 1 error]).
Proof.
  intros Hbudget Hop Hstatus.
  assert (isAuthError error = true) as Hauth.
  { unfold isAuthError. destruct Hstatus as [-> | ->]; reflexivity. }
  assert (retryableSpotifyCall operation maxRetries initialDelayMs s
          = (Throw error, record (EvAttemptFailed 1 error) s1)) as Hrun.
  { unfold retryableSpotifyCall. destruct maxRetries as [|n]; [lia|].
    apply retryLoop_auth; assumption. }
  split; [exact Hrun|].
  intros Hlog. rewrite Hrun. simpl. rewrite Hlog, <- app_assoc. reflexivity.
Qed.

Lemma auth_error_not_retried_witness :
  retryableSpotifyCall (countingFailure unauthorized) 3 1000 {| remote := 0; log := [] |}
  = (Throw unauthorized,
     {| remote := 1; log := [EvInvoke 1; EvAttemptFailed 1 unauthorized] |}).
Proof.
  destruct (auth_error_not_retried (countingFailure unauthorized) 3 1000
              {| remote := 0; log := [] |} {| remote := 1; log := [EvInvoke 1] |}
              unauthorized) as [Hrun _].
  - lia.
  - reflexivity.
  - left; reflexivity.
  - exact Hrun.
Defined.

(** With a budget of 0 the loop body never runs: the operation is not
    invoked at all. *)
Example no_budget_no_invocation :
  retryableSpotifyCall (countingFailure unauthorized) 0 1000 {| remote := 0; log := [] |}
  = (Throw (Js.newError "Unknown error occurred during Spotify API call"),
     {| remote := 0; log := [] |}).
Proof. reflexivity. Qed.

(** *** The shape of a run *)

Section Schedule.
Variable maxRetries : nat.
Variable initialDelayMs : Z.

Abbreviation Schedule := (Schedule maxRetries initialDelayMs).

Lemma schedule_head (a : nat) (evs : list Event) :
  Schedule a evs -> a <= maxRetries -> exists rest, evs = EvInvoke a :: rest.
Proof. intros Hs Hle. destruct Hs; eauto; lia. Qed.

(** In a schedule, a failed attempt that is not the last one and not an
    authorization failure is followed by exactly one wait and then by the
    next invocation. *)
Lemma schedule_wait (a : nat) (evs : list Event) :
  Schedule a evs ->
  forall pre k e post,
    evs = pre ++ EvAttemptFailed k e :: post ->
    a <= k
    /\ (k < maxRetries -> isAuthError e = false ->
        exists post', post = EvDelay (waitAfter initialDelayMs e k) :: EvInvoke (S k) :: post').
Proof.
  induction 1 as [a Ha|a Ha|a e Ha Hauth|a e rest Ha Hauth Hrest IH|a e rest Ha Hauth Hrest IH];
    intros pre k e' post Heq.
  - destruct pre; discriminate.
  - destruct pre as [|? [|? ?]]; discriminate.
  - destruct pre as [|? [|? [|? ?]]]; try discriminate.
    injection Heq as <- <- <-. split; [lia|]. congruence.
  - destruct pre as [|? [|? [|? pre]]]; try discriminate.
    + injection Heq as <- <- <-. split; [lia|]. intros _ _.
      destruct (schedule_head _ _ Hrest ltac:(lia)) as [rest' ->]. eauto.
    + injection Heq as _ _ _ Heq.
      destruct (IH _ _ _ _ Heq) as [Hle Hwait]. split; [lia|exact Hwait].
  - destruct pre as [|? [|? pre]]; try discriminate.
    + injection Heq as <- <- <-. split; [lia|]. lia.
    + injection Heq as _ _ Heq.
      destruct (IH _ _ _ _ Heq) as [Hle Hwait]. split; [lia|exact Hwait].
Qed.

Context {W T : Type}.
Variable f : W -> Res T * W.

Lemma liftOp_after_invoke (a : nat) (w : W) (l : list Event) :
  liftOp f (record (EvInvoke a) {| remote := w; log := l |})
  = (fst (f w), {| remote := snd (f w); log := l ++ [EvInvoke a] |}).
Proof. unfold liftOp, record. simpl. destruct (f w). reflexivity. Qed.

Lemma exhausted_silent (lastError : option Js.Error) (s : Sys W) :
  snd (exhausted (T := T) lastError s) = s.
Proof.
  unfold exhausted. destruct lastError as [e|]; [destruct (isRateLimit e)|]; reflexivity.
Qed.

(** The loop over an operation that only touches the remote state writes
    a schedule. *)
Lemma retryLoop_schedule (remaining : nat) :
  forall attempt lastError w l r s',
    attempt + remaining = S maxRetries ->
    retryLoop (liftOp f) maxRetries initialDelayMs remaining attempt lastError
      {| remote := w; log := l |} = (r, s') ->
    exists evs, log s' = l ++ evs /\ Schedule attempt evs.
Proof.
  induction remaining as [|remaining IH]; intros attempt lastError w l r s' Hinv Hrun.
  - simpl in Hrun. pose proof (exhausted_silent lastError {| remote := w; log := l |}) as Hs.
    rewrite Hrun in Hs. simpl in Hs. subst s'.
    exists []. rewrite app_nil_r. split; [reflexivity|]. apply sched_exhausted. lia.
  - pose proof (liftOp_after_invoke attempt w l) as Hop.
    destruct (f w) as [[v|e|] w1]; simpl in Hop.
    + rewrite (retryLoop_ok _ _ _ _ _ _ _ _ v Hop) in Hrun. injection Hrun as <- <-.
      exists [EvInvoke attempt]. split; [reflexivity|]. apply sched_settled. lia.
    + destruct (isAuthError e) eqn:Hauth.
      * rewrite (retryLoop_auth _ _ _ _ _ _ _ _ _ Hop Hauth) in Hrun.
        injection Hrun as <- <-. simpl.
        exists [EvInvoke attempt; EvAttemptFailed attempt e].
        rewrite <- app_assoc. split; [reflexivity|]. apply sched_auth; [lia|exact Hauth].
      * rewrite (retryLoop_retry _ _ _ _ _ _ _ _ _ Hop Hauth) in Hrun.
        destruct (Nat.ltb_spec attempt maxRetries) as [Hlt|Hge]; simpl in Hrun;
          apply IH in Hrun; try lia; destruct Hrun as (evs & Hlog & Hsched);
          simpl in Hlog.
        -- exists (EvInvoke attempt :: EvAttemptFailed attempt e
                     :: EvDelay (waitAfter initialDelayMs e attempt) :: evs).
           rewrite Hlog, <- !app_assoc. split; [reflexivity|].
           apply sched_retry; assumption.
        -- exists (EvInvoke attempt :: EvAttemptFailed attempt e :: evs).
           rewrite Hlog, <- !app_assoc. split; [reflexivity|].
           apply sched_last; [lia|assumption..].
    + simpl in Hrun. unfold tryCatch, bind, emit in Hrun. rewrite Hop in Hrun.
      injection Hrun as <- <-.
      exists [EvInvoke attempt]. split; [reflexivity|]. apply sched_settled. lia.
Qed.

End Schedule.

(** *** Rate limiting *)

Lemma truthy_pretty (x : N) : Js.truthy (pretty x) = true.
Proof.
  unfold pretty, pretty_N. case_decide as Hx; [reflexivity|].
  destruct (pretty_go_head x "" ltac:(lia)) as (d & t & -> & _). reflexivity.
Qed.

Lemma retryAfter_cases (error : Js.Error) (initialDelayMs : Z) (attempt : nat) :
  (forall h, retryAfterHeader error = Some h -> h <> "" ->
     retryAfter error initialDelayMs attempt = Js.mul (Js.parseInt h) (Js.Int 1000))
  /\ (forall secs : N, retryAfterHeader error = Some (pretty secs) ->
     retryAfter error initialDelayMs attempt = Js.Int (Z.of_N secs * 1000))
  /\ (retryAfterHeader error = None \/ retryAfterHeader error = Some "" ->
     retryAfter error initialDelayMs attempt
     = Js.Int (initialDelayMs * 2 ^ Z.of_nat (attempt - 1))).
Proof.
  unfold retryAfter. split; [|split].
  - intros h -> Hne. destruct h; [congruence|reflexivity].
  - intros secs ->. rewrite truthy_pretty, parseInt_pretty. reflexivity.
  - intros [-> | ->]; reflexivity.
Qed.

(** *** The operation fails, the wrapper waits *)

Lemma FailsWith_snoc {W T : Type} (f : W -> Res T * W) (errs : list Js.Error)
    (error : Js.Error) :
  forall w w',
    FailsWith f w (errs ++ [error]) w' ->
    exists w1, FailsWith f w errs w1 /\ f w1 = (Throw error, w').
Proof.
  induction errs as [|e errs IH]; intros w w' Hfails.
  - inversion Hfails as [|? ? w1 ? ? Hf Hrest]; subst.
    inversion Hrest; subst. exists w. split; [constructor|exact Hf].
  - inversion Hfails as [|? ? w1 ? ? Hf Hrest]; subst.
    destruct (IH _ _ Hrest) as (w2 & Hfirst & Hlast).
    exists w2. split; [econstructor; eassumption|exact Hlast].
Qed.

Lemma failedLog_snoc (maxRetries : nat) (initialDelayMs : Z) (errs : list Js.Error)
    (error : Js.Error) :
  forall attempt,
    failedLog maxRetries initialDelayMs attempt (errs ++ [error])
    = failedLog maxRetries initialDelayMs attempt errs
      ++ EvInvoke (attempt + length errs) :: EvAttemptFailed (attempt + length errs) error
      :: (if attempt + length errs <? maxRetries
          then [EvDelay (waitAfter initialDelayMs error (attempt + length errs))] else []).
Proof.
  induction errs as [|e errs IH]; intros attempt.
  - cbn [app failedLog length]. rewrite Nat.add_0_r, app_nil_r. reflexivity.
  - cbn [app failedLog length]. rewrite (IH (S attempt)), Nat.add_succ_r.
    cbn [Nat.add]. rewrite <- !app_assoc. reflexivity.
Qed.

Section Failures.
Context {W T : Type}.
Variable f : W -> Res T * W.
Variable maxRetries : nat.
Variable initialDelayMs : Z.

(** While the operation fails with errors that are no authorization
    errors, the loop goes from attempt to attempt and writes
    [failedLog]. *)
Lemma retryLoop_failures (errs : list Js.Error) :
  forall remaining attempt lastError w l w1,
    FailsWith f w errs w1 ->
    Forall (fun e => isAuthError e = false) errs ->
    exists lastError',
      retryLoop (liftOp f) maxRetries initialDelayMs (length errs + remaining) attempt
        lastError {| remote := w; log := l |}
      = retryLoop (liftOp f) maxRetries initialDelayMs remaining (attempt + length errs)
          lastError'
          {| remote := w1; log := l ++ failedLog maxRetries initialDelayMs attempt errs |}.
Proof.
  induction errs as [|e errs IH]; intros remaining attempt lastError w l w1 Hfails Hauth.
  - inversion Hfails; subst. exists lastError.
    cbn [length Nat.add failedLog]. rewrite Nat.add_0_r, app_nil_r. reflexivity.
  - inversion Hfails as [|? ? w2 ? ? Hf Hrest]; subst.
    apply Forall_cons_1 in Hauth. destruct Hauth as [He Hauth].
    pose proof (liftOp_after_invoke f attempt w l) as Hop. rewrite Hf in Hop. cbn in Hop.
    cbn [length Nat.add].
    rewrite (retryLoop_retry _ _ _ _ _ _ _ _ _ Hop He).
    cbn [failedLog]. rewrite Nat.add_succ_r.
    destruct (attempt <? maxRetries); cbn [record remote log].
    + destruct (IH remaining (S attempt) (Some e) w2
                  ((l ++ [EvInvoke attempt]) ++ [EvAttemptFailed attempt e]
                   ++ [EvDelay (waitAfter initialDelayMs e attempt)]) w1 Hrest Hauth)
        as [lastError' Hrun].
      exists lastError'. unfold record in *. cbn [remote log] in *.
      rewrite <- !app_assoc in *. cbn [app Nat.add] in *. exact Hrun.
    + destruct (IH remaining (S attempt) (Some e) w2
                  ((l ++ [EvInvoke attempt]) ++ [EvAttemptFailed attempt e]) w1 Hrest Hauth)
        as [lastError' Hrun].
      exists lastError'. unfold record in *. cbn [remote log] in *.
      rewrite <- !app_assoc in *. cbn [app Nat.add] in *. exact Hrun.
Qed.

(** A loop that has an attempt left starts by invoking the operation. *)
Lemma retryLoop_invokes (remaining attempt : nat) (lastError : option Js.Error)
    (w : W) (l : list Event) (r : Res T) (s' : Sys W) :
  attempt + remaining = S maxRetries -> attempt <= maxRetries ->
  retryLoop (liftOp f) maxRetries initialDelayMs remaining attempt lastError
    {| remote := w; log := l |} = (r, s') ->
  exists post, log s' = l ++ EvInvoke attempt :: post.
Proof.
  intros Hinv Hle Hrun.
  apply retryLoop_schedule in Hrun; [|exact Hinv].
  destruct Hrun as (evs & Hlog & Hsched).
  inversion Hsched; subst; try lia; eexists; exact Hlog.
Qed.

End Failures.

(** C4.  Take any operation (acting on the remote state) and any budget.
    Attempts are numbered from 1.  Suppose the operation fails at its
    first [k] invocations, at the [k]-th with status 429 and before that
    with errors that are no authorization errors, and that attempt [k]
    is not the last one.  Then the wrapper does return, and what it wrote
    to the log is: the record of the attempts before [k], then the
    invocation of attempt [k], its failure, exactly one wait, and the
    invocation of attempt [k + 1], whose answer is returned if it is
    one.  The wait is [parseInt(header) * 1000] when the error carries
    a (non-empty) [retry-after] header, which for a header spelling the
    number [secs] is [secs * 1000] milliseconds, and it is
    [initialDelayMs * 2^(k-1)] when there is no such header.  With
    [retry-after: 2] the wait before the next invocation is 2000 ms.
    The waits are stated for values up to [2^53], the range in which
    the code's arithmetic is that of the integers. *)
Theorem rate_limit_wait {W T : Type} (f : W -> Res T * W)
    (maxRetries : nat) (initialDelayMs : Z) (w : W) (l : list Event)
    (errs : list Js.Error) (error : Js.Error) (w' : W) :
  FailsWith f w (errs ++ [error]) w' ->
  Forall (fun e => isAuthError e = false) errs ->
  Js.statusCode error = Some 429%Z ->
  S (length errs) < maxRetries ->
  let k := S (length errs) in
  exists wait r s' post,
    retryableSpotifyCall (liftOp f) maxRetries initialDelayMs {| remote := w; log := l |}
    = (r, s')
    /\ log s' = l ++ failedLog maxRetries initialDelayMs 1 errs
                  ++ [EvInvoke k; EvAttemptFailed k error; EvDelay wait; EvInvoke (S k)]
                  ++ post
    /\ (forall v w'', f w' = (Ok v, w'') -> r = Ok v /\ remote s' = w'' /\ post = [])
    /\ (forall h n, retryAfterHeader error = Some h -> h <> "" ->
          Js.parseInt h = Js.Int n -> (Z.abs n * 1000 <= 2 ^ 53)%Z ->
          wait = Js.Int (n * 1000))
    /\ (forall h, retryAfterHeader error = Some h -> h <> "" ->
          Js.parseInt h = Js.NaN -> wait = Js.NaN)
    /\ (forall secs : N, retryAfterHeader error = Some (pretty secs) ->
          (Z.of_N secs * 1000 <= 2 ^ 53)%Z ->
          wait = Js.Int (Z.of_N secs * 1000))
    /\ (retryAfterHeader error = None \/ retryAfterHeader error = Some "" ->
          (Z.abs initialDelayMs * 2 ^ Z.of_nat (k - 1) <= 2 ^ 53)%Z ->
          wait = Js.Int (initialDelayMs * 2 ^ Z.of_nat (k - 1)))
    /\ (retryAfterHeader error = Some "2" -> wait = Js.Int 2000).
Proof.
  intros Hfails Hauth H429 Hk k.
  assert (isAuthError error = false) as Herr
    by (unfold isAuthError; rewrite H429; reflexivity).
  assert (isRateLimit error = true) as Hrate
    by (unfold isRateLimit; rewrite H429; reflexivity).
  destruct (FailsWith_snoc f errs error w w' Hfails) as (w1 & _ & Hlast).
  destruct (retryableSpotifyCall (liftOp f) maxRetries initialDelayMs
              {| remote := w; log := l |}) as [r s'] eqn:Hrun.
  unfold retryableSpotifyCall in Hrun.
  assert (maxRetries = length (errs ++ [error]) + (maxRetries - k)) as Hsplit
    by (rewrite length_app; cbn [length]; subst k; lia).
  rewrite Hsplit in Hrun at 2.
  destruct (retryLoop_failures f maxRetries initialDelayMs (errs ++ [error])
              (maxRetries - k) 1 None w l w'
              Hfails ltac:(apply Forall_app; split; [exact Hauth|repeat constructor; exact Herr]))
    as [lastError' Hloop].
  rewrite Hloop in Hrun. clear Hloop.
  rewrite failedLog_snoc in Hrun. change (1 + length errs) with k in Hrun.
  rewrite length_app in Hrun. cbn [length] in Hrun.
  replace (1 + (length errs + 1)) with (S k) in Hrun by (subst k; lia).
  destruct (Nat.ltb_spec k maxRetries) as [_|Hge]; [|subst k; lia].
  rewrite app_assoc in Hrun.
  assert (S k + (maxRetries - k) = S maxRetries) as Hinv by (subst k; lia).
  assert (S k <= maxRetries) as Hle by (subst k; lia).
  destruct (retryLoop_invokes f maxRetries initialDelayMs _ _ _ _ _ _ _ Hinv Hle Hrun)
    as [post Hlog].
  exists (waitAfter initialDelayMs error k), r, s', post.
  split; [reflexivity|].
  split; [rewrite Hlog, <- !app_assoc; reflexivity|].
  split.
  { intros v w'' Hok.
    destruct (maxRetries - k) as [|remaining] eqn:Hrem; [subst k; lia|].
    pose proof (liftOp_after_invoke f (S k) w'
                  ((l ++ failedLog maxRetries initialDelayMs 1 errs)
                   ++ [EvInvoke k; EvAttemptFailed k error;
                       EvDelay (waitAfter initialDelayMs error k)])) as Hop.
    rewrite Hok in Hop. cbn [fst snd] in Hop.
    rewrite (retryLoop_ok _ _ _ _ _ _ _ _ v Hop) in Hrun.
    injection Hrun as <- <-. cbn [remote log] in *.
    split; [reflexivity|]. split; [reflexivity|].
    apply app_inv_head in Hlog. injection Hlog as Hpost. congruence. }
  unfold waitAfter. rewrite Hrate.
  destruct (retryAfter_cases error initialDelayMs k) as (Hheader & Hsecs & Hnone).
  split; [intros h n Hh Hne Hparse _; rewrite (Hheader h Hh Hne), Hparse; reflexivity|].
  split; [intros h Hh Hne Hparse; rewrite (Hheader h Hh Hne), Hparse; reflexivity|].
  split; [intros secs Hh _; exact (Hsecs secs Hh)|].
  split; [intros Hh _; exact (Hnone Hh)|].
  intros H2. apply (Hsecs 2%N H2).
Qed.

Example limitedOnce_run :
  retryableSpotifyCall (liftOp limitedOnce) 3 1000 {| remote := 0; log := [] |}
  = (Ok tt,
     {| remote := 2;
        log := [EvInvoke 1; EvAttemptFailed 1 rateLimited; EvDelay (Js.Int 2000);
                EvInvoke 2] |}).
Proof. reflexivity. Qed.

Lemma rate_limit_wait_witness :
  exists wait r s' post,
    retryableSpotifyCall (liftOp limitedOnce) 3 1000 {| remote := 0; log := [] |} = (r, s')
    /\ log s' = [] ++ failedLog 3 1000 1 []
                  ++ [EvInvoke 1; EvAttemptFailed 1 rateLimited; EvDelay wait; EvInvoke 2]
                  ++ post
    /\ (forall v w'', limitedOnce 1 = (Ok v, w'') -> r = Ok v /\ remote s' = w'' /\ post = [])
    /\ (forall h n, retryAfterHeader rateLimited = Some h -> h <> "" ->
          Js.parseInt h = Js.Int n -> (Z.abs n * 1000 <= 2 ^ 53)%Z ->
          wait = Js.Int (n * 1000))
    /\ (forall h, retryAfterHeader rateLimited = Some h -> h <> "" ->
          Js.parseInt h = Js.NaN -> wait = Js.NaN)
    /\ (forall secs : N, retryAfterHeader rateLimited = Some (pretty secs) ->
          (Z.of_N secs * 1000 <= 2 ^ 53)%Z ->
          wait = Js.Int (Z.of_N secs * 1000))
    /\ (retryAfterHeader rateLimited = None \/ retryAfterHeader rateLimited = Some "" ->
          (Z.abs 1000 * 2 ^ Z.of_nat (1 - 1) <= 2 ^ 53)%Z ->
          wait = Js.Int (1000 * 2 ^ Z.of_nat (1 - 1)))
    /\ (retryAfterHeader rateLimited = Some "2" -> wait = Js.Int 2000).
Proof.
  apply (rate_limit_wait limitedOnce 3 1000 0 [] [] rateLimited 1).
  - apply (fails_more limitedOnce 0 rateLimited 1 [] 1); [reflexivity|constructor].
  - constructor.
  - reflexivity.
  - cbn. lia.
Defined.

(** Without the header the waits double: 1000 ms, then 2000 ms. *)
Example backoff_run :
  retryableSpotifyCall (countingFailure rateLimitedNoHint) 3 1000 {| remote := 0; log := [] |}
  = (Throw (Js.newError rateLimitMessage),
     {| remote := 3;
        log := [EvInvoke 1; EvAttemptFailed 1 rateLimitedNoHint; EvDelay (Js.Int 1000);
                EvInvoke 2; EvAttemptFailed 2 rateLimitedNoHint; EvDelay (Js.Int 2000);
                EvInvoke 3; EvAttemptFailed 3 rateLimitedNoHint] |}).
Proof. reflexivity. Qed.

(** *** The wrapper comes back *)

Section Behaves.
Context {W T : Type}.
Variable P : Event -> Prop.
Variable operation : M W T.
Variable maxRetries : nat.
Variable initialDelayMs : Z.
Hypothesis operation_behaves : behaves P operation.
Hypothesis P_invoke : forall a, P (EvInvoke a).
Hypothesis P_failed : forall a e, P (EvAttemptFailed a e).
Hypothesis P_delay : forall ms, P (EvDelay ms).

Lemma behaves_exhausted (lastError : option Js.Error) :
  behaves P (exhausted (W := W) (T := T) lastError).
Proof.
  unfold exhausted. destruct lastError as [e|]; [destruct (isRateLimit e)|];
    apply behaves_throw.
Qed.

Lemma behaves_retryLoop (remaining : nat) :
  forall attempt lastError,
    behaves P (retryLoop operation maxRetries initialDelayMs remaining attempt lastError).
Proof.
  induction remaining as [|remaining IH]; intros attempt lastError; simpl.
  - apply behaves_exhausted.
  - apply behaves_tryCatch.
    + apply behaves_bind; [apply behaves_emit, P_invoke|intros _; exact operation_behaves].
    + intros error. apply behaves_bind; [apply behaves_emit, P_failed|intros _].
      destruct (isAuthError error); [apply behaves_throw|].
      assert (behaves P
                ((if attempt <? maxRetries
                  then delay (backoff initialDelayMs attempt) else ret tt) ;;
                 retryLoop operation maxRetries initialDelayMs remaining (S attempt)
                   (Some error))) as Hplain.
      { apply behaves_bind; [|intros _; apply IH].
        destruct (attempt <? maxRetries); [apply behaves_delay, P_delay|apply behaves_ret]. }
      destruct (isRateLimit error); [|exact Hplain].
      destruct (attempt <? maxRetries); [|exact Hplain].
      apply behaves_bind; [apply behaves_delay, P_delay|intros _; apply IH].
Qed.

Lemma behaves_retryableSpotifyCall :
  behaves P (retryableSpotifyCall operation maxRetries initialDelayMs).
Proof. apply behaves_retryLoop. Qed.

End Behaves.

(** *** Bounds on a run *)

Lemma schedule_counts (maxRetries : nat) (initialDelayMs : Z) (a : nat) (evs : list Event) :
  Schedule maxRetries initialDelayMs a evs ->
  invocations evs <= S maxRetries - a
  /\ length (delaysOf evs) <= invocations evs - 1
  /\ (a <= maxRetries -> 1 <= invocations evs).
Proof.
  induction 1 as [a Ha|a Ha|a e Ha Hauth|a e rest Ha Hauth Hrest IH|a e rest Ha Hauth Hrest IH];
    unfold invocations, delaysOf in *; cbn [omap list_omap length] in *; try lia.
Qed.

(** X5.  Whatever the operation does, the wrapper invokes it at most
    [maxRetries] times (and at least once when the budget is positive),
    and it waits fewer times than it invokes: there is no wait after the
    last attempt.  With a budget of 0 it invokes nothing and throws the
    "Unknown error" at once. *)
Theorem retry_is_bounded {W T : Type} (f : W -> Res T * W)
    (maxRetries : nat) (initialDelayMs : Z) (w : W) (l : list Event)
    (r : Res T) (s' : Sys W) :
  retryableSpotifyCall (liftOp f) maxRetries initialDelayMs {| remote := w; log := l |}
  = (r, s') ->
  exists evs,
    log s' = l ++ evs
    /\ invocations evs <= maxRetries
    /\ length (delaysOf evs) <= invocations evs - 1
    /\ (0 < maxRetries -> 1 <= invocations evs)
    /\ (maxRetries = 0 ->
        evs = [] /\ remote s' = w
        /\ r = Throw (Js.newError "Unknown error occurred during Spotify API call")).
Proof.
  intros Hrun. pose proof Hrun as Hrun0. unfold retryableSpotifyCall in Hrun.
  apply retryLoop_schedule in Hrun; [|lia].
  destruct Hrun as (evs & Hlog & Hsched). exists evs. split; [exact Hlog|].
  destruct (schedule_counts _ _ _ _ Hsched) as (Hinv & Hdel & Hpos).
  split; [lia|]. split; [exact Hdel|]. split; [intros; apply Hpos; lia|].
  intros ->. unfold retryableSpotifyCall in Hrun0. cbn in Hrun0.
  injection Hrun0 as <- <-. cbn in Hlog.
  assert (evs = []) as -> by (apply (app_inv_head l); rewrite app_nil_r; symmetry; exact Hlog).
  auto.
Qed.

Lemma retry_is_bounded_witness :
  exists evs,
    [EvInvoke 1; EvAttemptFailed 1 rateLimited; EvDelay (Js.Int 2000); EvInvoke 2]
    = [] ++ evs
    /\ invocations evs <= 3
    /\ length (delaysOf evs) <= invocations evs - 1
    /\ (0 < 3 -> 1 <= invocations evs)
    /\ (3 = 0 ->
        evs = [] /\ 2 = 0
        /\ Ok tt = Throw (Js.newError "Unknown error occurred during Spotify API call")).
Proof.
  apply (retry_is_bounded limitedOnce 3 1000 0 [] (Ok tt)
           {| remote := 2;
              log := [EvInvoke 1; EvAttemptFailed 1 rateLimited; EvDelay (Js.Int 2000);
                      EvInvoke 2] |}).
  reflexivity.
Defined.

(** *** Exhausting the budget *)

Lemma exhausted_throws {W T : Type} (lastError : option Js.Error) (s : Sys W) :
  exhausted (T := T) lastError s = (Throw (thrownAfter lastError), s).
Proof.
  unfold exhausted, thrownAfter.
  destruct lastError as [e|]; [destruct (isRateLimit e)|]; reflexivity.
Qed.


Lemma last_or_cons {A} (e : A) (errs : list A) (d : option A) :
  from_option Some d (last (e :: errs)) = from_option Some (Some e) (last errs).
Proof.
  revert e d. induction errs as [|e0 errs IH]; intros e d; [reflexivity|].
  change (last (e :: e0 :: errs)) with (last (e0 :: errs)).
  rewrite (IH e0 d), (IH e0 (Some e)). reflexivity.
Qed.

Section AlwaysFailing.
Context {W T : Type}.
Variable f : W -> Res T * W.
Variable maxRetries : nat.
Variable initialDelayMs : Z.
Variable P : Js.Error -> Prop.
Hypothesis f_fails :
  forall w, exists e w', f w = (Throw e, w') /\ isAuthError e = false /\ P e.

Lemma retryLoop_all_fail (remaining : nat) :
  forall attempt lastError w l,
    exists errs w',
      length errs = remaining
      /\ Forall (fun e => isAuthError e = false /\ P e) errs
      /\ retryLoop (liftOp f) maxRetries initialDelayMs remaining attempt lastError
           {| remote := w; log := l |}
         = (Throw (thrownAfter (from_option Some lastError (last errs))),
            {| remote := w'; log := l ++ failedLog maxRetries initialDelayMs attempt errs |}).
Proof.
  induction remaining as [|remaining IH]; intros attempt lastError w l.
  - exists [], w. cbn [retryLoop]. rewrite exhausted_throws, app_nil_r. auto.
  - destruct (f_fails w) as (e & w1 & Hf & Hauth & HP).
    pose proof (liftOp_after_invoke f attempt w l) as Hop. rewrite Hf in Hop. cbn in Hop.
    rewrite (retryLoop_retry _ _ _ _ _ _ _ _ _ Hop Hauth).
    destruct (attempt <? maxRetries) eqn:Hlt; cbn [record remote log].
    + destruct (IH (S attempt) (Some e) w1
                  ((l ++ [EvInvoke attempt]) ++ [EvAttemptFailed attempt e]
                   ++ [EvDelay (waitAfter initialDelayMs e attempt)]))
        as (errs & w' & Hlen & Hall & Hrun).
      exists (e :: errs), w'. split; [cbn; lia|]. split; [constructor; auto|].
      unfold record in *. cbn [remote log] in *.
      rewrite <- !app_assoc in *. cbn [app] in *. rewrite Hrun.
      cbn [failedLog]. rewrite Hlt. cbn [app].
      rewrite last_or_cons. reflexivity.
    + destruct (IH (S attempt) (Some e) w1
                  ((l ++ [EvInvoke attempt]) ++ [EvAttemptFailed attempt e]))
        as (errs & w' & Hlen & Hall & Hrun).
      exists (e :: errs), w'. split; [cbn; lia|]. split; [constructor; auto|].
      unfold record in *. cbn [remote log] in *.
      rewrite <- !app_assoc in *. cbn [app] in *. rewrite Hrun.
      cbn [failedLog]. rewrite Hlt. cbn [app].
      rewrite last_or_cons. reflexivity.
Qed.

End AlwaysFailing.






End RetryFacts.


(** ** Runs of the recommendation cascade, read from the log *)

Module CascadeFacts.
Import Http Eff Spotify Trace.

Section Cascade.
Variable accessToken : string.
Variable seedTracks : list string.
Variable targetPopularity : Z.
Variable limit : nat.
Variable seedGenres : list string.

Abbreviation Cascade := (Cascade accessToken seedTracks targetPopularity limit seedGenres).
Abbreviation GenreMiss := (GenreMiss accessToken targetPopularity limit seedGenres).
Abbreviation Misses := (Misses accessToken seedTracks targetPopularity limit).
Abbreviation trackEvent := (trackEvent accessToken seedTracks targetPopularity limit).
Abbreviation genreEvent := (genreEvent accessToken targetPopularity limit).
Abbreviation fallback := (createFallbackRecommendations limit).
Abbreviation prefixOfSize := (fun i => Arr.slice (validSeeds seedTracks) 0 i).

Lemma yields_not_recommendation (ev : Event) : ~ isRecommendation ev -> yields ev = None.
Proof.
  destruct ev as [req out| | |]; try reflexivity. simpl.
  destruct (endpoint req); tauto.
Qed.


Lemma misses_yield_nothing (hi lo : nat) (evs : list Event) :
  Misses hi lo evs -> Forall (fun ev => yields ev = None) evs.
Proof. induction 1; constructor; auto. Qed.

Lemma genre_miss_yields_nothing (gev : list Event) :
  GenreMiss gev -> Forall (fun ev => yields ev = None) gev.
Proof. destruct 1; repeat constructor; auto. Qed.



Lemma others_yield_nothing (aev : list Event) :
  Forall (fun ev => ~ isRecommendation ev) aev -> Forall (fun ev => yields ev = None) aev.
Proof. intros Hall. eapply Forall_impl; [exact Hall|exact yields_not_recommendation]. Qed.




(** When no recommendations attempt yields a list, the placeholders are
    returned. *)
Lemma cascade_all_miss (evs : list Event) (ts : list Track) :
  Cascade evs ts -> Forall (fun ev => yields ev = None) evs -> ts = fallback.
Proof.
  destruct 1 as [| out ts Hg Hout | | | gev aev available out | gev misses j out ts |];
    intros Hall; try reflexivity.
  - apply Forall_cons_1, proj1 in Hall. simpl in Hall. congruence.
  - rewrite !Forall_app in Hall. destruct Hall as (_ & _ & Hlast).
    apply Forall_cons_1, proj1 in Hlast. simpl in Hlast. rewrite Hlast. reflexivity.
  - rewrite !Forall_app in Hall. destruct Hall as (_ & _ & Hlast).
    apply Forall_cons_1, proj1 in Hlast. simpl in Hlast. congruence.
Qed.

Lemma last_snoc_app {A} (a b : list A) (x : A) : last (a ++ b ++ [x]) = Some x.
Proof. rewrite app_assoc. apply last_snoc. Qed.

(** An attempt that yields a list ends the run, and its list is what the
    run returns. *)
Lemma cascade_first_yield (evs : list Event) (ts : list Track) :
  Cascade evs ts ->
  forall ev ts', ev ∈ evs -> yields ev = Some ts' -> ts = ts' /\ last evs = Some ev.
Proof.
  assert (forall (l : list Event) ev ts', Forall (fun ev => yields ev = None) l ->
            ev ∈ l -> yields ev = Some ts' -> False) as Hno.
  { intros l ev ts' Hall Hin Hy. rewrite Forall_forall in Hall.
    specialize (Hall _ Hin). congruence. }
  destruct 1 as [| out ts Hg Hout | gev Hgev | gev aev Hgev ? ? Haev
                 | gev aev available out Hgev ? ? Haev | gev misses j out ts Hgev ? Hmisses Hout
                 | gev misses Hgev ? Hmisses];
    intros ev ts' Hin Hy.
  - inversion Hin.
  - apply list_elem_of_singleton in Hin. subst ev. simpl in Hy.
    split; [congruence|reflexivity].
  - exfalso. apply (Hno gev ev ts'); auto using genre_miss_yields_nothing.
  - exfalso. apply elem_of_app in Hin as [Hin|Hin].
    + apply (Hno gev ev ts'); auto using genre_miss_yields_nothing.
    + apply (Hno aev ev ts'); auto using others_yield_nothing.
  - rewrite !elem_of_app in Hin. destruct Hin as [Hin|[Hin|Hin]].
    + exfalso. apply (Hno gev ev ts'); auto using genre_miss_yields_nothing.
    + exfalso. apply (Hno aev ev ts'); auto using others_yield_nothing.
    + apply list_elem_of_singleton in Hin. subst ev. simpl in Hy. rewrite Hy.
      split; [reflexivity|apply last_snoc_app].
  - rewrite !elem_of_app in Hin. destruct Hin as [Hin|[Hin|Hin]].
    + exfalso. apply (Hno gev ev ts'); auto using genre_miss_yields_nothing.
    + exfalso. apply (Hno misses ev ts'); eauto using misses_yield_nothing.
    + apply list_elem_of_singleton in Hin. subst ev. simpl in Hy.
      split; [congruence|apply last_snoc_app].
  - exfalso. apply elem_of_app in Hin as [Hin|Hin].
    + apply (Hno gev ev ts'); auto using genre_miss_yields_nothing.
    + apply (Hno misses ev ts'); eauto using misses_yield_nothing.
Qed.



End Cascade.

End CascadeFacts.
(** ** The recommendation cascade *)

Module RecFacts.
Import Http Eff Spotify Trace Fixtures EffFacts.

Section WithRemote.
Context {W : Type} `{Remote W}.

(** One attempt at the recommendations endpoint: the request is logged
    with its outcome, and the attempt yields what [recResult] reads from
    the outcome. *)
Lemma attempt_requestRecommendations (accessToken : string)
    (seed_genres seed_tracks : list string) (targetPopularity : Z) (limit : nat)
    (s : Sys W) :
  let req := {| endpoint := Recommendations seed_genres seed_tracks targetPopularity limit;
                bearer := accessToken |} in
  let out := fst (serve req (remote s)) in
  attempt (requestRecommendations accessToken seed_genres seed_tracks targetPopularity limit) s
  = (Ok (recResult out),
     {| remote := snd (serve req (remote s)); log := log s ++ [EvFetch req out] |}).
Proof.
  intros req out. subst out.
  unfold attempt, requestRecommendations, tryCatch, bind, fetch. fold req.
  destruct (serve req (remote s)) as [[e|r] w]; simpl; [reflexivity|].
  destruct (ok r); simpl; [|reflexivity].
  unfold json. destruct (body r) as [data|e]; simpl; [|reflexivity].
  destruct (tracks data); reflexivity.
Qed.


Section Run.
Variable accessToken : string.
Variable targetPopularity : Z.
Variable limit : nat.
Hypothesis token_given : Js.truthy accessToken = true.

(** The loop over shrinking prefixes: it always comes back; either every
    size from [i] down to 1 was tried and missed, or the sizes from [i]
    down to some [j + 1] were tried, all missed but the last, whose list is
    returned. *)
Lemma trackSeedLoop_spec (seedTracks : list string) (i : nat) :
  forall s, exists r s' evs,
    trackSeedLoop accessToken (validSeeds seedTracks) targetPopularity limit i s = (Ok r, s')
    /\ log s' = log s ++ evs
    /\ match r with
       | None => Misses accessToken seedTracks targetPopularity limit i 0 evs
       | Some ts =>
           exists j out misses,
             j < i
             /\ Misses accessToken seedTracks targetPopularity limit i (S j) misses
             /\ evs = misses ++ [trackEvent accessToken seedTracks targetPopularity limit (S j) out]
             /\ recResult out = Some ts
       end.
Proof.
  induction i as [|i IH]; intros s.
  - exists None, s, []. rewrite app_nil_r. repeat split. constructor.
  - cbn [trackSeedLoop]. unfold bind at 1.
    rewrite attempt_requestRecommendations.
    set (req := {| endpoint := Recommendations [] (Arr.slice (validSeeds seedTracks) 0 (S i))
                                targetPopularity limit;
                   bearer := accessToken |}).
    destruct (serve req (remote s)) as [out w] eqn:Hserve. cbn [fst snd].
    destruct (recResult out) as [ts|] eqn:Hout.
    + eexists (Some ts), _, [EvFetch req out]. split; [reflexivity|].
      split; [reflexivity|].
      exists i, out, []. repeat split; [lia|constructor|assumption].
    + destruct (IH {| remote := w; log := log s ++ [EvFetch req out] |})
        as (r & s' & evs & Hrun & Hlog & Hshape).
      exists r, s', (EvFetch req out :: evs). split; [exact Hrun|].
      split; [rewrite Hlog; cbn [log]; rewrite <- app_assoc; reflexivity|].
      destruct r as [ts|].
      * destruct Hshape as (j & out' & misses & Hj & Hmisses & -> & Hout').
        exists j, out', (EvFetch req out :: misses).
        repeat split; [lia| |assumption].
        apply (misses_more _ _ _ _ i (S j) out misses); assumption.
      * apply (misses_more _ _ _ _ i 0 out evs); assumption.
Qed.

(** A call with genre seeds and no seed tracks: one attempt, whose list is
    returned if there is one, and the placeholders otherwise. *)
Lemma genres_only (fuel : nat) (genres : list string) (s : Sys W) :
  genres <> [] ->
  let req := {| endpoint := Recommendations (Arr.slice genres 0 5) [] targetPopularity limit;
                bearer := accessToken |} in
  let out := fst (serve req (remote s)) in
  getRecommendations_fuel (S fuel) accessToken [] targetPopularity limit genres s
  = (Ok (default (createFallbackRecommendations limit) (recResult out)),
     {| remote := snd (serve req (remote s)); log := log s ++ [EvFetch req out] |}).
Proof.
  intros Hne req out. subst out. cbn [getRecommendations_fuel].
  rewrite token_given. cbn [negb].
  destruct genres as [|g genres]; [congruence|]. cbn [length Nat.eqb andb Nat.ltb Nat.leb].
  unfold bind at 1. rewrite attempt_requestRecommendations. fold req.
  destruct (recResult (serve req (remote s)).1); reflexivity.
Qed.

(** [getAvailableGenres] always returns a list, and talks only to the
    genre-seed endpoint. *)
Lemma getAvailableGenres_behaves :
  behaves (fun ev => ~ isRecommendation ev) (getAvailableGenres accessToken).
Proof.
  unfold getAvailableGenres. rewrite token_given. cbn [negb].
  apply behaves_tryCatch; [|intros _; apply behaves_ret].
  unfold requestQueue_add.
  apply RetryFacts.behaves_retryableSpotifyCall; try (intros; exact (fun x => x)).
  apply behaves_bind.
  - apply behaves_fetch. intros out. exact (fun x => x).
  - intros response. destruct (ok response); cbn [negb]; [|apply behaves_ret].
    apply behaves_bind; [apply behaves_json|intros data; apply behaves_ret].
Qed.

Lemma attempt_getAvailableGenres (s : Sys W) :
  exists genres s' evs,
    attempt (getAvailableGenres accessToken) s = (Ok (Some genres), s')
    /\ log s' = log s ++ evs
    /\ Forall (fun ev => ~ isRecommendation ev) evs.
Proof.
  unfold attempt, tryCatch, bind.
  destruct (getAvailableGenres accessToken s) as [r s'] eqn:Hrun.
  destruct (getAvailableGenres_behaves _ _ _ Hrun) as (Hne & evs & Hlog & Hall).
  assert (exists genres, r = Ok genres) as [genres ->].
  { revert Hrun. unfold getAvailableGenres. rewrite token_given. cbn [negb].
    unfold tryCatch, ret.
    destruct (requestQueue_add _ s) as [[g|e|] s1]; intros [= <- _]; eauto.
    congruence. }
  exists genres, s', evs. auto.
Qed.

End Run.

Section Cascade.
Variable accessToken : string.
Variable seedTracks : list string.
Variable targetPopularity : Z.
Variable limit : nat.
Variable seedGenres : list string.
Hypothesis token_given : Js.truthy accessToken = true.

Abbreviation Cascade := (Cascade accessToken seedTracks targetPopularity limit seedGenres).
Abbreviation GenreMiss := (GenreMiss accessToken targetPopularity limit seedGenres).

Abbreviation afterGenres := (afterGenres accessToken seedTracks targetPopularity limit).

Lemma getRecommendations_fuel_unfold (fuel : nat) :
  getRecommendations_fuel (S fuel) accessToken seedTracks targetPopularity limit seedGenres
  = if (length seedTracks =? 0) && (length seedGenres =? 0) then
      ret (createFallbackRecommendations limit)
    else
      let* byGenre :=
        if 0 <? length seedGenres then
          attempt (requestRecommendations accessToken (Arr.slice seedGenres 0 5) []
                     targetPopularity limit)
        else ret None in
      match byGenre with
      | Some ts => ret ts
      | None => afterGenres fuel
      end.
Proof. cbn [getRecommendations_fuel]. rewrite token_given. reflexivity. Qed.

Lemma afterGenres_cascade (fuel : nat) (gev : list Event) (s : Sys W) :
  GenreMiss gev ->
  exists ts s' evs,
    afterGenres (S fuel) s = (Ok ts, s')
    /\ log s' = log s ++ evs
    /\ Cascade (gev ++ evs) ts.
Proof.
  intros Hmiss. unfold afterGenres. fold (validSeeds seedTracks).
  destruct (Nat.ltb_spec 0 (length seedTracks)) as [Htracks|Htracks].
  2:{ exists (createFallbackRecommendations limit), s, []. rewrite !app_nil_r.
      repeat split. apply cascade_no_tracks; [exact Hmiss|].
      apply nil_length_inv. lia. }
  assert (seedTracks <> []) as Hsome by (intros Heq; rewrite Heq in Htracks; cbn in Htracks; lia).
  destruct (Nat.eqb_spec (length (validSeeds seedTracks)) 0) as [Hvalid|Hvalid].
  - apply nil_length_inv in Hvalid. unfold bind at 1.
    destruct (attempt_getAvailableGenres accessToken token_given s)
      as (available & s1 & aev & -> & Hlog1 & Haev).
    destruct available as [|g gs]; cbn [length Nat.ltb Nat.leb].
    + exists (createFallbackRecommendations limit), s1, aev. repeat split; [exact Hlog1|].
      apply cascade_no_default_genres; auto.
    + rewrite (genres_only accessToken targetPopularity limit token_given fuel) by discriminate.
      eexists _, _, (aev ++ [_]). split; [reflexivity|].
      split; [cbn [log]; rewrite Hlog1, <- app_assoc; reflexivity|].
      apply (cascade_default_genres _ _ _ _ _ gev aev (g :: gs)); auto.
  - assert (validSeeds seedTracks <> []) as Hvalid'
      by (intros Heq; rewrite Heq in Hvalid; cbn in Hvalid; lia).
    unfold bind at 1.
    destruct (trackSeedLoop_spec accessToken targetPopularity limit seedTracks
                (Nat.min (length (validSeeds seedTracks)) 5) s)
      as (r & s1 & evs & -> & Hlog1 & Hshape).
    destruct r as [ts|].
    + destruct Hshape as (j & out & misses & Hj & Hmisses & -> & Hout).
      exists ts, s1, (misses ++ [trackEvent accessToken seedTracks targetPopularity limit (S j) out]).
      repeat split; [exact Hlog1|].
      apply cascade_tracks_win; auto.
    + exists (createFallbackRecommendations limit), s1, evs. repeat split; [exact Hlog1|].
      apply cascade_tracks_fail; auto.
Qed.

(** Every run of [getRecommendations] with a token returns a list, and is
    one of the runs [Cascade] describes.  The same holds with more fuel. *)
Lemma getRecommendations_fuel_cascade (fuel : nat) (s : Sys W) :
  exists ts s' evs,
    getRecommendations_fuel (S (S fuel)) accessToken seedTracks targetPopularity limit
      seedGenres s = (Ok ts, s')
    /\ log s' = log s ++ evs
    /\ Cascade evs ts.
Proof.
  rewrite getRecommendations_fuel_unfold.
  destruct (Nat.ltb_spec 0 (length seedGenres)) as [Hgenres|Hgenres].
  - assert (seedGenres <> []) as Hsome
      by (intros Heq; rewrite Heq in Hgenres; cbn in Hgenres; lia).
    replace (length seedGenres =? 0) with false by (symmetry; apply Nat.eqb_neq; lia).
    rewrite andb_false_r.
    unfold bind at 1. rewrite attempt_requestRecommendations.
    set (req := {| endpoint := Recommendations (Arr.slice seedGenres 0 5) [] targetPopularity limit;
                   bearer := accessToken |}).
    destruct (serve req (remote s)) as [out w]. cbn [fst snd].
    destruct (recResult out) as [ts|] eqn:Hout.
    + eexists ts, _, [EvFetch req out]. split; [reflexivity|]. split; [reflexivity|].
      apply cascade_genres_win; assumption.
    + destruct (afterGenres_cascade fuel [EvFetch req out]
                  {| remote := w; log := log s ++ [EvFetch req out] |})
        as (ts & s' & evs & Hrun & Hlog & Hcas).
      { apply genre_failed; assumption. }
      exists ts, s', ([EvFetch req out] ++ evs). split; [exact Hrun|].
      split; [rewrite Hlog; cbn [log]; rewrite <- app_assoc; reflexivity|exact Hcas].
  - assert (seedGenres = []) as Hnone by (apply nil_length_inv; lia).
    replace (length seedGenres =? 0) with true by (symmetry; apply Nat.eqb_eq; lia).
    rewrite andb_true_r.
    destruct (Nat.eqb_spec (length seedTracks) 0) as [Htracks|Htracks].
    + exists (createFallbackRecommendations limit), s, []. rewrite app_nil_r.
      repeat split. apply cascade_no_seeds; [apply nil_length_inv; exact Htracks|exact Hnone].
    + unfold bind at 1. cbn [ret].
      destruct (afterGenres_cascade fuel [] s) as (ts & s' & evs & Hrun & Hlog & Hcas).
      { apply genre_skipped. exact Hnone. }
      exists ts, s', evs. auto.
Qed.

Lemma getRecommendations_cascade (s : Sys W) :
  exists ts s' evs,
    getRecommendations accessToken seedTracks targetPopularity limit seedGenres s = (Ok ts, s')
    /\ log s' = log s ++ evs
    /\ Cascade evs ts.
Proof. apply (getRecommendations_fuel_cascade 0). Qed.

End Cascade.


End WithRemote.

(** *** Properties of [getRecommendations] *)

Section Properties.
Context {W : Type} `{Remote W}.
Variable accessToken : string.
Variable seedTracks : list string.
Variable targetPopularity : Z.
Variable limit : nat.
Variable seedGenres : list string.
Hypothesis token_given : Js.truthy accessToken = true.

(** A run with a token returns (it neither throws nor hangs), and its log
    is one [Cascade] describes. *)
Lemma getRecommendations_run (s : Sys W) (r : Res (list Track)) (s' : Sys W) :
  getRecommendations accessToken seedTracks targetPopularity limit seedGenres s = (r, s') ->
  exists ts evs,
    r = Ok ts /\ log s' = log s ++ evs
    /\ Cascade accessToken seedTracks targetPopularity limit seedGenres evs ts.
Proof.
  intros Hrun.
  destruct (getRecommendations_cascade accessToken seedTracks targetPopularity limit
              seedGenres token_given s) as (ts & s1 & evs & Hrun' & Hlog & Hcas).
  rewrite Hrun in Hrun'. injection Hrun' as -> ->. eauto.
Qed.

(** More fuel changes nothing. *)
Lemma getRecommendations_fuel_enough (fuel : nat) (s : Sys W) :
  exists ts s',
    getRecommendations_fuel (S (S fuel)) accessToken seedTracks targetPopularity limit
      seedGenres s = (Ok ts, s').
Proof.
  destruct (getRecommendations_fuel_cascade accessToken seedTracks targetPopularity limit
              seedGenres token_given fuel s) as (ts & s1 & evs & Hrun & _).
  eauto.
Qed.

(** The attempt that yields a list is the last thing the run does, and
    its list is returned as it is. *)
Lemma first_yield_wins (s : Sys W) (r : Res (list Track)) (s' : Sys W)
    (evs : list Event) (ev : Event) (ts : list Track) :
  getRecommendations accessToken seedTracks targetPopularity limit seedGenres s = (r, s') ->
  log s' = log s ++ evs ->
  ev ∈ evs -> yields ev = Some ts ->
  r = Ok ts /\ last evs = Some ev.
Proof.
  intros Hrun Hlog Hin Hy.
  destruct (getRecommendations_run _ _ _ Hrun) as (ts0 & evs0 & -> & Hlog0 & Hcas).
  rewrite Hlog in Hlog0. apply app_inv_head in Hlog0. subst evs0.
  destruct (CascadeFacts.cascade_first_yield _ _ _ _ _ _ _ Hcas _ _ Hin Hy) as [-> Hlast].
  auto.
Qed.

End Properties.

Lemma createFallbackRecommendations_length (limit : nat) :
  length (createFallbackRecommendations limit) = limit.
Proof. unfold createFallbackRecommendations. rewrite length_map, length_seq. reflexivity. Qed.

Lemma startsWith_append (p s : string) : Js.startsWith (p +:+ s) p = true.
Proof.
  unfold Js.startsWith. apply String.prefix_correct.
  induction p as [|c p IH]; simpl.
  - destruct s; reflexivity.
  - rewrite IH. reflexivity.
Qed.

Lemma createFallbackRecommendations_marked (limit : nat) :
  Forall (fun t => Js.startsWith (id t) "fallback-" = true)
    (createFallbackRecommendations limit).
Proof.
  unfold createFallbackRecommendations. apply Forall_map, Forall_forall.
  intros index _. cbn [id]. apply startsWith_append.
Qed.

(** C2.  For every positive [limit] and whatever the seeds: when no
    request to the recommendations endpoint yields a track list (in
    particular when there is no valid seed to ask with), the call returns
    [createFallbackRecommendations(limit)], a list of exactly [limit]
    entries whose identifiers all start with ["fallback-"]. *)
Theorem fallback_when_nothing_yields {W : Type} `{Remote W}
    (accessToken : string) (seedTracks : list string) (targetPopularity : Z)
    (limit : nat) (seedGenres : list string)
    (s : Sys W) (r : Res (list Track)) (s' : Sys W) :
  Js.truthy accessToken = true ->
  0 < limit ->
  getRecommendations accessToken seedTracks targetPopularity limit seedGenres s = (r, s') ->
  (forall evs, log s' = log s ++ evs -> Forall (fun ev => yields ev = None) evs) ->
  exists ts,
    r = Ok ts
    /\ ts = createFallbackRecommendations limit
    /\ length ts = limit
    /\ Forall (fun t => Js.startsWith (id t) "fallback-" = true) ts.
Proof.
  intros Htoken _ Hrun Hnone.
  destruct (getRecommendations_run _ _ _ _ _ Htoken _ _ _ Hrun) as (ts & evs & -> & Hlog & Hcas).
  apply CascadeFacts.cascade_all_miss in Hcas; [|apply Hnone, Hlog]. subst ts.
  eexists. split; [reflexivity|]. split; [reflexivity|].
  split; [apply createFallbackRecommendations_length|apply createFallbackRecommendations_marked].
Qed.

(** With no seed at all nothing is requested. *)
Lemma no_seeds_no_request {W : Type} `{Remote W}
    (accessToken : string) (targetPopularity : Z) (limit : nat) (s : Sys W) :
  Js.truthy accessToken = true ->
  getRecommendations accessToken [] targetPopularity limit [] s
  = (Ok (createFallbackRecommendations limit), s).
Proof.
  intros Htoken. unfold getRecommendations. cbn [getRecommendations_fuel].
  rewrite Htoken. reflexivity.
Qed.

Lemma fallback_when_nothing_yields_witness :
  exists ts,
    fst (getRecommendations (H := scripted) "token" ["not-an-id"] 50 3 ["pop"] (fresh []))
    = Ok ts
    /\ ts = createFallbackRecommendations 3
    /\ length ts = 3
    /\ Forall (fun t => Js.startsWith (id t) "fallback-" = true) ts.
Proof.
  apply (fallback_when_nothing_yields (H := scripted) "token" ["not-an-id"] 50 3 ["pop"]
           (fresh []) _
           (snd (getRecommendations (H := scripted) "token" ["not-an-id"] 50 3 ["pop"]
                   (fresh [])))).
  - reflexivity.
  - lia.
  - vm_compute. reflexivity.
  - intros evs Hlog. vm_compute in Hlog. subst evs. repeat constructor.
Defined.




(** Three seeds of which two are well formed; the attempt with both fails
    (503), the attempt with the first one answers. *)
Example shrinking_run :
  getRecommendations (H := scripted) "token" threeSeeds 50 20 []
    (fresh [failing 503 "Service Unavailable"; okTracks [someTrack]])
  = (Ok [someTrack],
     {| remote := [];
        log := [EvFetch {| endpoint := Recommendations []
                             ["4iV5W9uYEdYUVa79Axb7Rh"; "0VjIjW4GlUZAMYd2vXMi3b"] 50 20;
                           bearer := "token" |} (failing 503 "Service Unavailable");
                EvFetch {| endpoint := Recommendations [] ["4iV5W9uYEdYUVa79Axb7Rh"] 50 20;
                           bearer := "token" |} (okTracks [someTrack])] |}).
Proof. reflexivity. Qed.


(** C1.  The strategies come in the stated order and an attempt that
    yields a non-empty list ends the run ([first_yield_wins],
    [strategies_in_order]); but an attempt that yields zero results wins
    as well.  Here the genre attempt is answered with an empty track
    list, and the empty list is returned: the seed track is never tried
    (the answer the remote had ready for it is still in the script) and
    no placeholder is produced. *)
Theorem zero_results_attempt_wins :
  getRecommendations (H := scripted) "token" ["4iV5W9uYEdYUVa79Axb7Rh"] 50 20 ["pop"]
    (fresh [okTracks []; okTracks [someTrack]])
  = (Ok [],
     {| remote := [okTracks [someTrack]];
        log := [EvFetch {| endpoint := Recommendations ["pop"] [] 50 20; bearer := "token" |}
                  (okTracks [])] |}).
Proof. reflexivity. Qed.

(** The order of the strategies, on a run where every attempt fails:
    genres, then the track seeds, then the placeholders. *)
Example strategies_in_order :
  getRecommendations (H := scripted) "token" ["4iV5W9uYEdYUVa79Axb7Rh"] 50 2 ["pop"]
    (fresh [failing 500 "Internal Server Error"; failing 500 "Internal Server Error"])
  = (Ok (createFallbackRecommendations 2),
     {| remote := [];
        log := [EvFetch {| endpoint := Recommendations ["pop"] [] 50 2; bearer := "token" |}
                  (failing 500 "Internal Server Error");
                EvFetch {| endpoint := Recommendations [] ["4iV5W9uYEdYUVa79Axb7Rh"] 50 2;
                           bearer := "token" |}
                  (failing 500 "Internal Server Error")] |}).
Proof. reflexivity. Qed.

(** *** [getAvailableGenres] *)

(** X10.  With an access token [getAvailableGenres] always returns a
    list.  When the first response is not ok it returns the three default
    genres at once, after that single request (the refusal is not
    retried); when the first response is ok and decodes, it returns the
    [genres] of the body, or the defaults if the body has none.  Without a
    token it throws before any request. *)
Theorem getAvailableGenres_falls_back {W : Type} `{Remote W}
    (accessToken : string) (s : Sys W) :
  let req := {| endpoint := AvailableGenreSeeds; bearer := accessToken |} in
  (Js.truthy accessToken = false ->
   getAvailableGenres accessToken s = (Throw (Js.newError "No access token provided"), s))
  /\ (Js.truthy accessToken = true ->
      exists available s',
        getAvailableGenres accessToken s = (Ok available, s')
        /\ (forall r w,
              serve req (remote s) = (Resp r, w) -> ok r = false ->
              available = ["pop"; "rock"; "indie"]
              /\ s' = {| remote := w;
                         log := log s ++ [EvInvoke 1; EvFetch req (Resp r)] |})
        /\ (forall r w data,
              serve req (remote s) = (Resp r, w) -> ok r = true ->
              body r = Parsed data ->
              available = default ["pop"; "rock"; "indie"] (genres data)
              /\ s' = {| remote := w;
                         log := log s ++ [EvInvoke 1; EvFetch req (Resp r)] |})).
Proof.
  intros req. split.
  - intros Htoken. unfold getAvailableGenres. rewrite Htoken. reflexivity.
  - intros Htoken.
    destruct (attempt_getAvailableGenres accessToken Htoken s)
      as (available & s' & evs & Hrun & _ & _).
    assert (getAvailableGenres accessToken s = (Ok available, s')) as Hrun'.
    { revert Hrun. unfold attempt, tryCatch, bind, ret.
      destruct (getAvailableGenres accessToken s) as [[g|e|] s1]; congruence. }
    exists available, s'. split; [exact Hrun'|].
    assert (forall r w v,
              serve req (remote s) = (Resp r, w) ->
              (if negb (ok r) then ret defaultGenres
               else let* data := json r in ret (default defaultGenres (genres data)))
                {| remote := w; log := (log s ++ [EvInvoke 1]) ++ [EvFetch req (Resp r)] |}
              = (Ok v, {| remote := w;
                          log := (log s ++ [EvInvoke 1]) ++ [EvFetch req (Resp r)] |}) ->
              available = v
              /\ s' = {| remote := w;
                         log := log s ++ [EvInvoke 1; EvFetch req (Resp r)] |}) as Hfirst.
    { intros r w v Hserve Hrest. revert Hrun'.
      unfold getAvailableGenres. rewrite Htoken. cbn [negb].
      unfold requestQueue_add, retryableSpotifyCall, tryCatch at 1.
      match goal with
      | |- context [retryLoop ?op _ _ _ _ _ _] =>
          assert (op (record (EvInvoke 1) s)
                  = (Ok v, {| remote := w;
                              log := (log s ++ [EvInvoke 1]) ++ [EvFetch req (Resp r)] |}))
            as Hop
      end.
      { unfold bind at 1, fetch, record. cbn [remote log]. fold req.
        rewrite Hserve. exact Hrest. }
      rewrite (RetryFacts.retryLoop_ok _ _ _ _ _ _ _ _ v Hop).
      intros [= <- <-]. rewrite <- app_assoc. auto. }
    split.
    + intros r w Hserve Hok. apply (Hfirst r w defaultGenres Hserve).
      rewrite Hok. reflexivity.
    + intros r w data Hserve Hok Hbody. apply (Hfirst r w _ Hserve).
      rewrite Hok. cbn [negb]. unfold bind, json. rewrite Hbody. reflexivity.
Qed.

Lemma getAvailableGenres_falls_back_witness :
  let s := fresh [failing 403 "Forbidden"] in
  let req := {| endpoint := AvailableGenreSeeds; bearer := "token" |} in
  (Js.truthy "token" = false ->
   getAvailableGenres (H := scripted) "token" s
   = (Throw (Js.newError "No access token provided"), s))
  /\ (Js.truthy "token" = true ->
      exists available s',
        getAvailableGenres (H := scripted) "token" s = (Ok available, s')
        /\ (forall r w,
              serve (Remote := scripted) req (remote s) = (Resp r, w) -> ok r = false ->
              available = ["pop"; "rock"; "indie"]
              /\ s' = {| remote := w;
                         log := log s ++ [EvInvoke 1; EvFetch req (Resp r)] |})
        /\ (forall r w data,
              serve (Remote := scripted) req (remote s) = (Resp r, w) -> ok r = true ->
              body r = Parsed data ->
              available = default ["pop"; "rock"; "indie"] (genres data)
              /\ s' = {| remote := w;
                         log := log s ++ [EvInvoke 1; EvFetch req (Resp r)] |})).
Proof.
  intros s req.
  exact (getAvailableGenres_falls_back (H := scripted) "token" s).
Defined.

Example genres_after_refusal :
  getAvailableGenres (H := scripted) "token" (fresh [failing 403 "Forbidden"])
  = (Ok ["pop"; "rock"; "indie"],
     {| remote := [];
        log := [EvInvoke 1;
                EvFetch {| endpoint := AvailableGenreSeeds; bearer := "token" |}
                  (failing 403 "Forbidden")] |}).
Proof. reflexivity. Qed.

(** *** The requests of a cascade run *)

Section Requests.
Variable accessToken : string.
Variable seedTracks : list string.
Variable targetPopularity : Z.
Variable limit : nat.
Variable seedGenres : list string.

Abbreviation wellSeeded := (wellSeeded accessToken targetPopularity limit).

Lemma recommendationCount_app (a b : list Event) :
  recommendationCount (a ++ b) = recommendationCount a + recommendationCount b.
Proof. unfold recommendationCount. rewrite omap_app, length_app. reflexivity. Qed.

Lemma slice_length_le {T} (array : list T) (n : nat) : length (Arr.slice array 0 n) <= n.
Proof. unfold Arr.slice. rewrite length_take. lia. Qed.

Lemma slice_nonempty {T} (array : list T) (n : nat) :
  array <> [] -> 1 <= length (Arr.slice array 0 (S n)).
Proof. intros Hne. destruct array; [congruence|]. cbn. lia. Qed.

Lemma genreEvent_requests (genres : list string) (out : FetchOutcome) :
  genres <> [] ->
  wellSeeded (Trace.genreEvent accessToken targetPopularity limit genres out)
  /\ recommendationCount [Trace.genreEvent accessToken targetPopularity limit genres out] = 1.
Proof.
  intros Hne. split; [|reflexivity].
  unfold Trace.wellSeeded, Trace.genreEvent. cbn [endpoint bearer].
  repeat (split; [reflexivity|]). left. split; [reflexivity|].
  split; [apply (slice_nonempty genres 4 Hne)|apply slice_length_le].
Qed.

Lemma genre_miss_requests (gev : list Event) :
  Trace.GenreMiss accessToken targetPopularity limit seedGenres gev ->
  Forall wellSeeded gev /\ recommendationCount gev <= 1.
Proof.
  destruct 1 as [|out Hne Hout]; [split; [constructor|cbn; lia]|].
  destruct (genreEvent_requests seedGenres out Hne) as [Hw Hc].
  split; [constructor; [exact Hw|constructor]|rewrite Hc; lia].
Qed.

Lemma others_requests (aev : list Event) :
  Forall (fun ev => ~ isRecommendation ev) aev ->
  Forall wellSeeded aev /\ recommendationCount aev = 0.
Proof.
  induction 1 as [|ev aev Hev _ [IHw IHc]]; [split; [constructor|reflexivity]|].
  assert (wellSeeded ev /\ recommendationCount [ev] = 0) as [Hw Hc].
  { destruct ev as [req out| | |]; try (split; [exact I|reflexivity]).
    cbn in *. unfold recommendationCount. cbn. destruct (endpoint req); try tauto; auto. }
  split; [constructor; assumption|].
  change (ev :: aev) with ([ev] ++ aev). rewrite recommendationCount_app. lia.
Qed.

Lemma valid_prefix (n : nat) :
  Forall (fun id => validTrackId id = true) (Arr.slice (validSeeds seedTracks) 0 n).
Proof.
  unfold Arr.slice. apply Forall_take. cbn [drop].
  unfold validSeeds. apply Forall_forall. intros id Hin.
  apply list_elem_of_filter in Hin. tauto.
Qed.

Lemma trackEvent_requests (n : nat) (out : FetchOutcome) :
  validSeeds seedTracks <> [] -> S n <= 5 ->
  wellSeeded (Trace.trackEvent accessToken seedTracks targetPopularity limit (S n) out).
Proof.
  intros Hne Hn. unfold Trace.wellSeeded, Trace.trackEvent. cbn [endpoint bearer].
  repeat (split; [reflexivity|]). right. split; [reflexivity|]. split; [split|].
  - apply slice_nonempty, Hne.
  - pose proof (slice_length_le (validSeeds seedTracks) (S n)). lia.
  - apply valid_prefix.
Qed.

Lemma misses_requests (hi lo : nat) (evs : list Event) :
  Trace.Misses accessToken seedTracks targetPopularity limit hi lo evs ->
  validSeeds seedTracks <> [] -> hi <= 5 ->
  lo <= hi /\ Forall wellSeeded evs /\ recommendationCount evs = hi - lo.
Proof.
  intros Hmisses Hne. induction Hmisses as [i|i lo out rest Hout Hrest IH]; intros Hhi.
  - split; [lia|]. split; [constructor|]. rewrite Nat.sub_diag. reflexivity.
  - destruct (IH ltac:(lia)) as (Hle & Hw & Hc).
    split; [lia|]. split; [constructor; [apply trackEvent_requests; assumption|exact Hw]|].
    change (?e :: rest) with ([e] ++ rest). rewrite recommendationCount_app, Hc.
    cbn. lia.
Qed.

Lemma cascade_requests (evs : list Event) (ts : list Track) :
  Trace.Cascade accessToken seedTracks targetPopularity limit seedGenres evs ts ->
  Forall wellSeeded evs /\ recommendationCount evs <= 6.
Proof.
  destruct 1 as [| out ts Hg Hout | gev Hgev | gev aev Hgev ? ? Haev
                 | gev aev available out Hgev ? ? Haev Havail
                 | gev misses j out ts Hgev Hne Hmisses Hout
                 | gev misses Hgev Hne Hmisses];
    rewrite ?Forall_app, ?recommendationCount_app.
  - split; [constructor|cbn; lia].
  - destruct (genreEvent_requests seedGenres out Hg) as [Hw Hc].
    split; [constructor; [exact Hw|constructor]|rewrite Hc; lia].
  - destruct (genre_miss_requests gev Hgev). split; [assumption|lia].
  - destruct (genre_miss_requests gev Hgev). destruct (others_requests aev Haev).
    split; [auto|lia].
  - destruct (genre_miss_requests gev Hgev). destruct (others_requests aev Haev).
    destruct (genreEvent_requests (Arr.slice available 0 3) out) as [Hw Hc].
    { destruct available; [congruence|discriminate]. }
    split; [repeat split; auto|lia].
  - destruct (genre_miss_requests gev Hgev).
    destruct (misses_requests _ _ _ Hmisses Hne ltac:(lia)) as (Hle & Hw & Hc).
    split.
    + repeat split; auto. constructor; [|constructor]. apply trackEvent_requests; [exact Hne|lia].
    + change (recommendationCount [?e]) with 1. lia.
  - destruct (genre_miss_requests gev Hgev).
    destruct (misses_requests _ _ _ Hmisses Hne ltac:(lia)) as (Hle & Hw & Hc).
    split; [auto|lia].
Qed.

End Requests.

(** X11.  Every request [getRecommendations] sends to the
    recommendations endpoint carries the caller's token, target
    popularity and limit and between one and five seeds of a single
    kind (genres, or track identifiers that passed the shape check),
    and a call sends at most six such requests.  Without a token it
    throws before any request. *)
Theorem getRecommendations_requests {W : Type} `{Remote W}
    (accessToken : string) (seedTracks : list string) (targetPopularity : Z)
    (limit : nat) (seedGenres : list string)
    (s : Sys W) (r : Res (list Track)) (s' : Sys W) :
  getRecommendations accessToken seedTracks targetPopularity limit seedGenres s = (r, s') ->
  (Js.truthy accessToken = false ->
   r = Throw (Js.newError "No access token provided") /\ s' = s)
  /\ (Js.truthy accessToken = true ->
      exists evs,
        log s' = log s ++ evs
        /\ Forall (wellSeeded accessToken targetPopularity limit) evs
        /\ recommendationCount evs <= 6).
Proof.
  intros Hrun. split.
  - intros Htoken. revert Hrun. unfold getRecommendations. cbn [getRecommendations_fuel].
    rewrite Htoken. cbn. intros [= <- <-]. auto.
  - intros Htoken.
    destruct (getRecommendations_run _ _ _ _ _ Htoken _ _ _ Hrun) as (ts & evs & -> & Hlog & Hcas).
    exists evs. split; [exact Hlog|]. eapply cascade_requests. exact Hcas.
Qed.

Lemma getRecommendations_requests_witness :
  let s := fresh [failing 503 "Service Unavailable"; okTracks [someTrack]] in
  let run := getRecommendations (H := scripted) "token" threeSeeds 50 20 [] s in
  (Js.truthy "token" = false ->
   fst run = Throw (Js.newError "No access token provided") /\ snd run = s)
  /\ (Js.truthy "token" = true ->
      exists evs,
        log (snd run) = log s ++ evs
        /\ Forall (wellSeeded "token" 50 20) evs
        /\ recommendationCount evs <= 6).
Proof.
  intros s run.
  apply (getRecommendations_requests (H := scripted) "token" threeSeeds 50 20 [] s).
  vm_compute. reflexivity.
Defined.
End RecFacts.

(** ** The recommendations page *)

Module PageFacts.
Import Http Eff Spotify Trace RecsPage Fixtures.

Lemma append_inj_r (p a b : string) : p +:+ a = p +:+ b -> a = b.
Proof. induction p as [|c p IH]; simpl; [tauto|]. intros [= Heq]. auto. Qed.

Lemma startsWith_inv (p s : string) :
  Js.startsWith s p = true -> exists rest, s = p +:+ rest.
Proof.
  unfold Js.startsWith. rewrite String.prefix_correct. revert s.
  induction p as [|c p IH]; intros s; [exists s; reflexivity|].
  destruct s as [|c' s]; simpl; [discriminate|].
  intros [= -> Hsub]. destruct (IH s Hsub) as [rest ->]. exists rest. reflexivity.
Qed.

(** The hyphen of the marker is not a character of a track identifier. *)
Lemma placeholder_id_invalid (rest : string) :
  validTrackId ("fallback-" +:+ rest) = false.
Proof.
  unfold validTrackId. apply andb_false_iff. right. reflexivity.
Qed.

(** The page's test recognises a list of placeholders that is not empty. *)
Lemma looksLikeFallback_placeholders (limit : nat) :
  looksLikeFallback (createFallbackRecommendations limit) = (0 <? limit).
Proof.
  unfold createFallbackRecommendations. destruct limit as [|limit]; [reflexivity|].
  cbn [seq map looksLikeFallback id]. apply RecFacts.startsWith_append.
Qed.

(** X12.  The placeholder tracks and real tracks are told apart: the
    placeholders have pairwise distinct identifiers, none of which has the
    shape of a track identifier; the page's test on the first track
    recognises a list of placeholders exactly when it is not empty, and
    never takes a list that starts with a well-shaped identifier for
    placeholders. *)
Theorem placeholders_recognised (limit : nat) :
  let placeholders := createFallbackRecommendations limit in
  NoDup (map id placeholders)
  /\ Forall (fun t => validTrackId (id t) = false) placeholders
  /\ looksLikeFallback placeholders = (0 <? limit)
  /\ (forall first rest,
        validTrackId (id first) = true -> looksLikeFallback (first :: rest) = false).
Proof.
  cbn zeta. unfold createFallbackRecommendations. repeat split.
  - rewrite map_map. cbn [id].
    assert (Inj (=) (=) (fun index : nat => "fallback-" +:+ pretty index)) as Hinj.
    { intros i j Heq. apply append_inj_r in Heq. apply (inj pretty). exact Heq. }
    apply (NoDup_fmap_2 _), NoDup_seq.
  - apply Forall_map, Forall_forall. intros index _. cbn [id].
    apply placeholder_id_invalid.
  - apply looksLikeFallback_placeholders.
  - intros first rest Hvalid. cbn [looksLikeFallback].
    destruct (Js.startsWith (id first) "fallback-") eqn:Hmark; [|reflexivity].
    apply startsWith_inv in Hmark. destruct Hmark as [tail Hid].
    rewrite Hid, placeholder_id_invalid in Hvalid. discriminate.
Qed.

Lemma placeholders_recognised_witness :
  looksLikeFallback (someTrack :: createFallbackRecommendations 2) = false.
Proof.
  apply (placeholders_recognised 2). reflexivity.
Defined.

(** *** [tryWithGenres] *)

(** X13.  With a token and at least one genre, [tryWithGenres] sends one
    request, seeded with the first five of the genres, and does not throw.
    If the request yields a list, the view shows that list, even when it
    is empty, and then without a warning; if it yields none, the view
    shows twenty placeholders, flagged, with the error message. *)
Theorem tryWithGenres_outcome {W : Type} `{Remote W}
    (token : string) (obscurityLevel : Z) (genres : list string)
    (view : View) (s : Sys W) :
  Js.truthy token = true -> genres <> [] ->
  let req := {| endpoint := Recommendations (Arr.slice genres 0 5) [] (100 - obscurityLevel) 20;
                bearer := token |} in
  let out := fst (serve req (remote s)) in
  exists view',
    tryWithGenres (Some token) obscurityLevel genres view s
    = (Ok view',
       {| remote := snd (serve req (remote s)); log := log s ++ [EvFetch req out] |})
    /\ match recResult out with
       | Some ts =>
           recommendations view' = ts
           /\ usingFallback view' = looksLikeFallback ts
           /\ (ts = [] -> usingFallback view' = false /\ error view' = None)
       | None =>
           recommendations view' = createFallbackRecommendations 20
           /\ usingFallback view' = true
           /\ error view'
              = Some ("Couldn't get recommendations with these genres: "
                      +:+ String.concat ", " genres)
       end.
Proof.
  intros Htoken Hne req out.
  unfold tryWithGenres. rewrite Htoken. cbn [negb orb].
  destruct (Nat.eqb_spec (length genres) 0) as [Hlen|_];
    [apply nil_length_inv in Hlen; congruence|].
  unfold tryCatch, bind, getRecommendations.
  rewrite (RecFacts.genres_only token (100 - obscurityLevel) 20 Htoken _ genres s Hne).
  fold req. fold out.
  destruct (recResult out) as [ts|]; cbn [default from_option Datatypes.id].
  - destruct (looksLikeFallback ts) eqn:Hfb; unfold ret; eexists; (split; [reflexivity|]);
      cbn [recommendations usingFallback error];
      (split; [reflexivity|split; [reflexivity|]]).
    + intros ->. discriminate.
    + auto.
  - rewrite (looksLikeFallback_placeholders 20). cbn [Nat.ltb Nat.leb]. unfold ret. eexists. split; [reflexivity|].
    cbn [recommendations usingFallback error]. auto.
Qed.

Lemma tryWithGenres_outcome_witness :
  let s := fresh [okTracks []] in
  let req := {| endpoint := Recommendations (Arr.slice ["ambient"] 0 5) [] (100 - 70) 20;
                bearer := "token" |} in
  let out := fst (serve (Remote := scripted) req (remote s)) in
  let view := {| recommendations := []; error := None; usingFallback := false |} in
  exists view',
    tryWithGenres (H := scripted) (Some "token") 70 ["ambient"] view s
    = (Ok view',
       {| remote := snd (serve (Remote := scripted) req (remote s));
          log := log s ++ [EvFetch req out] |})
    /\ match recResult out with
       | Some ts =>
           recommendations view' = ts
           /\ usingFallback view' = looksLikeFallback ts
           /\ (ts = [] -> usingFallback view' = false /\ error view' = None)
       | None =>
           recommendations view' = createFallbackRecommendations 20
           /\ usingFallback view' = true
           /\ error view'
              = Some ("Couldn't get recommendations with these genres: "
                      +:+ String.concat ", " ["ambient"])
       end.
Proof.
  intros s req out view.
  apply (tryWithGenres_outcome (H := scripted) "token" 70 ["ambient"] view s).
  - reflexivity.
  - discriminate.
Defined.


(** *** The genre loop of [fetchRecommendations] *)

Lemma genresToTry_shape (availableGenres : list string) :
  length (genresToTry availableGenres) <= 4
  /\ Forall (fun genreCombo =>
               1 <= length genreCombo <= 3
               /\ Forall (fun g => g ∈ availableGenres) genreCombo)
       (genresToTry availableGenres).
Proof.
  unfold genresToTry. split.
  - etransitivity; [apply length_filter|]. cbn. lia.
  - apply Forall_forall. intros genreCombo Hin.
    apply list_elem_of_filter in Hin. destruct Hin as [Hpos Hin].
    split.
    + split; [lia|].
      repeat (apply elem_of_cons in Hin; destruct Hin as [->|Hin];
              [etransitivity; [apply length_filter|]; cbn; lia|]).
      apply elem_of_cons in Hin. destruct Hin as [->|Hin]; [|inversion Hin].
      unfold Arr.slice. rewrite length_take. lia.
    + apply Forall_forall. intros g Hg.
      repeat (apply elem_of_cons in Hin; destruct Hin as [->|Hin];
              [apply list_elem_of_filter in Hg; tauto|]).
      apply elem_of_cons in Hin. destruct Hin as [->|Hin]; [|inversion Hin].
      unfold Arr.slice in Hg. apply subseteq_take in Hg. exact Hg.
Qed.

Lemma accepted_nonempty (response : Response) (ts : list Track) :
  accepted response = Some ts -> ts <> [].
Proof.
  unfold accepted. destruct (body response) as [data|]; [|discriminate].
  destruct (ok response); [|discriminate].
  destruct (tracks data) as [l|]; [|discriminate].
  destruct l; cbn; [discriminate|]. intros [= <-]. discriminate.
Qed.

Section GenreLoop.
Context {W : Type} `{Remote W}.
Variable accessToken : string.
Variable obscurityLevel : Z.

Abbreviation genreLoop := (genreLoop (W := W) accessToken obscurityLevel).
Abbreviation genreRequest := (genreRequest accessToken obscurityLevel).

Lemma genreLoop_spec (combos : list (list string)) (s : Sys W)
    (r : Res (option (list Track))) (s' : Sys W) :
  genreLoop combos s = (r, s') ->
  exists evs,
    log s' = log s ++ evs
    /\ length (requestsOf evs) <= length combos
    /\ Forall (fun req => exists genreCombo,
                 genreCombo ∈ combos /\ req = genreRequest genreCombo)
         (requestsOf evs)
    /\ Forall (fun ms => ms = Js.Int 500) (RetryTrace.delaysOf evs)
    /\ match r with
       | Ok (Some ts) =>
           ts <> []
           /\ (exists req response,
                 last evs = Some (EvFetch req (Resp response))
                 /\ accepted response = Some ts)
           /\ S (length (RetryTrace.delaysOf evs)) = length (requestsOf evs)
       | Ok None =>
           length (requestsOf evs) = length combos
           /\ length (RetryTrace.delaysOf evs) = length combos
       | Throw e => exists req, last evs = Some (EvFetch req (NetErr e))
       | Hang => False
       end.
Proof.
  revert s. induction combos as [|genreCombo rest IH]; intros s.
  - cbn. intros [= <- <-]. exists []. rewrite app_nil_r.
    repeat split; cbn; auto.
  - cbn [RecsPage.genreLoop]. unfold bind at 1. unfold fetch.
    destruct (serve (genreRequest genreCombo) (remote s)) as [[e|response] w].
    + intros [= <- <-]. exists [EvFetch (genreRequest genreCombo) (NetErr e)].
      cbn. repeat split; auto; [lia| |eauto].
      repeat constructor. exists genreCombo. split; [left|reflexivity].
    + destruct (accepted response) as [ts|] eqn:Hacc.
      * intros [= <- <-]. exists [EvFetch (genreRequest genreCombo) (Resp response)].
        cbn. repeat split; auto; [lia| |eapply accepted_nonempty; eauto|eauto].
        repeat constructor. exists genreCombo. split; [left|reflexivity].
      * unfold bind, delay, emit, record. cbn [remote log]. intros Hrun.
        destruct (IH _ Hrun) as (evs & Hlog & Hlen & Hreqs & Hms & Hres).
        cbn [log] in Hlog.
        exists (EvFetch (genreRequest genreCombo) (Resp response)
                  :: EvDelay (Js.Int 500) :: evs).
        split; [rewrite Hlog, <- !app_assoc; reflexivity|].
        change (requestsOf (_ :: _ :: evs))
          with (genreRequest genreCombo :: requestsOf evs).
        change (RetryTrace.delaysOf (_ :: _ :: evs))
          with (Js.Int 500 :: RetryTrace.delaysOf evs).
        cbn [length].
        split; [lia|]. split.
        { constructor; [exists genreCombo; split; [left|reflexivity]|].
          eapply Forall_impl; [exact Hreqs|].
          intros req (c & Hc & ->). exists c. split; [right; exact Hc|reflexivity]. }
        split; [constructor; [reflexivity|exact Hms]|].
        destruct r as [[ts|]|e|]; auto.
        -- destruct Hres as (Hne & (req & resp & Hlast & Hok) & Hcount).
           split; [exact Hne|]. split; [|lia].
           exists req, resp. rewrite !last_cons, Hlast. auto.
        -- lia.
        -- destruct Hres as (req & Hlast). exists req. rewrite !last_cons, Hlast. auto.
Qed.

End GenreLoop.

(** X14.  The genre loop of [fetchRecommendations], run on the
    combinations built from the advertised genres: it sends at most four
    requests, each with the token, a limit of twenty, a target popularity
    between 0 and 100 and one to three advertised genres, and pauses 500 ms
    after each request that is not accepted.  A list it returns is never
    empty and is read from an ok response to the last request; it returns
    none only after every combination was tried; it throws only what a
    request was rejected with. *)
Theorem genre_loop_requests {W : Type} `{Remote W}
    (accessToken : string) (obscurityLevel : Z) (availableGenres : list string)
    (s : Sys W) (r : Res (option (list Track))) (s' : Sys W) :
  RecsPage.genreLoop accessToken obscurityLevel (genresToTry availableGenres) s = (r, s') ->
  exists evs,
    log s' = log s ++ evs
    /\ length (requestsOf evs) <= 4
    /\ Forall (genreLoopRequest accessToken availableGenres) (requestsOf evs)
    /\ Forall (fun ms => ms = Js.Int 500) (RetryTrace.delaysOf evs)
    /\ match r with
       | Ok (Some ts) =>
           ts <> []
           /\ (exists req response,
                 last evs = Some (EvFetch req (Resp response))
                 /\ ok response = true
                 /\ exists data, body response = Parsed data /\ tracks data = Some ts)
           /\ S (length (RetryTrace.delaysOf evs)) = length (requestsOf evs)
       | Ok None =>
           length (requestsOf evs) = length (genresToTry availableGenres)
           /\ length (RetryTrace.delaysOf evs) = length (requestsOf evs)
       | Throw e => exists req, last evs = Some (EvFetch req (NetErr e))
       | Hang => False
       end.
Proof.
  intros Hrun.
  destruct (genreLoop_spec _ _ _ _ _ _ Hrun) as (evs & Hlog & Hlen & Hreqs & Hms & Hres).
  destruct (genresToTry_shape availableGenres) as [Hfour Hshape].
  exists evs. split; [exact Hlog|]. split; [lia|]. split; [|split; [exact Hms|]].
  - eapply Forall_impl; [exact Hreqs|]. intros req (genreCombo & Hin & ->).
    rewrite Forall_forall in Hshape. destruct (Hshape _ Hin) as [Hsize Hadv].
    split; [reflexivity|]. exists genreCombo, (clampedPopularity obscurityLevel).
    split; [reflexivity|]. split; [unfold clampedPopularity; lia|]. auto.
  - destruct r as [[ts|]|e|]; auto.
    + destruct Hres as (Hne & (req & response & Hlast & Hacc) & Hcount).
      split; [exact Hne|]. split; [|exact Hcount].
      exists req, response. split; [exact Hlast|].
      unfold accepted in Hacc. destruct (body response) as [data|]; [|discriminate].
      destruct (ok response); [|discriminate]. split; [reflexivity|].
      exists data. split; [reflexivity|].
      destruct (tracks data) as [l|]; [|discriminate].
      destruct (0 <? length l); congruence.
    + destruct Hres as [Hall Hpauses]. split; [exact Hall|lia].
Qed.

Lemma genre_loop_requests_witness :
  let s := fresh [okTracks []; failing 429 "Too Many Requests"; okTracks [someTrack]] in
  let run := RecsPage.genreLoop (H := scripted) "token" 130
               (genresToTry ["indie"; "dance"; "pop"; "ambient"]) s in
  exists evs,
    log (snd run) = log s ++ evs
    /\ length (requestsOf evs) <= 4
    /\ Forall (genreLoopRequest "token" ["indie"; "dance"; "pop"; "ambient"]) (requestsOf evs)
    /\ Forall (fun ms => ms = Js.Int 500) (RetryTrace.delaysOf evs)
    /\ match fst run with
       | Ok (Some ts) =>
           ts <> []
           /\ (exists req response,
                 last evs = Some (EvFetch req (Resp response))
                 /\ ok response = true
                 /\ exists data, body response = Parsed data /\ tracks data = Some ts)
           /\ S (length (RetryTrace.delaysOf evs)) = length (requestsOf evs)
       | Ok None =>
           length (requestsOf evs)
           = length (genresToTry ["indie"; "dance"; "pop"; "ambient"])
           /\ length (RetryTrace.delaysOf evs) = length (requestsOf evs)
       | Throw e => exists req, last evs = Some (EvFetch req (NetErr e))
       | Hang => False
       end.
Proof.
  intros s run.
  apply (genre_loop_requests (H := scripted) "token" 130
           ["indie"; "dance"; "pop"; "ambient"] s).
  vm_compute. reflexivity.
Defined.

(** The third combination is the first whose answer has tracks: three
    requests, two pauses, and the list of the third answer. *)
Example genre_loop_third_wins :
  let s := fresh [okTracks []; failing 429 "Too Many Requests"; okTracks [someTrack]] in
  let run := RecsPage.genreLoop (H := scripted) "token" 130
               (genresToTry ["indie"; "dance"; "pop"; "ambient"]) s in
  fst run = Ok (Some [someTrack])
  /\ map endpoint (requestsOf (log (snd run)))
     = [ Recommendations ["pop"; "indie"] [] 0 20;
         Recommendations ["dance"] [] 0 20;
         Recommendations ["indie"; "pop"] [] 0 20 ]
  /\ RetryTrace.delaysOf (log (snd run)) = [Js.Int 500; Js.Int 500].
Proof. vm_compute. auto. Qed.

(** *** The track loop of [fetchRecommendations] *)

Lemma trackCombosToTry_head (validSeedTracks : list string) :
  exists rest,
    trackCombosToTry validSeedTracks = [head validSeedTracks] :: rest
    /\ length rest <= 3
    /\ (validSeedTracks = [] -> rest = [])
    /\ Forall (fun combo => exists k, 0 < k /\ combo = map Some (take k validSeedTracks)) rest.
Proof.
  unfold trackCombosToTry. rewrite filter_cons_True by (cbn; lia).
  eexists. split; [reflexivity|]. split; [|split].
  - etransitivity; [apply length_filter|]. cbn. lia.
  - intros ->. reflexivity.
  - apply Forall_forall. intros combo Hin.
    apply list_elem_of_filter in Hin. destruct Hin as [Hpos Hin].
    unfold Arr.slice in Hin. cbn [drop Nat.sub] in Hin.
    repeat (apply elem_of_cons in Hin; destruct Hin as [->|Hin]).
    + exists 2. split; [lia|reflexivity].
    + exists 3. split; [lia|reflexivity].
    + exists (length validSeedTracks). rewrite firstn_all. split; [|reflexivity].
      rewrite length_map in Hpos. exact Hpos.
    + inversion Hin.
Qed.

Section TrackLoop.
Context {W : Type} `{Remote W}.
Variable accessToken : string.
Variable obscurityLevel : Z.

Abbreviation trackLoop := (trackLoop (W := W) accessToken obscurityLevel).
Abbreviation trackRequest := (trackRequest accessToken obscurityLevel).

Lemma trackLoop_spec (combos : list (list (option string))) (s : Sys W)
    (r : Res (option (list Track))) (s' : Sys W) :
  trackLoop combos s = (r, s') ->
  r <> Hang
  /\ exists evs,
       log s' = log s ++ evs
       /\ requestsOf evs = map trackRequest (take (length (requestsOf evs)) combos)
       /\ (forall ts, r = Ok (Some ts) -> ts <> [])
       /\ (r = Ok None -> length (requestsOf evs) = length combos).
Proof.
  revert s. induction combos as [|trackCombo rest IH]; intros s.
  - cbn. intros [= <- <-]. split; [discriminate|]. exists []. rewrite app_nil_r.
    repeat split; auto; try discriminate.
  - cbn [RecsPage.trackLoop]. unfold bind at 1. unfold fetch.
    destruct (serve (trackRequest trackCombo) (remote s)) as [[e|response] w].
    + intros [= <- <-]. split; [discriminate|].
      exists [EvFetch (trackRequest trackCombo) (NetErr e)].
      repeat split; auto; try discriminate.
    + destruct (accepted response) as [ts|] eqn:Hacc.
      * intros [= <- <-]. split; [discriminate|].
        exists [EvFetch (trackRequest trackCombo) (Resp response)].
        split; [reflexivity|]. split; [reflexivity|]. split; [|discriminate].
        intros ? [= <-]. eapply accepted_nonempty; eauto.
      * unfold bind, delay, emit, record. cbn [remote log]. intros Hrun.
        destruct (IH _ Hrun) as (Hne & evs & Hlog & Hreqs & Hsome & Hnone).
        cbn [log] in Hlog. split; [exact Hne|].
        exists (EvFetch (trackRequest trackCombo) (Resp response)
                  :: EvDelay (Js.Int 500) :: evs).
        split; [rewrite Hlog, <- !app_assoc; reflexivity|].
        change (requestsOf (_ :: _ :: evs))
          with (trackRequest trackCombo :: requestsOf evs).
        cbn [length take map]. split; [rewrite <- Hreqs; reflexivity|].
        split; [exact Hsome|]. intros Hr. rewrite (Hnone Hr). reflexivity.
Qed.

End TrackLoop.

(** X23.  The track loop of [fetchRecommendations] always sends a
    request, also when no seed track passed the validation: the first
    combination is [[validSeedTracks[0]]], which is not empty even when
    its element is [undefined], and the request then goes out with an
    empty seed.  In all the loop sends between one and four requests, for
    the combinations in their order, and a list it returns is never empty.
    With no valid seed track the request with the empty seed is the only
    one. *)
Theorem track_loop_requests {W : Type} `{Remote W}
    (accessToken : string) (obscurityLevel : Z) (validSeedTracks : list string)
    (s : Sys W) (r : Res (option (list Track))) (s' : Sys W) :
  RecsPage.trackLoop accessToken obscurityLevel (trackCombosToTry validSeedTracks) s
  = (r, s') ->
  r <> Hang
  /\ exists evs,
       log s' = log s ++ evs
       /\ 1 <= length (requestsOf evs) <= 4
       /\ requestsOf evs
          = map (RecsPage.trackRequest accessToken obscurityLevel)
              (take (length (requestsOf evs)) (trackCombosToTry validSeedTracks))
       /\ head (requestsOf evs)
          = Some {| endpoint := Recommendations [] [default ""%string (head validSeedTracks)]
                                  (clampedPopularity obscurityLevel) 20;
                    bearer := accessToken |}
       /\ (validSeedTracks = [] -> length (requestsOf evs) = 1)
       /\ (forall ts, r = Ok (Some ts) -> ts <> []).
Proof.
  intros Hrun.
  destruct (trackCombosToTry_head validSeedTracks) as (rest & Hcombos & Hrest & Hnil & _).
  destruct (trackLoop_spec _ _ _ _ _ _ Hrun) as (Hne & evs & Hlog & Hreqs & Hsome & _).
  split; [exact Hne|]. exists evs. split; [exact Hlog|].
  assert (exists req reqs, requestsOf evs = req :: reqs) as (req & reqs & Hcons).
  { revert Hrun. rewrite Hcombos. cbn [RecsPage.trackLoop]. unfold bind at 1. unfold fetch.
    destruct (serve _ (remote s)) as [[e|response] w].
    - intros [= <- <-]. cbn [log] in Hlog. apply app_inv_head in Hlog. subst evs.
      eexists _, _. reflexivity.
    - destruct (accepted response).
      + intros [= <- <-]. cbn [log] in Hlog. apply app_inv_head in Hlog. subst evs.
        eexists _, _. reflexivity.
      + unfold bind, delay, emit, record. cbn [remote log]. intros Hrest'.
        destruct (trackLoop_spec _ _ _ _ _ _ Hrest') as (_ & evs' & Hlog' & _).
        cbn [log] in Hlog'. rewrite Hlog, <- !app_assoc in Hlog'.
        apply app_inv_head in Hlog'. subst evs. eexists _, _. reflexivity. }
  assert (length (requestsOf evs) <= length (trackCombosToTry validSeedTracks)) as Hle.
  { rewrite Hreqs at 1. rewrite length_map, length_take. lia. }
  rewrite Hcombos in Hle. cbn [length] in Hle.
  split; [rewrite Hcons in *; cbn [length] in *; lia|].
  split; [exact Hreqs|]. split; [|split; [|exact Hsome]].
  - rewrite Hreqs, Hcombos, Hcons. reflexivity.
  - intros Hempty. rewrite (Hnil Hempty) in Hle. cbn [length] in Hle.
    rewrite Hcons in *. cbn [length] in *. lia.
Qed.

Lemma track_loop_requests_witness :
  let s := fresh [okTracks []] in
  let run := RecsPage.trackLoop (H := scripted) "token" 40 (trackCombosToTry []) s in
  fst run <> Hang
  /\ exists evs,
       log (snd run) = log s ++ evs
       /\ 1 <= length (requestsOf evs) <= 4
       /\ requestsOf evs
          = map (RecsPage.trackRequest "token" 40)
              (take (length (requestsOf evs)) (trackCombosToTry []))
       /\ head (requestsOf evs)
          = Some {| endpoint := Recommendations [] [default ""%string (head [])]
                                  (clampedPopularity 40) 20;
                    bearer := "token" |}
       /\ (@nil string = [] -> length (requestsOf evs) = 1)
       /\ (forall ts, fst run = Ok (Some ts) -> ts <> []).
Proof.
  intros s run.
  apply (track_loop_requests (H := scripted) "token" 40 [] s).
  vm_compute. reflexivity.
Defined.
End PageFacts.

(** ** Audio features *)

Module FeatureFacts.
Import Http Eff Spotify Trace Fixtures EffFacts.

Section WithRemote.
Context {W : Type} `{Remote W}.
Variable accessToken : string.
Variable trackIds : list string.

Lemma fetchChunkFeatures_behaves (chunks : list (list string)) (chunk : list string) :
  chunk ∈ chunks ->
  behaves (chunkRequest chunks) (fetchChunkFeatures accessToken chunk).
Proof.
  intros Hin. unfold fetchChunkFeatures. apply behaves_bind.
  - apply behaves_fetch. intros out. exists chunk. auto.
  - intros response. destruct (ok response); cbn [negb].
    + apply behaves_bind; [apply behaves_json|intros data; apply behaves_ret].
    + destruct (status response =? 403)%Z; apply behaves_throw.
Qed.

Abbreviation chunkBody := (chunkBody accessToken trackIds).

Lemma chunkBody_behaves (chunks : list (list string)) (chunkCount : nat)
    (chunk : list string) (allFeatures : list AudioFeatures) (hasError : bool) :
  chunk ∈ chunks -> chunk <> [] ->
  behaves (chunkRequest chunks) (chunkBody chunkCount chunk allFeatures hasError).
Proof.
  intros Hin Hne. unfold chunkBody. apply behaves_bind.
  - apply behaves_fetch. intros out. exists chunk. split; [exact Hin|]. right.
    destruct chunk; [congruence|reflexivity].
  - intros testResponse. destruct (status testResponse =? 403)%Z; [apply behaves_ret|].
    apply behaves_bind.
    + unfold requestQueue_add.
      apply RetryFacts.behaves_retryableSpotifyCall; try (intros; exact I).
      apply fetchChunkFeatures_behaves, Hin.
    + intros [fs|]; [|apply behaves_throw].
      apply behaves_bind; [|intros _; apply behaves_ret].
      destruct (1 <? chunkCount); [apply behaves_delay; exact I|apply behaves_ret].
Qed.

(** What the [try] block can return. *)
Lemma chunkBody_returns (chunkCount : nat) (chunk : list string)
    (allFeatures : list AudioFeatures) (hasError : bool)
    (s : Sys W) (step : ChunkStep) (s' : Sys W) :
  chunkBody chunkCount chunk allFeatures hasError s = (Ok step, s') ->
  step = Return (fallbackFeatures trackIds)
  \/ exists fs, step = Continue (allFeatures ++ fs) hasError.
Proof.
  unfold chunkBody, bind.
  destruct (fetch _ s) as [[testResponse|e|] s1]; try discriminate.
  destruct (status testResponse =? 403)%Z.
  { intros [= <- _]. left. reflexivity. }
  destruct (requestQueue_add _ s1) as [[[fs|]|e|] s2]; try discriminate.
  destruct (1 <? chunkCount); cbn; intros [= <- _]; right; exists fs; reflexivity.
Qed.

Lemma processChunk_unfold (chunkCount : nat) (chunk : list string)
    (allFeatures : list AudioFeatures) (hasError : bool) :
  processChunk accessToken trackIds chunkCount chunk allFeatures hasError
  = tryCatch (chunkBody chunkCount chunk allFeatures hasError)
      (fun error =>
         if isForbidden error then ret (Return (fallbackFeatures trackIds))
         else ret (Continue allFeatures true)).
Proof. reflexivity. Qed.


(** One iteration always completes: it returns the defaults, or goes on
    with the features gathered so far, possibly extended. *)
Lemma processChunk_spec (chunks : list (list string)) (chunkCount : nat)
    (chunk : list string) (allFeatures : list AudioFeatures) (hasError : bool)
    (s : Sys W) :
  chunk ∈ chunks -> chunk <> [] ->
  exists step s' evs,
    processChunk accessToken trackIds chunkCount chunk allFeatures hasError s = (Ok step, s')
    /\ log s' = log s ++ evs
    /\ Forall (chunkRequest chunks) evs
    /\ (step = Return (fallbackFeatures trackIds)
        \/ exists fs hasError', step = Continue (allFeatures ++ fs) hasError').
Proof.
  intros Hin Hne. rewrite processChunk_unfold. unfold tryCatch.
  destruct (chunkBody chunkCount chunk allFeatures hasError s) as [r s1] eqn:Hbody.
  destruct (chunkBody_behaves chunks chunkCount chunk allFeatures hasError Hin Hne _ _ _ Hbody)
    as (Hhang & evs & Hlog & Hall).
  destruct r as [step|error|]; [| |congruence].
  - exists step, s1, evs. repeat split; try assumption.
    destruct (chunkBody_returns _ _ _ _ _ _ _ Hbody) as [->|[fs ->]]; eauto.
  - destruct (isForbidden error).
    + eexists _, s1, evs. repeat split; try eassumption. left. reflexivity.
    + eexists _, s1, evs. repeat split; try eassumption. right.
      exists [], true. rewrite app_nil_r. reflexivity.
Qed.

(** The loop always completes. *)
Lemma chunkLoop_spec (chunks : list (list string)) (chunkCount : nat)
    (rest : list (list string)) :
  forall allFeatures hasError s,
    rest ⊆ chunks -> Forall (fun c => c <> []) rest ->
    exists step s' evs,
      chunkLoop accessToken trackIds chunkCount rest allFeatures hasError s = (Ok step, s')
      /\ log s' = log s ++ evs
      /\ Forall (chunkRequest chunks) evs
      /\ (step = Return (fallbackFeatures trackIds)
          \/ exists fs hasError', step = Continue (allFeatures ++ fs) hasError').
Proof.
  induction rest as [|chunk rest IH]; intros allFeatures hasError s Hsub Hne.
  - exists (Continue allFeatures hasError), s, []. rewrite app_nil_r.
    repeat split; [constructor|]. right. exists [], hasError. rewrite app_nil_r. reflexivity.
  - cbn [chunkLoop]. unfold bind at 1.
    destruct (processChunk_spec chunks chunkCount chunk allFeatures hasError s)
      as (step & s1 & evs1 & -> & Hlog1 & Hall1 & Hstep).
    { apply Hsub. left. }
    { apply Forall_cons_1 in Hne. tauto. }
    destruct Hstep as [->|(fs1 & hasError1 & ->)].
    + eexists _, s1, evs1. repeat split; try eassumption. left. reflexivity.
    + destruct (IH (allFeatures ++ fs1) hasError1 s1)
        as (step & s2 & evs2 & -> & Hlog2 & Hall2 & Hstep).
      { intros c Hc. apply Hsub. right. exact Hc. }
      { apply Forall_cons_1 in Hne. tauto. }
      exists step, s2, (evs1 ++ evs2). split; [reflexivity|].
      split; [rewrite Hlog2, Hlog1, app_assoc; reflexivity|].
      split; [apply Forall_app; auto|].
      destruct Hstep as [->|(fs2 & hasError2 & ->)]; [left; reflexivity|].
      right. exists (fs1 ++ fs2), hasError2. rewrite app_assoc. reflexivity.
Qed.

End WithRemote.




Lemma chunk_request_size (chunks : list (list string)) (ev : Event) :
  Forall (fun c => 0 < length c <= 100) chunks ->
  chunkRequest chunks ev ->
  forall ids, featureIds ev = Some ids -> 0 < length ids <= 100.
Proof.
  intros Hsize Hreq ids Hids. destruct ev as [req out| | |]; try discriminate.
  destruct Hreq as (chunk & Hin & Hend). rewrite Forall_forall in Hsize.
  specialize (Hsize _ Hin). simpl in Hids.
  destruct Hend as [Hend|Hend]; rewrite Hend in Hids; injection Hids as <-; [exact Hsize|].
  rewrite length_take. lia.
Qed.

(** C7.  Whatever the list of identifiers: [chunkArray] cuts it into
    consecutive chunks of at most 100 (and at least 1) identifiers whose
    concatenation is the list, and every request [getTrackFeatures] makes
    asks the audio-features endpoint about one of these chunks (the whole
    chunk, or its first identifier for the access test); so no request
    carries more than 100 identifiers. *)
Theorem feature_requests_are_chunks {W : Type} `{Remote W}
    (env : option string) (accessToken : string) (trackIds : list string)
    (s : Sys W) (r : Res (list AudioFeatures)) (s' : Sys W) :
  getTrackFeatures env accessToken trackIds s = (r, s') ->
  exists chunks evs,
    Arr.chunkArray trackIds 100 = Some chunks
    /\ concat chunks = trackIds
    /\ Forall (fun c => 0 < length c <= 100) chunks
    /\ log s' = log s ++ evs
    /\ Forall (chunkRequest chunks) evs
    /\ Forall (fun ev => forall ids, featureIds ev = Some ids -> 0 < length ids <= 100) evs.
Proof.
  intros Hrun.
  destruct (ArrFacts.chunkArray_partition 100 trackIds ltac:(lia))
    as (chunks & Hchunks & Hcat & Hsize).
  assert (exists evs, log s' = log s ++ evs /\ Forall (chunkRequest chunks) evs)
    as (evs & Hlog & Hall).
  { revert Hrun. unfold getTrackFeatures. rewrite Hchunks.
    destruct (length trackIds =? 0).
    { intros [= _ <-]. exists []. rewrite app_nil_r. auto. }
    destruct (bool_decide (env = Some "true")).
    { intros [= _ <-]. exists []. rewrite app_nil_r. auto. }
    unfold bind.
    destruct (chunkLoop_spec accessToken trackIds chunks (length chunks) chunks [] false s)
      as (step & s1 & evs & -> & Hlog & Hall & _).
    { intros c Hc. exact Hc. }
    { eapply Forall_impl; [exact Hsize|]. intros c Hc Heq. subst c. cbn in Hc. lia. }
    destruct step as [fs|allFeatures hasError]; [|destruct (length allFeatures =? 0)];
      intros [= _ <-]; eauto. }
  exists chunks, evs. repeat split; try assumption.
  eapply Forall_impl; [exact Hall|]. intros ev Hev.
  apply (chunk_request_size chunks); assumption.
Qed.

(** 250 identifiers are asked about in chunks of 100, 100 and 50. *)
Example chunks_of_250 :
  fmap (map length) (Arr.chunkArray (replicate 250 "id") 100) = Some [100; 100; 50].
Proof. vm_compute. reflexivity. Qed.

Lemma feature_requests_are_chunks_witness :
  let s := fresh [okFeatures []; okFeatures [someFeatures; someFeatures]] in
  let run := getTrackFeatures (H := scripted) None "token" ["a"; "b"] s in
  exists chunks evs,
    Arr.chunkArray ["a"; "b"] 100 = Some chunks
    /\ concat chunks = ["a"; "b"]
    /\ Forall (fun c => 0 < length c <= 100) chunks
    /\ log (snd run) = log s ++ evs
    /\ Forall (chunkRequest chunks) evs
    /\ Forall (fun ev => forall ids, featureIds ev = Some ids -> 0 < length ids <= 100) evs.
Proof.
  intros s run.
  apply (feature_requests_are_chunks (H := scripted) None "token" ["a"; "b"] s (fst run)).
  vm_compute. reflexivity.
Defined.



(** Runs of [getTrackFeatures] on the scripted remote: features are
    gathered; the access test is refused; every request fails. *)
Example features_gathered :
  fst (getTrackFeatures (H := scripted) None "token" ["a"; "b"]
         (fresh [okFeatures []; okFeatures [someFeatures; someFeatures]]))
  = Ok [someFeatures; someFeatures].
Proof. reflexivity. Qed.

Example access_test_refused :
  fst (getTrackFeatures (H := scripted) None "token" ["a"; "b"; "c"]
         (fresh [failing 403 "Forbidden"]))
  = Ok [defaultFeatures; defaultFeatures; defaultFeatures].
Proof. reflexivity. Qed.

(** The access test passes, then the chunk request is refused on each of
    the three attempts of the retry wrapper. *)
Example chunk_request_refused :
  fst (getTrackFeatures (H := scripted) None "token" ["a"; "b"]
         (fresh [okFeatures []; failing 403 "Forbidden"; failing 403 "Forbidden";
                 failing 403 "Forbidden"]))
  = Ok [defaultFeatures; defaultFeatures].
Proof. reflexivity. Qed.

(** A first chunk of 100 is answered, the access test for the second
    chunk is refused: the defaults replace what had been gathered. *)
Example refused_after_first_chunk :
  fmap length
    (match fst (getTrackFeatures (H := scripted) None "token" (replicate 101 "id")
                  (fresh [okFeatures []; okFeatures (replicate 100 someFeatures);
                          failing 403 "Forbidden"])) with
     | Ok fs => Some fs
     | _ => None
     end)
  = Some 101
  /\ fst (getTrackFeatures (H := scripted) None "token" (replicate 101 "id")
            (fresh [okFeatures []; okFeatures (replicate 100 someFeatures);
                    failing 403 "Forbidden"]))
     = Ok (fallbackFeatures (replicate 101 "id")).
Proof. split; vm_compute; reflexivity. Qed.

Example every_request_fails :
  fst (getTrackFeatures (H := scripted) None "token" ["a"; "b"] (fresh []))
  = Ok [defaultFeatures; defaultFeatures].
Proof. reflexivity. Qed.

(** *** A single chunk *)

Lemma chunkArray_loop_done {T} (fuel : nat) (array : list T) (size i : nat)
    (chunks : list (list T)) :
  length array <= i -> Arr.chunkArray_loop fuel array size i chunks = Some chunks.
Proof.
  intros Hle. destruct fuel; cbn [Arr.chunkArray_loop];
    rewrite (leb_correct _ _ Hle); reflexivity.
Qed.

Lemma chunkArray_single {T} (array : list T) (size : nat) :
  0 < length array <= size -> Arr.chunkArray array size = Some [array].
Proof.
  intros [Hpos Hle]. unfold Arr.chunkArray.
  destruct array as [|x array]; [cbn in Hpos; lia|].
  cbn [length Arr.chunkArray_loop Nat.leb].
  rewrite chunkArray_loop_done by (cbn [length] in *; lia).
  cbn [app]. unfold Arr.slice. rewrite Nat.add_0_l, Nat.sub_0_r. cbn [drop].
  rewrite take_ge by lia. reflexivity.
Qed.

(** X24.  A call for one to a hundred tracks, which is what every page
    makes, is a single chunk.  When the access test is answered with
    anything but 403 and the request for the chunk with an ok response
    that lists features, the call makes exactly these two requests, the
    first for the first identifier alone and the second for all of them,
    with no pause, and returns the listed features as they are; only an
    empty list is replaced by the defaults. *)
Theorem getTrackFeatures_one_chunk {W : Type} `{Remote W}
    (env : option string) (accessToken : string) (trackIds : list string) (s : Sys W)
    (testResponse response : Response) (w1 w2 : W) (data : Json)
    (features : list AudioFeatures) :
  0 < length trackIds <= 100 ->
  env <> Some "true" ->
  let testRequest := {| endpoint := AudioFeaturesOf (take 1 trackIds);
                        bearer := accessToken |} in
  let chunkRequest := {| endpoint := AudioFeaturesOf trackIds; bearer := accessToken |} in
  serve testRequest (remote s) = (Resp testResponse, w1) ->
  status testResponse <> 403%Z ->
  serve chunkRequest w1 = (Resp response, w2) ->
  ok response = true ->
  body response = Parsed data ->
  audio_features data = Some features ->
  getTrackFeatures env accessToken trackIds s
  = (Ok (if length features =? 0 then fallbackFeatures trackIds else features),
     {| remote := w2;
        log := log s ++ [EvFetch testRequest (Resp testResponse); EvInvoke 1;
                         EvFetch chunkRequest (Resp response)] |}).
Proof.
  intros Hlen Henv testRequest chunkRequest Htest H403 Hchunk Hok Hbody Hfeatures.
  unfold getTrackFeatures.
  destruct (Nat.eqb_spec (length trackIds) 0) as [Hz|_]; [lia|].
  rewrite bool_decide_eq_false_2 by exact Henv.
  rewrite (chunkArray_single trackIds 100 Hlen).
  destruct trackIds as [|id0 ids]; [cbn in Hlen; lia|].
  cbn [chunkLoop length]. unfold bind at 1. unfold bind at 1.
  rewrite processChunk_unfold. unfold tryCatch at 1.
  unfold Spotify.chunkBody. unfold bind at 1. unfold fetch at 1.
  cbn [head default from_option Datatypes.id].
  change {| endpoint := AudioFeaturesOf [id0]; bearer := accessToken |} with testRequest.
  rewrite Htest. destruct (Z.eqb_spec (status testResponse) 403) as [|_]; [contradiction|].
  unfold bind at 1. unfold requestQueue_add, retryableSpotifyCall.
  set (s1 := {| remote := w1; log := log s ++ [EvFetch testRequest (Resp testResponse)] |}).
  assert (fetchChunkFeatures accessToken (id0 :: ids) (record (EvInvoke 1) s1)
          = (Ok (Some features),
             {| remote := w2;
                log := (log s1 ++ [EvInvoke 1]) ++ [EvFetch chunkRequest (Resp response)] |}))
    as Hop.
  { unfold fetchChunkFeatures, bind, fetch, record, s1. cbn [remote log].
    change {| endpoint := AudioFeaturesOf (id0 :: ids); bearer := accessToken |}
      with chunkRequest.
    rewrite Hchunk, Hok. cbn [negb]. unfold json. rewrite Hbody. unfold ret.
    rewrite Hfeatures. reflexivity. }
  rewrite (RetryFacts.retryLoop_ok _ _ _ _ _ _ _ _ (Some features) Hop).
  cbn [Nat.ltb Nat.leb]. unfold bind, ret. cbn [app log]. subst s1. cbn [log].
  rewrite <- !app_assoc. cbn [app].
  destruct (length features =? 0); reflexivity.
Qed.

Lemma getTrackFeatures_one_chunk_witness :
  let trackIds := ["a"; "b"] in
  let s := fresh [failing 500 "Server Error"; okFeatures [someFeatures; someFeatures]] in
  let testRequest := {| endpoint := AudioFeaturesOf (take 1 trackIds); bearer := "token" |} in
  let chunkRequest := {| endpoint := AudioFeaturesOf trackIds; bearer := "token" |} in
  getTrackFeatures (H := scripted) None "token" trackIds s
  = (Ok [someFeatures; someFeatures],
     {| remote := [];
        log := log s ++ [EvFetch testRequest (failing 500 "Server Error"); EvInvoke 1;
                         EvFetch chunkRequest (okFeatures [someFeatures; someFeatures])] |}).
Proof.
  intros trackIds s testRequest chunkRequest.
  refine (getTrackFeatures_one_chunk (H := scripted) None "token" trackIds s
            _ _ _ _ _ [someFeatures; someFeatures] _ _ _ _ _ _ _ _);
    try reflexivity; try discriminate.
  cbn. lia.
Defined.
End FeatureFacts.

(** ** The request queue *)

Module QueueFacts.
Import RequestQueue Fixtures.

Lemma remove_one (l : list nat) (x : nat) :
  NoDup l -> x ∈ l -> l ≡ₚ x :: filter (fun i => i ≠ x) l.
Proof.
  induction 1 as [|y l Hy Hnd IH]; intros Hin; [inversion Hin|].
  apply elem_of_cons in Hin as [->|Hin].
  - rewrite filter_cons_False by tauto.
    replace (filter (fun i => i ≠ y) l) with l; [reflexivity|].
    clear IH Hnd. induction l as [|z l IHl]; [reflexivity|].
    rewrite not_elem_of_cons in Hy. destruct Hy as [Hzy Hy].
    rewrite filter_cons_True by congruence. f_equal. auto.
  - assert (y ≠ x) as Hyx by (intros ->; contradiction).
    rewrite filter_cons_True by exact Hyx.
    rewrite (IH Hin) at 1. apply Permutation_swap.
Qed.

Section Limit.
Variable maxConcurrent : Z.
Hypothesis limit_positive : (1 <= maxConcurrent)%Z.

Abbreviation Inv := (Inv maxConcurrent).
Abbreviation Core := (Core maxConcurrent).

Lemma inv_init : Inv init.
Proof. split; cbn; auto; try lia. congruence. Qed.

(** [processNext] either does nothing, because nothing waits or no slot
    is free, or starts the oldest waiting item. *)
Lemma processNext_cases (s : State) :
  (processNext maxConcurrent s = s
   /\ (queue s = [] \/ (maxConcurrent <= running s)%Z))
  \/ exists item rest,
       queue s = item :: rest /\ (running s < maxConcurrent)%Z
       /\ processNext maxConcurrent s
          = {| queue := rest; running := running s + 1; submitted := submitted s;
               started := started s ++ [item]; inflight := inflight s ++ [item];
               settled := settled s |}.
Proof.
  unfold processNext. destruct (queue s) as [|item rest] eqn:Hq; [left; auto|].
  destruct (Z.ltb_spec (running s) maxConcurrent) as [Hlt|Hge].
  - right. exists item, rest. auto.
  - left. auto.
Qed.

Lemma processNext_core (s : State) : Core s -> Core (processNext maxConcurrent s).
Proof.
  intros [Hrun Hlim Hfifo Honce].
  destruct (processNext_cases s) as [[-> _]|(item & rest & Hq & Hlt & ->)];
    [split; assumption|].
  split; cbn [queue running submitted started inflight settled].
  - rewrite length_app, Hrun. cbn. lia.
  - lia.
  - rewrite <- Hfifo, Hq, <- app_assoc. reflexivity.
  - rewrite Honce, app_assoc. reflexivity.
Qed.

Lemma processNext_busy (s : State) :
  (match queue s with
   | _ :: _ :: _ => (maxConcurrent - 1 <= running s)%Z
   | _ => True
   end) ->
  queue (processNext maxConcurrent s) <> [] ->
  (maxConcurrent <= running (processNext maxConcurrent s))%Z.
Proof.
  intros Hfull.
  destruct (processNext_cases s) as [[-> [Hq|Hge]]|(item & rest & Hq & Hlt & ->)];
    cbn; try congruence; try lia.
  rewrite Hq in Hfull. destruct rest; [congruence|]. lia.
Qed.

Lemma core_of_inv (s : State) : Inv s -> Core s.
Proof. intros [? ? ? ? ?]. split; assumption. Qed.

Lemma inv_of_core (s : State) :
  Core s -> (queue s <> [] -> (maxConcurrent <= running s)%Z) -> Inv s.
Proof.
  intros [Hrun Hlim Hfifo Honce] Hbusy. split; try assumption.
  intros Hq. specialize (Hbusy Hq). lia.
Qed.

Lemma add_inv (s : State) : Inv s -> Inv (add maxConcurrent s).
Proof.
  intros Hinv. pose proof (core_of_inv s Hinv) as [Hrun Hlim Hfifo Honce].
  unfold add. cbn [running].
  set (s1 := {| queue := queue s ++ [submitted s]; running := running s;
                submitted := S (submitted s); started := started s;
                inflight := inflight s; settled := settled s |}).
  assert (Core s1) as Hcore1.
  { subst s1. split; cbn [queue running submitted started inflight settled]; try assumption.
    rewrite app_assoc, Hfifo, seq_S. reflexivity. }
  destruct (Z.ltb_spec (running s) maxConcurrent) as [Hlt|Hge].
  - apply inv_of_core; [apply processNext_core, Hcore1|].
    apply processNext_busy. cbn.
    destruct (queue s) as [|q0 qs] eqn:Hq; [exact I|].
    pose proof (inv_busy maxConcurrent s Hinv) as Hbusy. rewrite Hq in Hbusy.
    specialize (Hbusy ltac:(discriminate)). lia.
  - apply inv_of_core; [exact Hcore1|]. cbn. intros _. exact Hge.
Qed.

Lemma inv_nodup (s : State) :
  Inv s -> NoDup (started s) /\ NoDup (map fst (settled s)) /\ NoDup (inflight s)
           /\ forall i, i ∈ inflight s -> i ∉ map fst (settled s).
Proof.
  intros Hinv.
  assert (NoDup (started s)) as Hstarted.
  { pose proof (NoDup_seq 0 (submitted s)) as Hseq.
    rewrite <- (inv_fifo maxConcurrent s Hinv) in Hseq. apply NoDup_app in Hseq. tauto. }
  pose proof Hstarted as Hboth. rewrite (inv_once maxConcurrent s Hinv) in Hboth.
  apply NoDup_app in Hboth as (Hs & Hdisj & Hi).
  repeat split; try assumption. intros i Hin Hset. exact (Hdisj i Hset Hin).
Qed.

Lemma settle_inv (s : State) (item : nat) (out : Outcome) :
  Inv s -> item ∈ inflight s -> Inv (settle maxConcurrent item out s).
Proof.
  intros Hinv Hin. pose proof (core_of_inv s Hinv) as [Hrun Hlim Hfifo Honce].
  destruct (inv_nodup s Hinv) as (_ & _ & Hnd & _).
  pose proof (remove_one _ _ Hnd Hin) as Hperm.
  unfold settle.
  set (s1 := {| queue := queue s; running := running s - 1; submitted := submitted s;
                started := started s;
                inflight := filter (fun i => i ≠ item) (inflight s);
                settled := settled s ++ [(item, out)] |}).
  assert (Core s1) as Hcore1.
  { subst s1. split; cbn [queue running submitted started inflight settled]; try assumption.
    - rewrite Hrun. rewrite (Permutation_length Hperm). cbn. lia.
    - lia.
    - rewrite map_app. cbn. rewrite <- app_assoc. cbn.
      rewrite Honce. apply Permutation_app_head.
      rewrite Hperm at 1. reflexivity. }
  apply inv_of_core; [apply processNext_core, Hcore1|].
  apply processNext_busy. cbn.
  destruct (queue s) as [|q0 [|q1 qs]] eqn:Hq; try exact I.
  pose proof (inv_busy maxConcurrent s Hinv) as Hbusy. rewrite Hq in Hbusy.
  specialize (Hbusy ltac:(discriminate)). lia.
Qed.

Lemma step_inv (s s' : State) (a : Action) :
  Inv s -> step maxConcurrent s a = Some s' -> Inv s'.
Proof.
  intros Hinv. destruct a as [|item out]; cbn.
  - intros [= <-]. apply add_inv, Hinv.
  - case_bool_decide as Hin; [|discriminate]. intros [= <-]. apply settle_inv; assumption.
Qed.

Lemma exec_inv (acts : list Action) :
  forall s s', Inv s -> exec maxConcurrent s acts = Some s' -> Inv s'.
Proof.
  induction acts as [|a acts IH]; intros s s' Hinv; cbn.
  - intros [= <-]. exact Hinv.
  - destruct (step maxConcurrent s a) as [s1|] eqn:Hstep; [|discriminate].
    apply IH. eapply step_inv; eassumption.
Qed.


(** *** Consequences of the invariant *)

Lemma processNext_keeps (s : State) :
  submitted (processNext maxConcurrent s) = submitted s
  /\ settled (processNext maxConcurrent s) = settled s.
Proof.
  destruct (processNext_cases s) as [[-> _]|(item & rest & _ & _ & ->)]; auto.
Qed.

Lemma inv_counts (s : State) :
  Inv s ->
  length (started s) + length (queue s) = submitted s
  /\ length (started s) = length (settled s) + length (inflight s).
Proof.
  intros Hinv. split.
  - rewrite <- length_app, (inv_fifo maxConcurrent s Hinv), length_seq. reflexivity.
  - rewrite (Permutation_length (inv_once maxConcurrent s Hinv)), length_app, length_map. reflexivity.
Qed.

(** While a submitted item has not settled, some item is in flight. *)
Lemma inv_progress (s : State) :
  Inv s -> length (settled s) < submitted s -> inflight s <> [].
Proof.
  intros Hinv Hpending Hidle.
  destruct (inv_counts s Hinv) as [Hsub Hstarted].
  pose proof (inv_running maxConcurrent s Hinv) as Hrun. rewrite Hidle in Hrun, Hstarted. cbn in Hrun, Hstarted.
  destruct (queue s) eqn:Hq.
  - cbn in Hsub. lia.
  - pose proof (inv_busy maxConcurrent s Hinv) as Hbusy. rewrite Hq in Hbusy.
    specialize (Hbusy ltac:(discriminate)). lia.
Qed.

(** Settling an item in flight records it once and admits the oldest
    waiting item, if there is one. *)
Lemma settle_effect (s : State) (item : nat) (out : Outcome) :
  Inv s -> item ∈ inflight s ->
  let s' := settle maxConcurrent item out s in
  step maxConcurrent s (Settle item out) = Some s'
  /\ settled s' = settled s ++ [(item, out)]
  /\ submitted s' = submitted s
  /\ (forall next rest, queue s = next :: rest ->
        started s' = started s ++ [next] /\ queue s' = rest /\ next ∈ inflight s')
  /\ (queue s = [] -> started s' = started s /\ queue s' = []).
Proof.
  intros Hinv Hin s'. subst s'. split; [|split; [|split; [|split]]].
  - cbn. rewrite bool_decide_eq_true_2 by exact Hin. reflexivity.
  - unfold settle. rewrite (proj2 (processNext_keeps _)). reflexivity.
  - unfold settle. rewrite (proj1 (processNext_keeps _)). reflexivity.
  - intros next rest Hq.
    pose proof (inv_busy maxConcurrent s Hinv) as Hbusy. rewrite Hq in Hbusy.
    specialize (Hbusy ltac:(discriminate)).
    unfold settle, processNext. cbn [queue running]. rewrite Hq.
    replace (running s - 1 <? maxConcurrent)%Z with true by (symmetry; apply Z.ltb_lt; lia).
    cbn. repeat split. apply elem_of_app. right. left.
  - intros Hq. unfold settle, processNext. cbn [queue]. rewrite Hq. cbn. auto.
Qed.

(** A run of settlements records one item per step and submits none. *)
Lemma exec_settles (acts : list Action) :
  forall s s',
    Forall (fun a => isSettle a = true) acts ->
    exec maxConcurrent s acts = Some s' ->
    submitted s' = submitted s
    /\ length (settled s') = length (settled s) + length acts
    /\ forall p, p ∈ settled s -> p ∈ settled s'.
Proof.
  induction acts as [|a acts IH]; intros s s' Hall; cbn.
  - intros [= <-]. repeat split; auto.
  - apply Forall_cons_1 in Hall as [Ha Hall].
    destruct a as [|item out]; [discriminate|]. cbn.
    case_bool_decide as Hin; [|discriminate]. intros Hexec.
    destruct (IH _ _ Hall Hexec) as (Hsub & Hlen & Hkeep).
    unfold settle in Hsub, Hlen, Hkeep.
    rewrite (proj1 (processNext_keeps _)) in Hsub.
    rewrite (proj2 (processNext_keeps _)) in Hlen, Hkeep. cbn in Hsub, Hlen, Hkeep.
    rewrite length_app in Hlen. cbn in Hlen.
    repeat split; [exact Hsub|lia|].
    intros p Hp. apply Hkeep, elem_of_app. left. exact Hp.
Qed.

(** When every submitted item has settled, nothing waits, nothing is in
    flight, and the settled items are the submitted ones, each once. *)
Lemma inv_all_settled (s : State) :
  Inv s -> length (settled s) = submitted s ->
  queue s = [] /\ inflight s = []
  /\ started s = seq 0 (submitted s)
  /\ map fst (settled s) ≡ₚ seq 0 (submitted s).
Proof.
  intros Hinv Hall. destruct (inv_counts s Hinv) as [Hsub Hstarted].
  assert (queue s = []) as Hq by (apply nil_length_inv; lia).
  assert (inflight s = []) as Hi by (apply nil_length_inv; lia).
  pose proof (inv_fifo maxConcurrent s Hinv) as Hfifo. rewrite Hq, app_nil_r in Hfifo.
  pose proof (inv_once maxConcurrent s Hinv) as Honce. rewrite Hi, app_nil_r, Hfifo in Honce.
  repeat split; try assumption. symmetry. exact Honce.
Qed.

(** From any state the items still pending can be settled one by one,
    with whatever outcomes, until none is left. *)
Lemma drain_exists (outcomeOf : nat -> Outcome) (n : nat) :
  forall s,
    Inv s -> submitted s - length (settled s) = n ->
    exists acts s',
      Forall (fun a => isSettle a = true) acts
      /\ exec maxConcurrent s acts = Some s'
      /\ length acts = n
      /\ forall item out, (item, out) ∈ settled s' ->
           (item, out) ∈ settled s \/ out = outcomeOf item.
Proof.
  induction n as [|n IH]; intros s Hinv Hpending.
  - exists [], s. repeat split; auto.
  - destruct (inflight s) as [|item rest] eqn:Hfl.
    { exfalso. apply (inv_progress s Hinv); [lia|exact Hfl]. }
    assert (item ∈ inflight s) as Hin by (rewrite Hfl; left).
    destruct (settle_effect s item (outcomeOf item) Hinv Hin)
      as (Hstep & Hsettled & Hsub & _).
    pose proof (settle_inv s item (outcomeOf item) Hinv Hin) as Hinv1.
    destruct (IH (settle maxConcurrent item (outcomeOf item) s) Hinv1)
      as (acts & s' & Hall & Hexec & Hlen & Hout).
    { rewrite Hsub, Hsettled, length_app. cbn. lia. }
    exists (Settle item (outcomeOf item) :: acts), s'.
    split; [constructor; [reflexivity|exact Hall]|].
    split; [cbn [exec]; rewrite Hstep; exact Hexec|].
    split; [cbn; lia|].
    intros i out Hi. destruct (Hout i out Hi) as [Hold|Hnew]; [|auto].
    rewrite Hsettled in Hold. apply elem_of_app in Hold as [Hold|Hold]; [auto|].
    apply list_elem_of_singleton in Hold. injection Hold as -> ->. auto.
Qed.

(** How an item ends does not affect the queue: a rejection and a
    resolution leave the same queue, counter and items in flight. *)
Lemma failure_isolated (s : State) (item : nat) :
  let a := settle maxConcurrent item Failed s in
  let b := settle maxConcurrent item Resolved s in
  queue a = queue b /\ running a = running b /\ submitted a = submitted b
  /\ started a = started b /\ inflight a = inflight b
  /\ map fst (settled a) = map fst (settled b).
Proof.
  unfold settle, processNext. cbn [queue running].
  destruct (queue s); [|destruct (running s - 1 <? maxConcurrent)%Z];
    cbn; rewrite !map_app; repeat split.
Qed.
End Limit.


Lemma limit_3_positive : (1 <= requestQueueLimit)%Z.
Proof. unfold requestQueueLimit. lia. Qed.

(** *** The actions and the record *)

Lemma processNext_ledger (maxConcurrent : Z) (s : State) :
  submitted (processNext maxConcurrent s) = submitted s
  /\ settled (processNext maxConcurrent s) = settled s.
Proof.
  unfold processNext. destruct (queue s); [auto|].
  destruct (running s <? maxConcurrent)%Z; auto.
Qed.

(** Every call of [add] counts as one submission and every settlement is
    recorded, whatever the limit. *)
Lemma exec_ledger (maxConcurrent : Z) (acts : list Action) :
  forall s s',
    exec maxConcurrent s acts = Some s' ->
    submitted s' = submitted s + submissions acts
    /\ settled s' = settled s ++ outcomes acts.
Proof.
  induction acts as [|a acts IH]; intros s s'.
  - cbn. intros [= <-]. rewrite Nat.add_0_r, app_nil_r. auto.
  - cbn [exec]. destruct (step maxConcurrent s a) as [s1|] eqn:Hstep; [|discriminate].
    intros Hexec. destruct (IH _ _ Hexec) as [Hsub Hset].
    destruct a as [|item out]; cbn [step] in Hstep.
    + injection Hstep as <-.
      assert (submitted (add maxConcurrent s) = S (submitted s)
              /\ settled (add maxConcurrent s) = settled s) as [Ha Hb].
      { unfold add. cbn [running].
        destruct (running s <? maxConcurrent)%Z; [|auto].
        destruct (processNext_ledger maxConcurrent
                    {| queue := queue s ++ [submitted s]; running := running s;
                       submitted := S (submitted s); started := started s;
                       inflight := inflight s; settled := settled s |}) as [-> ->].
        auto. }
      rewrite Hsub, Hset, Ha, Hb. unfold submissions, outcomes.
      cbn [omap list_omap length]. split; [lia|reflexivity].
    + case_bool_decide; [|discriminate]. injection Hstep as <-.
      assert (submitted (settle maxConcurrent item out s) = submitted s
              /\ settled (settle maxConcurrent item out s) = settled s ++ [(item, out)])
        as [Ha Hb].
      { unfold settle.
        destruct (processNext_ledger maxConcurrent
                    {| queue := queue s; running := running s - 1;
                       submitted := submitted s; started := started s;
                       inflight := filter (fun i => i ≠ item) (inflight s);
                       settled := settled s ++ [(item, out)] |}) as [-> ->].
        auto. }
      rewrite Hsub, Hset, Ha, Hb. unfold submissions, outcomes.
      cbn [omap list_omap length]. rewrite <- app_assoc. split; reflexivity.
Qed.

(** What a call of [add] does in a state of the queue: the new item is
    started at once when a slot is free, and put behind the waiting ones
    when none is. *)
Lemma add_effect (maxConcurrent : Z) (s : State) :
  Inv maxConcurrent s ->
  let s' := add maxConcurrent s in
  submitted s' = S (submitted s)
  /\ ((running s < maxConcurrent)%Z ->
      started s' = started s ++ [submitted s] /\ queue s' = []
      /\ inflight s' = inflight s ++ [submitted s])
  /\ (running s = maxConcurrent ->
      started s' = started s /\ inflight s' = inflight s
      /\ queue s' = queue s ++ [submitted s]).
Proof.
  intros Hinv s'. subst s'. unfold add. cbn [running].
  destruct (Z.ltb_spec (running s) maxConcurrent) as [Hfree|Hfull].
  - assert (queue s = []) as Hq.
    { destruct (queue s) eqn:Hqueue; [reflexivity|].
      pose proof (inv_busy maxConcurrent s Hinv) as Hbusy. rewrite Hqueue in Hbusy.
      specialize (Hbusy ltac:(discriminate)). lia. }
    unfold processNext. cbn [queue running]. rewrite Hq. cbn [app].
    destruct (Z.ltb_spec (running s) maxConcurrent) as [_|]; [|lia].
    cbn. repeat split; auto; lia.
  - cbn. repeat split; auto; lia.
Qed.

(** C9.  The queue created with limit 3, after any sequence of
    submissions and settlements:
    - every call of [add] in the sequence is one submitted item and every
      settlement is on record, in order; each submitted item has been
      started or waits in the queue, none is lost;
    - a further call of [add] starts its item at once when fewer than 3
      are in flight, and puts it behind the waiting ones when 3 are;
    - at most 3 items are in flight, and the counter [running] is their
      number;
    - items were started in the order they were submitted, and the
      waiting ones are the later ones, in order; while an item waits, all
      3 slots are taken;
    - no item was started twice or settled twice, and every started item
      is either settled or in flight;
    - while a submitted item has not settled, some item is in flight;
    - when an item in flight settles, whether it resolves or rejects, it
      is recorded once and the oldest waiting item is admitted; a
      rejection leaves the queue as a resolution does;
    - once the items in flight have been settled as many times as items
      were pending, nothing waits, nothing is in flight, and every
      submitted item has started and settled exactly once; such a
      sequence of settlements exists for any choice of outcomes. *)
Theorem request_queue_contract (acts : list Action) (s : State) :
  exec requestQueueLimit init acts = Some s ->
  (submitted s = submissions acts /\ settled s = outcomes acts
   /\ started s ++ queue s = seq 0 (submissions acts))
  /\ (let s' := add requestQueueLimit s in
      step requestQueueLimit s Add = Some s'
      /\ submitted s' = S (submitted s)
      /\ ((running s < 3)%Z ->
          started s' = started s ++ [submitted s] /\ queue s' = []
          /\ inflight s' = inflight s ++ [submitted s])
      /\ (running s = 3%Z ->
          started s' = started s /\ inflight s' = inflight s
          /\ queue s' = queue s ++ [submitted s]))
  /\ ((running s <= 3)%Z /\ length (inflight s) <= 3
   /\ running s = Z.of_nat (length (inflight s)))
  /\ (started s ++ queue s = seq 0 (submitted s)
      /\ (queue s <> [] -> running s = 3%Z))
  /\ (NoDup (started s) /\ NoDup (map fst (settled s))
      /\ started s ≡ₚ map fst (settled s) ++ inflight s)
  /\ (length (settled s) < submitted s -> inflight s <> [])
  /\ (forall item out, item ∈ inflight s ->
        let s' := settle requestQueueLimit item out s in
        step requestQueueLimit s (Settle item out) = Some s'
        /\ settled s' = settled s ++ [(item, out)]
        /\ (forall next rest, queue s = next :: rest ->
              started s' = started s ++ [next] /\ queue s' = rest /\ next ∈ inflight s')
        /\ queue (settle requestQueueLimit item Failed s)
           = queue (settle requestQueueLimit item Resolved s)
        /\ inflight (settle requestQueueLimit item Failed s)
           = inflight (settle requestQueueLimit item Resolved s)
        /\ running (settle requestQueueLimit item Failed s)
           = running (settle requestQueueLimit item Resolved s))
  /\ (forall acts' s',
        Forall (fun a => isSettle a = true) acts' ->
        exec requestQueueLimit s acts' = Some s' ->
        length acts' = submitted s - length (settled s) ->
        queue s' = [] /\ inflight s' = []
        /\ started s' = seq 0 (submitted s)
        /\ map fst (settled s') ≡ₚ seq 0 (submitted s))
  /\ (forall outcomeOf : nat -> Outcome,
        exists acts' s',
          Forall (fun a => isSettle a = true) acts'
          /\ exec requestQueueLimit s acts' = Some s'
          /\ length acts' = submitted s - length (settled s)
          /\ forall item out, (item, out) ∈ settled s' ->
               (item, out) ∈ settled s \/ out = outcomeOf item).
Proof.
  intros Hexec.
  pose proof (exec_inv requestQueueLimit acts init s
                (inv_init requestQueueLimit limit_3_positive) Hexec) as Hinv.
  destruct (inv_nodup requestQueueLimit s Hinv) as (Hnd1 & Hnd2 & _ & _).
  destruct (exec_ledger requestQueueLimit acts init s Hexec) as [Hledger Hrecord].
  cbn [submitted settled init Nat.add app] in Hledger, Hrecord.
  split; [|split; [|split; [|split; [|split; [|split; [|split; [|split]]]]]]].
  - split; [exact Hledger|]. split; [exact Hrecord|].
    rewrite <- Hledger. exact (inv_fifo _ s Hinv).
  - intros s'. subst s'. split; [reflexivity|].
    exact (add_effect requestQueueLimit s Hinv).
  - pose proof (inv_limit _ s Hinv) as Hlim. pose proof (inv_running _ s Hinv) as Hrun.
    unfold requestQueueLimit in Hlim. repeat split; [exact Hlim|lia|exact Hrun].
  - split; [exact (inv_fifo _ s Hinv)|exact (inv_busy _ s Hinv)].
  - repeat split; [exact Hnd1|exact Hnd2|exact (inv_once _ s Hinv)].
  - apply (inv_progress requestQueueLimit limit_3_positive s Hinv).
  - intros item out Hin s'. subst s'.
    destruct (settle_effect requestQueueLimit s item out Hinv Hin)
      as (Hstep & Hsettled & _ & Hadmit & _).
    destruct (failure_isolated requestQueueLimit s item) as (Hq & Hr & _ & _ & Hi & _).
    split; [exact Hstep|]. split; [exact Hsettled|].
    split; [exact Hadmit|]. auto.
  - intros acts' s' Hall Hexec' Hlen.
    pose proof (exec_inv requestQueueLimit acts' s s' Hinv Hexec') as Hinv'.
    destruct (exec_settles requestQueueLimit acts' s s' Hall Hexec') as (Hsub & Hcount & _).
    destruct (inv_counts requestQueueLimit s Hinv) as [Hc1 Hc2].
    destruct (inv_all_settled requestQueueLimit s' Hinv') as (Hq & Hi & Hst & Hperm); [lia|].
    rewrite Hsub in Hst, Hperm. auto.
  - intros outcomeOf.
    apply (drain_exists requestQueueLimit limit_3_positive outcomeOf _ s Hinv eq_refl).
Qed.

Lemma request_queue_contract_witness :
  exec requestQueueLimit init tenTasks = Some afterTenTasks
  /\ (submitted afterTenTasks = submissions tenTasks
      /\ settled afterTenTasks = outcomes tenTasks
      /\ started afterTenTasks ++ queue afterTenTasks = seq 0 (submissions tenTasks))
  /\ ((running afterTenTasks <= 3)%Z /\ length (inflight afterTenTasks) <= 3
      /\ running afterTenTasks = Z.of_nat (length (inflight afterTenTasks)))
  /\ (started afterTenTasks ++ queue afterTenTasks = seq 0 (submitted afterTenTasks)
      /\ (queue afterTenTasks <> [] -> running afterTenTasks = 3%Z))
  /\ (NoDup (started afterTenTasks) /\ NoDup (map fst (settled afterTenTasks))
      /\ started afterTenTasks ≡ₚ map fst (settled afterTenTasks) ++ inflight afterTenTasks)
  /\ (length (settled afterTenTasks) < submitted afterTenTasks -> inflight afterTenTasks <> []).
Proof.
  split; [reflexivity|].
  destruct (request_queue_contract tenTasks afterTenTasks eq_refl)
    as (H1 & _ & H3 & H4 & H5 & H6 & _).
  exact (conj H1 (conj H3 (conj H4 (conj H5 H6)))).
Defined.

(** Ten items submitted at once: three start, seven wait. *)
Example ten_submitted :
  exec requestQueueLimit init (repeat Add 10)
  = Some {| queue := [3; 4; 5; 6; 7; 8; 9]; running := 3; submitted := 10;
            started := [0; 1; 2]; inflight := [0; 1; 2]; settled := [] |}.
Proof. reflexivity. Qed.

(** Ten items, then ten settlements in some order, the second a failure:
    every item has started, in submission order, and settled once. *)
Example ten_completed :
  exec requestQueueLimit init
    (repeat Add 10
     ++ [Settle 1 Resolved; Settle 0 Failed; Settle 3 Resolved; Settle 2 Resolved;
         Settle 4 Resolved; Settle 6 Resolved; Settle 5 Resolved; Settle 7 Resolved;
         Settle 9 Resolved; Settle 8 Resolved])
  = Some {| queue := []; running := 0; submitted := 10;
            started := [0; 1; 2; 3; 4; 5; 6; 7; 8; 9]; inflight := [];
            settled := [(1, Resolved); (0, Failed); (3, Resolved); (2, Resolved);
                        (4, Resolved); (6, Resolved); (5, Resolved); (7, Resolved);
                        (9, Resolved); (8, Resolved)] |}.
Proof. reflexivity. Qed.

(** An item that is not in flight cannot settle. *)
Example settle_waiting_item :
  exec requestQueueLimit init (repeat Add 4 ++ [Settle 3 Resolved]) = None.
Proof. reflexivity. Qed.

(** *** Other limits *)




(** With a limit of 0 three submissions all wait. *)
Example starved_queue :
  exec 0 init [Add; Add; Add]
  = Some {| queue := [0; 1; 2]; running := 0; submitted := 3; started := [];
            inflight := []; settled := [] |}.
Proof. reflexivity. Qed.
End QueueFacts.

(** ** The list getters *)

Module WebFacts.
Import Eff Spotify RetryTrace Web Fixtures.

Section WithService.
Context {W : Type} `{Service W}.

(** An error built by [new Error(...)] is neither an authorization error
    nor a rate limit for the wrapper, whatever status its message
    mentions. *)
Lemma newError_is_retried (msg : string) :
  isAuthError (Js.newError msg) = false /\ isRateLimit (Js.newError msg) = false.
Proof. split; reflexivity. Qed.

(** What three failed attempts with [new Error] errors write. *)
Lemma failedLog_three (m1 m2 m3 : string) :
  failedLog 3 1000 1 [Js.newError m1; Js.newError m2; Js.newError m3]
  = [EvInvoke 1; EvAttemptFailed 1 (Js.newError m1); EvDelay (Js.Int 1000);
     EvInvoke 2; EvAttemptFailed 2 (Js.newError m2); EvDelay (Js.Int 2000);
     EvInvoke 3; EvAttemptFailed 3 (Js.newError m3)].
Proof. reflexivity. Qed.

Section Refused.
Variable operation : W -> Res (option Json) * W.
Hypothesis refused :
  forall w, exists response w',
    operation w = (Throw (apiError response), w') /\ ok response = false.


End Refused.



End WithService.




(** A 401 answer is asked for three times. *)
Example unauthorized_top_tracks :
  getTopTracks (H := alwaysUnauthorized) "token" short_term {| remote := tt; log := [] |}
  = (Throw (Js.newError "Spotify API error: 401 Unauthorized"),
     {| remote := tt;
        log := [EvInvoke 1;
                EvAttemptFailed 1 (Js.newError "Spotify API error: 401 Unauthorized");
                EvDelay (Js.Int 1000);
                EvInvoke 2;
                EvAttemptFailed 2 (Js.newError "Spotify API error: 401 Unauthorized");
                EvDelay (Js.Int 2000);
                EvInvoke 3;
                EvAttemptFailed 3 (Js.newError "Spotify API error: 401 Unauthorized")] |}).
Proof. reflexivity. Qed.

(** X9.  The two getters differ on an ok response whose body has no
    [items]: [getUserPlaylists] returns [undefined] after its first
    request, while [getTopTracks], which reads [data.items.length] for a
    log line, fails with a [TypeError] on each of its three attempts and
    throws it. *)
Theorem getters_differ_without_items {W : Type} `{Service W}
    (accessToken : string) (timeRange : TimeRange) (w : W) (l : list Event) :
  (forall url w, exists response data w',
     request url accessToken w = (inr response, w')
     /\ ok response = true /\ body response = inr data
     /\ property "items" data = inr None) ->
  (exists w',
     getUserPlaylists accessToken {| remote := w; log := l |}
     = (Ok None, {| remote := w'; log := l ++ [EvInvoke 1] |}))
  /\ (exists w',
        getTopTracks accessToken timeRange {| remote := w; log := l |}
        = (Throw lengthOfUndefined,
           {| remote := w';
              log := l ++ [EvInvoke 1; EvAttemptFailed 1 lengthOfUndefined;
                           EvDelay (Js.Int 1000);
                           EvInvoke 2; EvAttemptFailed 2 lengthOfUndefined;
                           EvDelay (Js.Int 2000);
                           EvInvoke 3; EvAttemptFailed 3 lengthOfUndefined] |})).
Proof.
  intros Hanswer. split.
  - destruct (Hanswer "https://api.spotify.com/v1/me/playlists" w)
      as (response & data & w' & Hreq & Hok & Hbody & Hitems).
    exists w'. unfold getUserPlaylists, requestQueue_add, retryableSpotifyCall.
    apply RetryFacts.retryLoop_ok. rewrite RetryFacts.liftOp_after_invoke.
    unfold playlistsOperation. rewrite Hreq, Hok, Hbody, Hitems. reflexivity.
  - destruct (RetryFacts.retryLoop_all_fail (topTracksOperation accessToken timeRange) 3 1000
                (fun e => e = lengthOfUndefined)
                ltac:(intros w0;
                      destruct (Hanswer (topTracksUrl timeRange) w0)
                        as (response & data & w1 & Hreq & Hok & Hbody & Hitems);
                      exists lengthOfUndefined, w1; unfold topTracksOperation;
                      rewrite Hreq, Hok, Hbody, Hitems; auto)
                3 1 None w l) as (errs & w' & Hlen & Hall & Hrun).
    destruct errs as [|e1 [|e2 [|e3 [|e4 errs]]]]; try discriminate.
    apply Forall_cons_1 in Hall as [(_ & ->) Hall].
    apply Forall_cons_1 in Hall as [(_ & ->) Hall].
    apply Forall_cons_1 in Hall as [(_ & ->) _].
    exists w'. exact Hrun.
Qed.

Lemma getters_differ_without_items_witness :
  (exists w',
     getUserPlaylists (H := alwaysWithoutItems) "token" {| remote := tt; log := [] |}
     = (Ok None, {| remote := w'; log := [] ++ [EvInvoke 1] |}))
  /\ (exists w',
        getTopTracks (H := alwaysWithoutItems) "token" long_term {| remote := tt; log := [] |}
        = (Throw lengthOfUndefined,
           {| remote := w';
              log := [] ++ [EvInvoke 1; EvAttemptFailed 1 lengthOfUndefined;
                            EvDelay (Js.Int 1000);
                            EvInvoke 2; EvAttemptFailed 2 lengthOfUndefined;
                            EvDelay (Js.Int 2000);
                            EvInvoke 3; EvAttemptFailed 3 lengthOfUndefined] |})).
Proof.
  apply (getters_differ_without_items (H := alwaysWithoutItems) "token" long_term tt []).
  intros url w. eexists _, _, _. repeat split.
Defined.

(** *** [validateToken] *)

Section Validate.
Context {W : Type} `{Service W}.
Variable accessToken : string.

(** The answer a scope check reports as [ok]. *)
Abbreviation answeredOk := (fun out : Js.Error + Reply =>
                              match out with inr r => ok r | inl _ => false end).

Lemma afterRequests_cons (url : string) (urls : list string) (w : W) :
  afterRequests accessToken (url :: urls) w
  = afterRequests accessToken urls (snd (request url accessToken w)).
Proof. reflexivity. Qed.

Lemma checkScopes_spec (checks : list (string * string)) (w : W) :
  let results := fst (checkScopes accessToken checks w) in
  map scope results = map fst checks
  /\ snd (checkScopes accessToken checks w) = afterRequests accessToken (map snd checks) w
  /\ forall i name url,
       checks !! i = Some (name, url) ->
       exists res,
         results !! i = Some res
         /\ scope_ok res
            = answeredOk (fst (request url accessToken
                                 (afterRequests accessToken (map snd (take i checks)) w))).
Proof.
  revert w. induction checks as [|[name0 url0] checks IH]; intros w.
  - cbn. repeat split. intros i name url Hi. rewrite lookup_nil in Hi. discriminate.
  - cbn [checkScopes].
    destruct (request url0 accessToken w) as [out w1] eqn:Hreq.
    specialize (IH w1). cbn zeta in IH.
    destruct (checkScopes accessToken checks w1) as [results w2].
    cbn [fst snd] in *. destruct IH as (Hnames & Hstate & Hok).
    split; [|split].
    + cbn [map fst]. rewrite Hnames. destruct out; reflexivity.
    + cbn [map snd]. rewrite afterRequests_cons, Hreq. exact Hstate.
    + intros [|i] name url Hi.
      * cbn in Hi. injection Hi as -> ->. eexists. split; [reflexivity|].
        cbn [take map snd]. unfold afterRequests at 1. cbn [fold_left]. rewrite Hreq.
        destruct out; reflexivity.
      * cbn in Hi. destruct (Hok i name url Hi) as (res & Hres & Hresok).
        exists res. split; [exact Hres|].
        cbn [take map snd]. rewrite afterRequests_cons, Hreq. exact Hresok.
Qed.

End Validate.

(** X22.  [validateToken] does not throw and judges the token by the
    profile request alone.  Without a token it sends nothing.  With one,
    the token is valid exactly when the profile request is answered ok
    with a body that decodes.  If it is not valid, the profile request was
    the only one and the result carries an error text and no scopes.  If
    it is valid, the three scope checks were requested after the profile,
    in the order of the list; the result names them in this order, each
    with [ok] as its own request was answered, and a scope check that is
    refused or fails takes nothing from the validity. *)
Theorem validateToken_verdict {W : Type} `{Service W} (accessToken : string) (w : W) :
  let result := fst (validateToken accessToken w) in
  let w' := snd (validateToken accessToken w) in
  let profile := fst (request profileUrl accessToken w) in
  (Js.truthy accessToken = false -> valid result = false /\ w' = w)
  /\ (Js.truthy accessToken = true ->
      (valid result = true
       <-> exists response data,
             profile = inr response /\ ok response = true /\ body response = inr data)
      /\ (valid result = false ->
          w' = afterRequests accessToken [profileUrl] w
          /\ scopes result = None /\ user result = None
          /\ validation_error result <> None)
      /\ (valid result = true ->
          w' = afterRequests accessToken (profileUrl :: map snd scopeChecks) w
          /\ exists results,
               scopes result = Some results
               /\ map scope results = map fst scopeChecks
               /\ forall i name url,
                    scopeChecks !! i = Some (name, url) ->
                    exists res,
                      results !! i = Some res
                      /\ scope_ok res
                         = match fst (request url accessToken
                                        (afterRequests accessToken
                                           (profileUrl :: map snd (take i scopeChecks)) w))
                           with
                           | inr r => ok r
                           | inl _ => false
                           end)).
Proof.
  intros result w' profile. subst result w' profile. unfold validateToken.
  split; [intros ->; cbn; auto|]. intros ->. cbn [negb].
  unfold afterRequests at 1. cbn [fold_left].
  destruct (request profileUrl accessToken w) as [[error|response] w1] eqn:Hprofile;
    cbn [fst snd].
  { split; [|split]; cbn [valid invalid scopes user validation_error].
    - split; [discriminate|]. intros (? & ? & [=] & _).
    - intros _. repeat split; congruence.
    - discriminate. }
  destruct (body response) as [error|data] eqn:Hbody.
  { split; [|split]; cbn [fst snd valid invalid scopes user validation_error].
    - split; [discriminate|]. intros (? & ? & [= <-] & _ & Hb). congruence.
    - intros _. repeat split; congruence.
    - discriminate. }
  destruct (ok response) eqn:Hok; cbn [negb].
  - pose proof (checkScopes_spec accessToken scopeChecks w1) as Hspec. cbn zeta in Hspec.
    destruct (checkScopes accessToken scopeChecks w1) as [scopeResults w2].
    cbn [fst snd] in *. destruct Hspec as (Hnames & Hstate & Hscopes).
    split; [|split]; cbn [valid scopes user validation_error].
    + split; [|reflexivity]. intros _. exists response, data. auto.
    + discriminate.
    + intros _. split.
      * rewrite afterRequests_cons, Hprofile. exact Hstate.
      * exists scopeResults. split; [reflexivity|]. split; [exact Hnames|].
        intros i name url Hi. destruct (Hscopes i name url Hi) as (res & Hres & Hresok).
        exists res. split; [exact Hres|].
        rewrite afterRequests_cons, Hprofile. exact Hresok.
  - destruct (errorMessageOf data) as [error|message];
      (split; [|split]); cbn [fst snd valid invalid scopes user validation_error];
      try discriminate.
    + split; [discriminate|]. intros (? & ? & [= <-] & Hk & _). congruence.
    + intros _. repeat split; congruence.
    + split; [discriminate|]. intros (? & ? & [= <-] & Hk & _). congruence.
    + intros _. repeat split; congruence.
Qed.

(** A valid token all of whose scope checks are refused. *)
Example valid_without_scopes :
  let profile := {| status := 200; statusText := "OK";
                    body := inr (JObject [("id", JString "listener")]) |} in
  let refusal := {| status := 403; statusText := "Forbidden"; body := inr (JObject []) |} in
  let result :=
    fst (validateToken (H := scriptedService) "token"
           [inr profile; inr refusal; inl (Js.newError "fetch failed"); inr refusal]) in
  valid result = true
  /\ (map scope_ok <$> scopes result) = Some [false; false; false].
Proof. vm_compute. auto. Qed.

Lemma validateToken_verdict_witness :
  let profile := {| status := 200; statusText := "OK";
                    body := inr (JObject [("id", JString "listener")]) |} in
  let refusal := {| status := 403; statusText := "Forbidden"; body := inr (JObject []) |} in
  let w := [inr profile; inr refusal; inl (Js.newError "fetch failed"); inr refusal] in
  valid (fst (validateToken (H := scriptedService) "token" w)) = true
  <-> exists response data,
        fst (request (Service := scriptedService) profileUrl "token" w) = inr response
        /\ ok response = true /\ body response = inr data.
Proof.
  intros profile refusal w.
  apply (validateToken_verdict (H := scriptedService) "token" w). reflexivity.
Defined.
End WebFacts.

(** ** The statistics of the dashboard pages *)

Module DashboardFacts.
Import Http Eff Spotify Metrics Dashboard Fixtures.

Local Open Scope Q_scope.

Lemma inject_succ (n : nat) :
  inject_Z (Z.of_nat (S n)) == inject_Z (Z.of_nat n) + 1.
Proof. rewrite Nat2Z.inj_succ. unfold Z.succ. rewrite inject_Z_plus. reflexivity. Qed.

Lemma inject_nat_nonneg (n : nat) : 0 <= inject_Z (Z.of_nat n).
Proof. change 0 with (inject_Z 0). rewrite <- Zle_Qle. lia. Qed.

Lemma inject_nat_pos (n : nat) : (0 < n)%nat -> 0 < inject_Z (Z.of_nat n).
Proof. intros Hn. change 0 with (inject_Z 0). rewrite <- Zlt_Qlt. lia. Qed.

(** *** Rounding *)

Lemma round_range (x : Q) : 0 <= x <= 100 -> (0 <= round x <= 100)%Z.
Proof.
  intros [Hlo Hhi]. unfold round. split.
  - change 0%Z with (Qfloor (1 # 2)). apply Qfloor_resp_le. lra.
  - change 100%Z with (Qfloor (100 + (1 # 2))). apply Qfloor_resp_le. lra.
Qed.

Lemma round_eq (x y : Q) : x == y -> round x = round y.
Proof. intros Heq. unfold round. rewrite Heq. reflexivity. Qed.

(** *** Averages *)

Lemma quotient_range (s n k : Q) : 0 < n -> 0 <= s <= k * n -> 0 <= s / n <= k.
Proof.
  intros Hn [Hlo Hhi]. split.
  - apply Qle_shift_div_l; [exact Hn|lra].
  - apply Qle_shift_div_r; [exact Hn|exact Hhi].
Qed.

Lemma fold_addFeatures (features : list (option AudioFeatures)) (acc : AvgFeatures) :
  let total := fold_left addFeatures features acc in
  avg_danceability total = sumOf danceability features (avg_danceability acc)
  /\ avg_energy total = sumOf energy features (avg_energy acc)
  /\ avg_valence total = sumOf valence features (avg_valence acc)
  /\ avg_acousticness total = sumOf acousticness features (avg_acousticness acc).
Proof.
  revert acc. induction features as [|curr features IH]; intros acc; [cbn; auto|].
  cbn [fold_left sumOf]. destruct curr as [curr|]; apply IH.
Qed.

Lemma sumOf_bounds (field : AudioFeatures -> Q) (features : list (option AudioFeatures))
    (acc : Q) :
  Forall (fun curr => match curr with Some f => 0 <= field f <= 1 | None => True end)
    features ->
  acc <= sumOf field features acc
  /\ sumOf field features acc <= acc + inject_Z (Z.of_nat (length (filter is_Some features))).
Proof.
  intros Hall. revert acc.
  induction Hall as [|curr features Hcurr _ IH]; intros acc.
  - unfold sumOf. cbn [fold_left]. rewrite filter_nil. cbn [length].
    change (inject_Z (Z.of_nat 0)) with 0. split; lra.
  - unfold sumOf. cbn [fold_left].
    change (fold_left _ features ?a) with (sumOf field features a).
    destruct curr as [f|].
    + rewrite filter_cons_True by eauto. cbn [length]. rewrite inject_succ.
      destruct (IH (acc + field f)) as [Hlo Hhi]. split; lra.
    + rewrite filter_cons_False by (intros [? [=]]). apply IH.
Qed.

Lemma average_range (field : AudioFeatures -> Q) (features : list (option AudioFeatures)) :
  Forall (fun curr => match curr with Some f => 0 <= field f <= 1 | None => True end)
    features ->
  let total := sumOf field features 0 in
  let validFeatures := length (filter is_Some features) in
  0 <= (if (0 <? validFeatures)%nat then total / inject_Z (Z.of_nat validFeatures) else total)
    <= 1.
Proof.
  intros Hall total validFeatures.
  destruct (sumOf_bounds field features 0 Hall) as [Hlo Hhi].
  fold total validFeatures in Hlo, Hhi.
  destruct (Nat.ltb_spec 0 validFeatures) as [Hpos|Hzero].
  - apply quotient_range; [apply inject_nat_pos, Hpos|lra].
  - assert (validFeatures = 0%nat) as Hz by lia. rewrite Hz in Hhi.
    change (inject_Z (Z.of_nat 0)) with 0 in Hhi. lra.
Qed.

Lemma obscurity_sum_bounds (popularities : list (option Q)) (acc : Q) :
  let total :=
    fold_left (fun acc popularity => acc + calculateObscurityScore (popularityOr50 popularity))
      popularities acc in
  acc <= total /\ total <= acc + 100 * inject_Z (Z.of_nat (length popularities)).
Proof.
  revert acc. induction popularities as [|p popularities IH]; intros acc.
  - cbn [fold_left length]. change (inject_Z (Z.of_nat 0)) with 0. split; lra.
  - cbn [fold_left length]. rewrite inject_succ.
    destruct (IH (acc + calculateObscurityScore (popularityOr50 p))) as [Hlo Hhi].
    pose proof (MetricsFacts.clamped_range (100 - popularityOr50 p)) as [H0 H100].
    fold (calculateObscurityScore (popularityOr50 p)) in H0, H100.
    cbn zeta in *. split; lra.
Qed.

(** X19.  The statistics the pages display are percentages: when the
    audio features that were averaged lie between 0 and 1 and there is at
    least one track, the obscurity score, the mood score and the four
    feature values are integers between 0 and 100, whatever the
    popularities are and however many entries of the feature list are
    [null]. *)
Theorem stats_in_range (popularities : list (option Q))
    (features : list (option AudioFeatures)) :
  Forall (fun curr => match curr with Some f => unitRange f | None => True end) features ->
  popularities <> [] ->
  let st := stats popularities features in
  (0 <= obscurityScore st <= 100)%Z
  /\ (0 <= moodScore st <= 100)%Z
  /\ map fst (audioFeatures st) = ["Danceability"; "Energy"; "Mood"; "Acousticness"]%string
  /\ Forall (fun entry => (0 <= snd entry <= 100)%Z) (audioFeatures st).
Proof.
  intros Hrange Hne st. subst st. unfold stats.
  cbn [obscurityScore moodScore audioFeatures map fst].
  split; [|split; [|split; [reflexivity|]]].
  - apply round_range. unfold avgObscurity.
    destruct (obscurity_sum_bounds popularities 0) as [Hlo Hhi]. cbn zeta in Hlo, Hhi.
    apply quotient_range; [|lra].
    apply inject_nat_pos. destruct popularities; [congruence|cbn; lia].
  - apply round_range, MetricsFacts.clamped_range.
  - assert (forall field : AudioFeatures -> Q,
              (forall f, unitRange f -> 0 <= field f <= 1) ->
              Forall (fun curr => match curr with
                                  | Some f => 0 <= field f <= 1
                                  | None => True
                                  end) features) as Hfield.
    { intros field Hf. eapply Forall_impl; [exact Hrange|].
      intros [f|]; [apply Hf|auto]. }
    unfold averageFeatures.
    destruct (fold_addFeatures features
                {| avg_danceability := 0; avg_energy := 0; avg_valence := 0;
                   avg_acousticness := 0 |}) as (Hd & He & Hv & Ha).
    cbn zeta in Hd, He, Hv, Ha. cbn [avg_danceability avg_energy avg_valence
                                     avg_acousticness] in Hd, He, Hv, Ha.
    pose proof (average_range danceability features
                  (Hfield danceability ltac:(unfold unitRange; tauto))) as Rd.
    pose proof (average_range energy features
                  (Hfield energy ltac:(unfold unitRange; tauto))) as Re.
    pose proof (average_range valence features
                  (Hfield valence ltac:(unfold unitRange; tauto))) as Rv.
    pose proof (average_range acousticness features
                  (Hfield acousticness ltac:(unfold unitRange; tauto))) as Ra.
    cbn zeta in Rd, Re, Rv, Ra. rewrite <- Hd in Rd. rewrite <- He in Re.
    rewrite <- Hv in Rv. rewrite <- Ha in Ra.
    destruct (0 <? length (filter is_Some features))%nat;
      cbn [avg_danceability avg_energy avg_valence avg_acousticness];
      repeat constructor; cbn [snd]; apply round_range; lra.
Qed.

Lemma stats_in_range_witness :
  let features := [Some someFeatures; None; Some defaultFeatures] in
  let st := stats [Some 80; None; Some 0] features in
  (0 <= obscurityScore st <= 100)%Z
  /\ (0 <= moodScore st <= 100)%Z
  /\ map fst (audioFeatures st) = ["Danceability"; "Energy"; "Mood"; "Acousticness"]%string
  /\ Forall (fun entry => (0 <= snd entry <= 100)%Z) (audioFeatures st).
Proof.
  intros features.
  apply (stats_in_range [Some 80; None; Some 0] features).
  - repeat constructor; vm_compute; congruence.
  - discriminate.
Defined.


(** *** The default features on the dashboard *)

Lemma sumOf_defaults (field : AudioFeatures -> Q) (trackIds : list string) (acc : Q) :
  sumOf field (map Some (fallbackFeatures trackIds)) acc
  == acc + inject_Z (Z.of_nat (length trackIds)) * field defaultFeatures.
Proof.
  revert acc. induction trackIds as [|i trackIds IH]; intros acc.
  - cbn [fallbackFeatures map sumOf fold_left length].
    change (inject_Z (Z.of_nat 0)) with 0. lra.
  - unfold sumOf. cbn [fallbackFeatures map fold_left length].
    change (fold_left _ (map Some (map _ trackIds)) ?a)
      with (sumOf field (map Some (fallbackFeatures trackIds)) a).
    rewrite IH, inject_succ. lra.
Qed.

Lemma filter_all_valid (fs : list AudioFeatures) :
  filter is_Some (map Some fs) = map Some fs.
Proof.
  induction fs as [|f fs IH]; [reflexivity|].
  cbn [map]. rewrite filter_cons_True by eauto. rewrite IH. reflexivity.
Qed.

Lemma average_of_defaults (field : AudioFeatures -> Q) (trackIds : list string) :
  trackIds <> [] ->
  sumOf field (map Some (fallbackFeatures trackIds)) 0
    / inject_Z (Z.of_nat (length trackIds))
  == field defaultFeatures.
Proof.
  intros Hne. rewrite sumOf_defaults.
  assert (0 < inject_Z (Z.of_nat (length trackIds))) as Hpos.
  { apply inject_nat_pos. destruct trackIds; [congruence|cbn; lia]. }
  field. lra.
Qed.

Lemma mood_of_half (v e : Q) : v == 1 # 2 -> e == 1 # 2 -> calculateMoodScore v e == 50.
Proof.
  intros Hv He. unfold calculateMoodScore.
  assert ((v + e) / 2 * 100 == 50) as Hmean by (rewrite Hv, He; reflexivity).
  rewrite Q.min_r by (rewrite Hmean; discriminate).
  rewrite Q.max_r by (rewrite Hmean; discriminate). exact Hmean.
Qed.

(** X20.  The default features on the dashboard: when the environment
    flag forces them, [getTrackFeatures] returns one default record per
    track without a request; the dashboard's test recognises such a list,
    and the statistics computed from it show 50 for the mood and for each
    of the four features, for any number of tracks. *)
Theorem default_features_displayed {W : Type} `{Remote W}
    (accessToken : string) (trackIds : list string) (popularities : list (option Q))
    (s : Sys W) :
  trackIds <> [] ->
  let features := map Some (fallbackFeatures trackIds) in
  getTrackFeatures (Some "true"%string) accessToken trackIds s
  = (Ok (fallbackFeatures trackIds), s)
  /\ usingFallbackFeatures features = true
  /\ moodScore (stats popularities features) = 50%Z
  /\ audioFeatures (stats popularities features)
     = [ ("Danceability"%string, 50%Z); ("Energy"%string, 50%Z);
         ("Mood"%string, 50%Z); ("Acousticness"%string, 50%Z) ].
Proof.
  intros Hne features.
  split; [|split].
  - unfold getTrackFeatures. destruct trackIds; [congruence|reflexivity].
  - subst features. destruct trackIds; [congruence|reflexivity].
  - assert (length (filter is_Some features) = length trackIds) as Hcount.
    { subst features. unfold fallbackFeatures.
      rewrite filter_all_valid, !length_map. reflexivity. }
    assert ((0 <? length (filter is_Some features))%nat = true) as Hvalid.
    { rewrite Hcount. destruct trackIds; [congruence|reflexivity]. }
    destruct (fold_addFeatures features
                {| avg_danceability := 0; avg_energy := 0; avg_valence := 0;
                   avg_acousticness := 0 |}) as (Hd & He & Hv & Ha).
    cbn zeta in Hd, He, Hv, Ha.
    cbn [avg_danceability avg_energy avg_valence avg_acousticness] in Hd, He, Hv, Ha.
    unfold stats, averageFeatures. rewrite Hvalid, Hcount.
    cbn [moodScore audioFeatures avg_danceability avg_energy avg_valence avg_acousticness].
    rewrite Hd, He, Hv, Ha. subst features.
    pose proof (average_of_defaults danceability trackIds Hne) as Ad.
    pose proof (average_of_defaults energy trackIds Hne) as Ae.
    pose proof (average_of_defaults valence trackIds Hne) as Av.
    pose proof (average_of_defaults acousticness trackIds Hne) as Aa.
    cbn [defaultFeatures danceability energy valence acousticness] in Ad, Ae, Av, Aa.
    split.
    + rewrite (round_eq _ 50) by (apply mood_of_half; assumption). reflexivity.
    + rewrite (round_eq (_ danceability _ _ / _ * 100) 50) by (rewrite Ad; reflexivity).
      rewrite (round_eq (_ energy _ _ / _ * 100) 50) by (rewrite Ae; reflexivity).
      rewrite (round_eq (_ valence _ _ / _ * 100) 50) by (rewrite Av; reflexivity).
      rewrite (round_eq (_ acousticness _ _ / _ * 100) 50) by (rewrite Aa; reflexivity).
      reflexivity.
Qed.

Lemma default_features_displayed_witness :
  let trackIds := ["a"; "b"; "c"]%string in
  let features := map Some (fallbackFeatures trackIds) in
  let s := fresh [] in
  getTrackFeatures (H := scripted) (Some "true"%string) "token" trackIds s
  = (Ok (fallbackFeatures trackIds), s)
  /\ usingFallbackFeatures features = true
  /\ moodScore (stats [Some 80] features) = 50%Z
  /\ audioFeatures (stats [Some 80] features)
     = [ ("Danceability"%string, 50%Z); ("Energy"%string, 50%Z);
         ("Mood"%string, 50%Z); ("Acousticness"%string, 50%Z) ].
Proof.
  intros trackIds features s.
  apply (default_features_displayed (H := scripted) "token" trackIds [Some 80] s).
  discriminate.
Defined.

(** *** Tracks without a popularity *)

Lemma obscurity_of_50 : calculateObscurityScore 50 == 50.
Proof.
  unfold calculateObscurityScore. rewrite Q.min_r by lra. rewrite Q.max_r by lra. lra.
Qed.

Lemma obscurity_sum_unrated (popularities : list (option Q)) (acc : Q) :
  Forall (fun popularity => popularityOr50 popularity = 50) popularities ->
  fold_left (fun acc popularity => acc + calculateObscurityScore (popularityOr50 popularity))
    popularities acc
  == acc + 50 * inject_Z (Z.of_nat (length popularities)).
Proof.
  intros Hall. revert acc. induction Hall as [|p popularities Hp _ IH]; intros acc.
  - cbn [fold_left length]. change (inject_Z (Z.of_nat 0)) with 0. lra.
  - cbn [fold_left length]. rewrite IH, Hp, obscurity_of_50, inject_succ. lra.
Qed.

(** X21.  [popularity || 50] treats a popularity of 0 like a missing
    one: tracks that Spotify rates 0, the most obscure there are, count as
    tracks of popularity 50, so that a list made of such tracks only gets
    the obscurity score 50 and not 100.  A list whose tracks all have the
    popularity 1 gets 99. *)
Theorem unrated_tracks_score_50 (popularities : list (option Q))
    (features : list (option AudioFeatures)) :
  popularities <> [] ->
  (Forall (fun popularity =>
             popularity = None \/ exists p, popularity = Some p /\ p == 0) popularities ->
   obscurityScore (stats popularities features) = 50%Z)
  /\ (popularities = map (fun _ => Some 1) popularities ->
      obscurityScore (stats popularities features) = 99%Z).
Proof.
  intros Hne.
  assert (0 < inject_Z (Z.of_nat (length popularities))) as Hpos.
  { apply inject_nat_pos. destruct popularities; [congruence|cbn; lia]. }
  split.
  - intros Hall. unfold stats. cbn [obscurityScore].
    rewrite (round_eq _ 50); [reflexivity|].
    unfold avgObscurity. rewrite obscurity_sum_unrated.
    + field. lra.
    + eapply Forall_impl; [exact Hall|].
      intros popularity [->|(p & -> & Hp)]; [reflexivity|].
      unfold popularityOr50. apply Qeq_bool_iff in Hp. rewrite Hp. reflexivity.
  - intros Hones. unfold stats. cbn [obscurityScore].
    rewrite (round_eq _ 99); [reflexivity|].
    unfold avgObscurity.
    assert (forall acc,
              fold_left (fun acc popularity =>
                           acc + calculateObscurityScore (popularityOr50 popularity))
                popularities acc
              == acc + 99 * inject_Z (Z.of_nat (length popularities))) as Hsum.
    { rewrite Hones, length_map. clear. induction popularities as [|p ps IH]; intros acc.
      - cbn [map fold_left length]. change (inject_Z (Z.of_nat 0)) with 0. lra.
      - cbn [map fold_left length]. rewrite IH, inject_succ.
        assert (calculateObscurityScore (popularityOr50 (Some 1)) == 99) as ->.
        { cbn [popularityOr50]. change (Qeq_bool 1 0) with false. cbn iota.
          unfold calculateObscurityScore.
          rewrite Q.min_r by lra. rewrite Q.max_r by lra. lra. }
        lra. }
    rewrite Hsum. field. lra.
Qed.

Lemma unrated_tracks_score_50_witness :
  obscurityScore (stats [Some 0; None; Some 0] []) = 50%Z.
Proof.
  apply (unrated_tracks_score_50 [Some 0; None; Some 0] []).
  - discriminate.
  - constructor; [right; exists 0; split; reflexivity|].
    constructor; [left; reflexivity|].
    constructor; [right; exists 0; split; reflexivity|constructor].
Defined.
End DashboardFacts.
